(** * Field masks over schema-described records

    A shallow embedding of the Go package [fieldmask]: the path parser
    ([parse.go]), the mask tree ([message.go], [map.go], the list masks,
    [scalar.go]), the generic copy and update routines ([settings.go]) and
    the public facade, together with the properties the specification
    states about them.

    Go strings are byte sequences: they are modelled by [string], whose
    characters are the 8-bit [ascii] values.  Go maps are modelled by
    [gmap]; a nil map is [None] and an allocated map is [Some m]. *)

From Stdlib Require Import ZArith Ascii String Lia.
From stdpp Require Import base option list gmap strings fin_maps sorting pretty.

Local Open Scope string_scope.

(** ** Errors and outcomes *)

(** The errors the package returns.  [errSyntax] is [strconv.ErrSyntax];
    the others are the [fmt.Errorf] values of the mask constructors, kept
    apart by their format string and arguments. *)
Inductive error :=
| errSyntax
| errUnknownField (msg name : string)
| errInvalidScalarSubpath (subpath : string)
| errInvalidListPath (path : string)
| errKey (text : string).

(** What a call can do: return normally, return an error, panic, or (in
    the model only) exhaust the recursion budget it was given. *)
Inductive res (A : Type) :=
| Ok (a : A)
| Err (e : error)
| Panic (msg : string)
| OutOfFuel.
Arguments Ok {A} a.
Arguments Err {A} e.
Arguments Panic {A} msg.
Arguments OutOfFuel {A}.

(** ** Byte-level string helpers *)

Definition is_delim (c : ascii) : bool :=
  (Ascii.eqb c "." || Ascii.eqb c ",")%bool.

Fixpoint str_mem (c : ascii) (s : string) : bool :=
  match s with
  | "" => false
  | String d s' => (Ascii.eqb c d || str_mem c s')%bool
  end.

(** [s[:n]] *)
Fixpoint slice_to (n : nat) (s : string) : string :=
  match n, s with
  | S n', String c s' => String c (slice_to n' s')
  | _, _ => ""
  end.

(** [s[n:]] *)
Fixpoint slice_from (n : nat) (s : string) : string :=
  match n, s with
  | S n', String _ s' => slice_from n' s'
  | _, _ => s
  end.

(** [strings.IndexAny(s, chars)] for single-byte [chars]. *)
Fixpoint IndexAny (s chars : string) : option nat :=
  match s with
  | "" => None
  | String c s' => if str_mem c chars then Some 0 else S <$> IndexAny s' chars
  end.

(** [strings.IndexByte(s, c)] *)
Fixpoint IndexByte (s : string) (c : ascii) : option nat :=
  match s with
  | "" => None
  | String d s' => if Ascii.eqb c d then Some 0 else S <$> IndexByte s' c
  end.

(** [strconv.QuotedPrefix] on an input that starts with a backtick, the
    only way [nextToken] calls it: a raw string literal runs to the next
    backtick and has no escapes; the prefix keeps both quotes. *)
Definition QuotedPrefix (s : string) : option string :=
  match s with
  | String "`" body =>
      match IndexByte body "`" with
      | Some end_ => Some (slice_to (end_ + 2) s)
      | None => None
      end
  | _ => None
  end.

(** ** parse.go *)

Definition nextToken (s : string) : res (string * string) :=
  match s with
  | "" => Err errSyntax
  | String c s' =>
      if (Ascii.eqb c "." || Ascii.eqb c "," || Ascii.eqb c "*")%bool then
        Ok (String c "", s')
      else if Ascii.eqb c "`" then
        match QuotedPrefix s with
        | None => Err errSyntax
        | Some quoted => Ok (quoted, slice_from (String.length quoted) s)
        end
      else
        match IndexAny s ".," with
        | Some i => Ok (slice_to i s, slice_from i s)
        | None => Ok (s, "")
        end
  end.

(** The [for] loop of [nextPath]; one unit of [fuel] per iteration. *)
Fixpoint nextPath_loop (fuel : nat) (s rest : string) : res (string * string) :=
  match fuel with
  | O => OutOfFuel
  | S fuel' =>
      match nextToken rest with
      | Ok (tok, rest) =>
          if (String.eqb tok "." || String.eqb tok ",")%bool then Err errSyntax
          else if String.eqb rest "" then Ok (s, "")
          else
            match nextToken rest with
            | Ok (tok, rest) =>
                if String.eqb rest "" then Err errSyntax
                else if String.eqb tok "," then
                  Ok (slice_to (String.length s - String.length rest - 1) s, rest)
                else if negb (String.eqb tok ".") then Err errSyntax
                else nextPath_loop fuel' s rest
            | _ => Err errSyntax
            end
      | _ => Err errSyntax
      end
  end.

(** Every iteration consumes at least two bytes, so the length of the
    input bounds the number of iterations (see [nextPath_terminates]). *)
Definition nextPath (s : string) : res (string * string) :=
  if String.eqb s "" then Err errSyntax
  else nextPath_loop (S (String.length s)) s s.

Definition nextSegment (s : string) : res (string * string) :=
  match nextToken s with
  | Ok (segment, rest) =>
      if (String.eqb segment "." || String.eqb segment ",")%bool then Err errSyntax
      else if String.eqb rest "" then Ok (segment, "")
      else
        match nextToken rest with
        | Ok (next, rest) =>
            if (negb (String.eqb next ".") || String.eqb rest "")%bool then Err errSyntax
            else Ok (segment, rest)
        | _ => Err errSyntax
        end
  | _ => Err errSyntax
  end.

Definition joinPath (a b : string) : string := a +:+ "." +:+ b.


(** ** The schema provider (package [protoreflect], descriptors) *)

Inductive Kind :=
| BoolKind | EnumKind | Int32Kind | Sint32Kind | Uint32Kind
| Int64Kind | Sint64Kind | Uint64Kind | Sfixed32Kind | Fixed32Kind
| FloatKind | Sfixed64Kind | Fixed64Kind | DoubleKind
| StringKind | BytesKind | MessageKind | GroupKind.

Inductive Cardinality :=
| Singular
| Repeated
| MapOf (key : Kind).

(** A [protoreflect.FieldDescriptor].  [ElemKind] and [ElemMessage] are
    [Kind()] and [Message()] of the field itself when it is singular or a
    list, and of [MapValue()] when it is a map; [ElemMessage] is the full
    name of the message type, resolved through the schema.
    [ContainingOneof] is the name of the oneof the field is a member of,
    [None] where [ContainingOneof()] is nil. *)
Record FieldDescriptor := {
  Number : Z;
  Name : string;
  TextName : string;
  JSONName : string;
  IsExtension : bool;
  ContainingOneof : option string;
  Card : Cardinality;
  ElemKind : Kind;
  ElemMessage : option string;
}.

(** [desc.Fields()] for the message type of a given full name.  Message
    types refer to each other (and to themselves) by name. *)
Definition Schema := string → list FieldDescriptor.

Definition IsList (fd : FieldDescriptor) : bool :=
  match Card fd with Repeated => true | _ => false end.

Definition IsMap (fd : FieldDescriptor) : bool :=
  match Card fd with MapOf _ => true | _ => false end.

Definition isBytesKind (k : Kind) : bool :=
  match k with BytesKind => true | _ => false end.

Definition isMessage (k : Kind) : bool :=
  match k with MessageKind | GroupKind => true | _ => false end.

(** [fd.Message()] as the code reads it after [IsList] and [IsMap] have
    been ruled out, and on [MapValue()]. *)
Definition MessageName (fd : FieldDescriptor) : string :=
  default "" (ElemMessage fd).

Definition ByTextName (fields : list FieldDescriptor) (name : string)
  : option FieldDescriptor :=
  find (λ fd, String.eqb (TextName fd) name) fields.

Definition ByJSONName (fields : list FieldDescriptor) (name : string)
  : option FieldDescriptor :=
  find (λ fd, String.eqb (JSONName fd) name) fields.

(** ** settings.go: settings and field lookup *)

Inductive MaskUnknowns := MaskRemovesUnknowns | MaskRetainsUnknowns.
Inductive UpdateUnknowns :=
  UpdateRetainsUnknowns | UpdateAppendsUnknowns | UpdateReplacesUnknowns.
Inductive UpdateRepeated := UpdateReplacesRepeated | UpdateAppendsRepeated.

(** The four [fieldLookupFunc] values of [settings.go]. *)
Inductive fieldLookupFunc :=
| lookupTextField | lookupTextFieldStrict | lookupJSONField | lookupJSONFieldStrict.

Record settings := {
  extensions : bool;
  lookupField : fieldLookupFunc;
  maskUnknowns : MaskUnknowns;
  updateUnknowns : UpdateUnknowns;
  updateRepeated : UpdateRepeated;
}.

(** The zero settings with the default lookup of [newFieldMaskT]. *)
Definition defaultSettings : settings :=
  {| extensions := false; lookupField := lookupTextField;
     maskUnknowns := MaskRemovesUnknowns;
     updateUnknowns := UpdateRetainsUnknowns;
     updateRepeated := UpdateReplacesRepeated |}.

Definition doLookupField (f : fieldLookupFunc) (fields : list FieldDescriptor)
    (name : string) : option (string * FieldDescriptor) :=
  match f with
  | lookupTextField =>
      match ByTextName fields name with
      | Some fd => Some (TextName fd, fd)
      | None =>
          match ByJSONName fields name with
          | Some fd => Some (TextName fd, fd)
          | None => None
          end
      end
  | lookupTextFieldStrict =>
      match ByTextName fields name with
      | Some fd => if String.eqb (TextName fd) name then Some (TextName fd, fd) else None
      | None => None
      end
  | lookupJSONField =>
      match ByJSONName fields name with
      | Some fd => Some (JSONName fd, fd)
      | None =>
          match ByTextName fields name with
          | Some fd => Some (JSONName fd, fd)
          | None => None
          end
      end
  | lookupJSONFieldStrict =>
      match ByJSONName fields name with
      | Some fd => if String.eqb (JSONName fd) name then Some (JSONName fd, fd) else None
      | None => None
      end
  end.

Definition allow (s : settings) (fd : FieldDescriptor) : bool :=
  negb (IsExtension fd && negb (extensions s)).

Definition retainsUnknowns (s : settings) : bool :=
  match maskUnknowns s with MaskRetainsUnknowns => true | _ => false end.

Definition appendsRepeated (s : settings) : bool :=
  match updateRepeated s with UpdateAppendsRepeated => true | _ => false end.

(** ** The record value store (package [protoreflect], values) *)

(** A [protoreflect.MapKey]. *)
Inductive MapKey :=
| MapKeyBool (b : bool)
| MapKeyInt (z : Z)
| MapKeyString (s : string).

Global Instance MapKey_eq_dec : EqDecision MapKey.
Proof. solve_decision. Defined.

Global Instance MapKey_countable : Countable MapKey.
Proof.
  refine (inj_countable'
    (λ k, match k with
          | MapKeyBool b => inl b
          | MapKeyInt z => inr (inl z)
          | MapKeyString s => inr (inr s)
          end)
    (λ x, match x with
          | inl b => MapKeyBool b
          | inr (inl z) => MapKeyInt z
          | inr (inr s) => MapKeyString s
          end) _).
  by intros [].
Defined.

(** A [protoreflect.Value] and a [protoreflect.Message].  Byte strings
    ([[]byte], [RawFields]) are [string]s.  A message holds its populated
    fields by field number, each with its descriptor as [Range] hands it
    out, and its unknown bytes.  A message of the program holds at most
    one member of a oneof, which [Set] and [Mutable] see to.
    Floating-point scalars are left out. *)
#[local] Unset Elimination Schemes.
Inductive Value :=
| ValueOfBool (b : bool)
| ValueOfInt (z : Z)
| ValueOfString (s : string)
| ValueOfBytes (b : string)
| ValueOfMessage (m : Message)
| ValueOfList (l : list Value)
| ValueOfMap (m : gmap MapKey Value)
with Message :=
| MkMessage (desc : string) (fields : gmap Z (FieldDescriptor * Value)) (unknown : string).
#[local] Set Elimination Schemes.

Definition Descriptor (m : Message) : string :=
  let 'MkMessage d _ _ := m in d.
Definition Fields (m : Message) : gmap Z (FieldDescriptor * Value) :=
  let 'MkMessage _ f _ := m in f.
Definition GetUnknown (m : Message) : string :=
  let 'MkMessage _ _ u := m in u.
Definition SetUnknown (m : Message) (u : string) : Message :=
  let 'MkMessage d f _ := m in MkMessage d f u.
Definition WithFields (m : Message) (f : gmap Z (FieldDescriptor * Value)) : Message :=
  let 'MkMessage d _ u := m in MkMessage d f u.

(** [protoreflect.Message] methods.  A message stores exactly its
    populated fields: a list or map field that is empty is not populated
    ([Has] is false, [Range] skips it, and [proto.Equal] does not tell it
    from a cleared field), so writing an empty list or map clears the
    field. *)
Definition populated (v : Value) : bool :=
  match v with
  | ValueOfList [] => false
  | ValueOfMap m => negb (bool_decide (m = ∅))
  | _ => true
  end.
Definition store (fd : FieldDescriptor) (v : Value) : option (FieldDescriptor * Value) :=
  if populated v then Some (fd, v) else None.

Definition NewMessage (desc : string) : Message := MkMessage desc ∅ "".
Definition New (m : Message) : Message := NewMessage (Descriptor m).
Definition Has (m : Message) (fd : FieldDescriptor) : bool :=
  bool_decide (is_Some (Fields m !! Number fd)).
(** [Get] of an unpopulated field is [None]: the code only reads it behind
    [Has], [IsValid] or a populated [Range]. *)
Definition Get (m : Message) (fd : FieldDescriptor) : option Value :=
  snd <$> Fields m !! Number fd.
(** [Set] and [Mutable] of a member of a oneof first clear every other
    populated member of that oneof. *)
Definition inOneofOf (fd fd' : FieldDescriptor) : bool :=
  match ContainingOneof fd with
  | Some o => bool_decide (ContainingOneof fd' = Some o)
  | None => false
  end.
Definition clearOneof (fd : FieldDescriptor) (fields : gmap Z (FieldDescriptor * Value))
  : gmap Z (FieldDescriptor * Value) :=
  filter (λ kv, kv.1 = Number fd ∨ inOneofOf fd kv.2.1 = false) fields.
Definition Set_ (m : Message) (fd : FieldDescriptor) (v : Value) : Message :=
  WithFields m (partial_alter (λ _, store fd v) (Number fd) (clearOneof fd (Fields m))).
Definition Clear (m : Message) (fd : FieldDescriptor) : Message :=
  WithFields m (delete (Number fd) (Fields m)).

(** The value a composite field starts from: [NewField], [NewElement],
    [NewValue] and what [Mutable] allocates for an unpopulated field. *)
Definition asList (v : option Value) : list Value :=
  match v with Some (ValueOfList l) => l | _ => [] end.
Definition asMap (v : option Value) : gmap MapKey Value :=
  match v with Some (ValueOfMap m) => m | _ => ∅ end.
Definition asMessage (desc : string) (v : option Value) : Message :=
  match v with Some (ValueOfMessage m) => m | _ => NewMessage desc end.

Definition copyBytes (buf : string) : string := buf.

Definition cloneBytesValue (val : Value) : Value :=
  match val with
  | ValueOfBytes b => ValueOfBytes (copyBytes b)
  | _ => val
  end.

(** ** settings.go: the generic copy and update routines *)

(** [Range] visits every populated field (map entry) once and each visit
    of these routines reads and writes that one field (entry) only, so a
    [Range] loop is the pointwise [merge], [omap] or [filter] of the maps
    involved.  The copy writes into a record that its caller has just
    allocated, from a source that holds at most one member of a oneof, so
    that its [Set] and [Mutable] find no other member to clear; the
    update writes into the caller's destination and does clear them.  A
    value that does not have the shape its descriptor announces makes the
    Go accessor panic; records are typed by their schema, and the model
    leaves such a field as it is. *)
Section copy.
Context (s : settings).
(** [s.copyMessage(dst, src)], the recursive call. *)
Context (copyMessage : Message → Message → Message).

Definition copyElemMessage (name : string) (v : Value) : Value :=
  match v with
  | ValueOfMessage m => ValueOfMessage (copyMessage (NewMessage name) m)
  | _ => v
  end.

Definition copyList_body (dst src : list Value) (fd : FieldDescriptor) : list Value :=
  match ElemMessage fd with
  | Some name => dst ++ map (copyElemMessage name) src
  | None =>
      if isBytesKind (ElemKind fd) then dst ++ map cloneBytesValue src
      else dst ++ src
  end.

Definition copyMap_body (dst src : gmap MapKey Value) (fd : FieldDescriptor)
  : gmap MapKey Value :=
  match ElemMessage fd with
  | Some name => (copyElemMessage name <$> src) ∪ dst
  | None =>
      if isBytesKind (ElemKind fd) then (cloneBytesValue <$> src) ∪ dst
      else src ∪ dst
  end.

(** One visit of the [Range] in [copyMessage]: [dv] is the field of
    [dst] before the visit, the result the field after it. *)
Definition copyField (fd : FieldDescriptor) (val : Value)
    (dv : option (FieldDescriptor * Value)) : option (FieldDescriptor * Value) :=
  if negb (allow s fd) then dv
  else if IsList fd then
    match val with
    | ValueOfList src => store fd (ValueOfList (copyList_body (asList (snd <$> dv)) src fd))
    | _ => dv
    end
  else if IsMap fd then
    match val with
    | ValueOfMap src => store fd (ValueOfMap (copyMap_body (asMap (snd <$> dv)) src fd))
    | _ => dv
    end
  else
    match ElemMessage fd with
    | Some name =>
        match val with
        | ValueOfMessage src =>
            store fd (ValueOfMessage (copyMessage (asMessage name (snd <$> dv)) src))
        | _ => dv
        end
    | None =>
        if isBytesKind (ElemKind fd) then store fd (cloneBytesValue val)
        else store fd val
    end.
End copy.

Fixpoint copyMessage (s : settings) (dst src : Message) {struct src} : Message :=
  match src with
  | MkMessage _ sfields sunknown =>
      let dst :=
        WithFields dst
          (merge (λ sv dv,
                    match sv with
                    | Some (fd, val) => copyField s (copyMessage s) fd val dv
                    | None => dv
                    end) sfields (Fields dst)) in
      if retainsUnknowns s then SetUnknown dst (copyBytes sunknown) else dst
  end.

Definition copyList (s : settings) := copyList_body (copyMessage s).
Definition copyMap (s : settings) := copyMap_body (copyMessage s).

Definition doUpdateUnknowns (s : settings) (dst src : Message) : Message :=
  let srcUnknowns := GetUnknown src in
  match updateUnknowns s with
  | UpdateAppendsUnknowns =>
      if negb (String.eqb srcUnknowns "") then
        SetUnknown dst (copyBytes (GetUnknown dst) +:+ srcUnknowns)
      else dst
  | UpdateReplacesUnknowns => SetUnknown dst (copyBytes srcUnknowns)
  | UpdateRetainsUnknowns => dst
  end.

Section update.
Context (s : settings).
(** [s.updateMessage(dst, src)], the recursive call. *)
Context (updateMessage : Message → Message → Message).

Definition updateElemMessage (name : string) (v : Value) : Value :=
  match v with
  | ValueOfMessage m => ValueOfMessage (updateMessage (NewMessage name) m)
  | _ => v
  end.

Definition updateList_body (dst src : list Value) (fd : FieldDescriptor) : list Value :=
  let dst := if appendsRepeated s then dst else [] in
  match ElemMessage fd with
  | Some name => dst ++ map (updateElemMessage name) src
  | None => dst ++ src
  end.

Definition updateMap_body (dst src : gmap MapKey Value) (fd : FieldDescriptor)
  : gmap MapKey Value :=
  let dst := filter (λ kv, is_Some (src !! kv.1)) dst in
  match ElemMessage fd with
  | Some name => (updateElemMessage name <$> src) ∪ dst
  | None => src ∪ dst
  end.

(** The [switch] of [updateField] for a field that [src] has, with
    value [val]: [dv] is the field of [dst] before, the result after. *)
Definition updateFieldFrom (val : Value) (fd : FieldDescriptor)
    (dv : option (FieldDescriptor * Value)) : option (FieldDescriptor * Value) :=
  if IsList fd then
    match val with
    | ValueOfList src => store fd (ValueOfList (updateList_body (asList (snd <$> dv)) src fd))
    | _ => dv
    end
  else if IsMap fd then
    match val with
    | ValueOfMap src => store fd (ValueOfMap (updateMap_body (asMap (snd <$> dv)) src fd))
    | _ => dv
    end
  else
    match ElemMessage fd with
    | Some name =>
        match val with
        | ValueOfMessage src =>
            store fd (ValueOfMessage (updateMessage (asMessage name (snd <$> dv)) src))
        | _ => dv
        end
    | None => store fd val
    end.
End update.

(** [updateField], given for every populated field of [src] what the
    [switch] does with it ([from]).  Every case of the [switch] reaches
    the field through [Mutable] or [Set], which clear the other members
    of the field's oneof. *)
Definition updateField_body (s : settings)
    (from : gmap Z (FieldDescriptor → option (FieldDescriptor * Value)
                    → option (FieldDescriptor * Value)))
    (dst : Message) (fd : FieldDescriptor) : Message :=
  if negb (allow s fd) then dst
  else
    match from !! Number fd with
    | None =>
        if (IsList fd && appendsRepeated s)%bool then dst
        else Clear dst fd
    | Some upd =>
        WithFields dst (partial_alter (upd fd) (Number fd) (clearOneof fd (Fields dst)))
    end.

Fixpoint updateMessage (sch : Schema) (s : settings) (dst src : Message) {struct src}
  : Message :=
  match src with
  | MkMessage _ sfields _ =>
      let from := (λ p, updateFieldFrom s (updateMessage sch s) p.2) <$> sfields in
      let dst := foldl (updateField_body s from) dst (sch (Descriptor dst)) in
      doUpdateUnknowns s dst src
  end.

Definition updateList (sch : Schema) (s : settings) :=
  updateList_body s (updateMessage sch s).
Definition updateMap (sch : Schema) (s : settings) :=
  updateMap_body (updateMessage sch s).
Definition updateField (sch : Schema) (s : settings) (dst src : Message)
    (fd : FieldDescriptor) : Message :=
  updateField_body s
    ((λ p, updateFieldFrom s (updateMessage sch s) p.2) <$> Fields src) dst fd.

(** ** map.go: the key codec *)

(** The type parameter [T] of the map masks: [string], or one of [byte],
    [int32], [int64], [uint32], [uint64] as an integer. *)
Inductive keyT :=
| TString (s : string)
| TInt (z : Z).

Global Instance keyT_eq_dec : EqDecision keyT.
Proof. solve_decision. Defined.

Global Instance keyT_countable : Countable keyT.
Proof.
  refine (inj_countable'
    (λ k, match k with TString s => inl s | TInt z => inr z end)
    (λ x, match x with inl s => TString s | inr z => TInt z end) _).
  by intros [].
Defined.

(** The order [slices.Sort] uses on [T]: bytewise on strings, numeric on
    integers (one mask holds keys of one kind only). *)
Definition keyT_leb (a b : keyT) : bool :=
  match a, b with
  | TString x, TString y => String.leb x y
  | TInt x, TInt y => (x <=? y)%Z
  | TString _, TInt _ => true
  | TInt _, TString _ => false
  end.

Record keyFuncs := {
  value : MapKey → keyT;
  format : keyT → string;
  parse : string → option keyT;
}.

Definition is_digit (c : ascii) : bool :=
  let n := nat_of_ascii c in ((48 <=? n) && (n <=? 57))%nat.

Fixpoint parseDigits (s : string) (acc : Z) : option Z :=
  match s with
  | "" => Some acc
  | String c s' =>
      if is_digit c then parseDigits s' (10 * acc + (Z.of_nat (nat_of_ascii c) - 48))%Z
      else None
  end.

(** [strconv.ParseUint(s, 10, bitSize)]: decimal digits only, in range. *)
Definition ParseUint (s : string) (bitSize : Z) : option Z :=
  if String.eqb s "" then None
  else
    match parseDigits s 0 with
    | Some v => if (v <? 2 ^ bitSize)%Z then Some v else None
    | None => None
    end.

(** [strconv.ParseInt(s, 10, bitSize)]: an optional sign, then digits. *)
Definition ParseInt (s : string) (bitSize : Z) : option Z :=
  match s with
  | "" => None
  | String c s' =>
      let '(neg, digits) :=
        if Ascii.eqb c "+" then (false, s')
        else if Ascii.eqb c "-" then (true, s')
        else (false, s) in
      if String.eqb digits "" then None
      else
        match parseDigits digits 0 with
        | Some un =>
            if neg then
              if (un <=? 2 ^ (bitSize - 1))%Z then Some (- un)%Z else None
            else
              if (un <? 2 ^ (bitSize - 1))%Z then Some un else None
        | None => None
        end
  end.

(** [strconv.ParseBool] *)
Definition ParseBool (s : string) : option bool :=
  if (String.eqb s "1" || String.eqb s "t" || String.eqb s "T"
      || String.eqb s "TRUE" || String.eqb s "true" || String.eqb s "True")%bool
  then Some true
  else if (String.eqb s "0" || String.eqb s "f" || String.eqb s "F"
      || String.eqb s "FALSE" || String.eqb s "false" || String.eqb s "False")%bool
  then Some false
  else None.

(** The conversions [int32(v)] and [uint32(v)] of a 64-bit integer. *)
Definition to_int32 (z : Z) : Z := ((z + 2 ^ 31) mod 2 ^ 32 - 2 ^ 31)%Z.
Definition to_uint32 (z : Z) : Z := (z mod 2 ^ 32)%Z.

Definition boolToByte (b : bool) : Z := if b then 1%Z else 0%Z.

(** A key of another type than the codec's makes the [protoreflect]
    accessor panic; a typed map never holds one, and the model maps it to
    the zero key. *)
Definition keyString (k : MapKey) : string :=
  match k with MapKeyString s => s | _ => "" end.
Definition keyInt (k : MapKey) : Z :=
  match k with MapKeyInt z => z | _ => 0%Z end.
Definition keyBool (k : MapKey) : bool :=
  match k with MapKeyBool b => b | _ => false end.

Definition formatInt (k : keyT) : string :=
  match k with TInt z => pretty z | TString s => s end.

Definition stringKeyFuncs : keyFuncs :=
  {| value := λ k, TString (keyString k);
     format := λ v, match v with TString s => s | TInt z => pretty z end;
     parse := λ v, Some (TString v) |}.

Definition int32KeyFuncs : keyFuncs :=
  {| value := λ k, TInt (to_int32 (keyInt k));
     format := formatInt;
     parse := λ s, TInt <$> (to_int32 <$> ParseInt s 32) |}.

Definition int64KeyFuncs : keyFuncs :=
  {| value := λ k, TInt (keyInt k);
     format := formatInt;
     parse := λ s, TInt <$> ParseInt s 64 |}.

Definition uint32KeyFuncs : keyFuncs :=
  {| value := λ k, TInt (to_uint32 (keyInt k));
     format := formatInt;
     parse := λ s, TInt <$> (to_uint32 <$> ParseUint s 32) |}.

Definition uint64KeyFuncs : keyFuncs :=
  {| value := λ k, TInt (keyInt k);
     format := formatInt;
     parse := λ s, TInt <$> ParseUint s 64 |}.

Definition boolKeyFuncs : keyFuncs :=
  {| value := λ k, TInt (boolToByte (keyBool k));
     format := λ b, match b with TInt 0 => "false" | _ => "true" end;
     parse := λ s, TInt <$> (boolToByte <$> ParseBool s) |}.

Fixpoint remove_cr (s : string) : string :=
  match s with
  | "" => ""
  | String c s' => if Ascii.eqb c "013" then remove_cr s' else String c (remove_cr s')
  end.

(** [strconv.Unquote] on an input that starts with a backtick, the only
    way [key] calls it: the input has to be one raw string literal; its
    value drops the quotes and any carriage return. *)
Definition Unquote (s : string) : option string :=
  match s with
  | String "`" body =>
      match IndexByte body "`" with
      | Some end_ =>
          if (S end_ =? String.length body)%nat then Some (remove_cr (slice_to end_ body))
          else None
      | None => None
      end
  | _ => None
  end.

Definition HasPrefix_backtick (s : string) : bool :=
  match s with String "`" _ => true | _ => false end.

(** [keyFuncs.key] *)
Definition key (fn : keyFuncs) (s : string) : res keyT :=
  if HasPrefix_backtick s then
    match Unquote s with
    | None => Err errSyntax
    | Some s =>
        match parse fn s with
        | Some k => Ok k
        | None => Err (errKey s)
        end
    end
  else
    match parse fn s with
    | Some k => Ok k
    | None => Err (errKey s)
    end.

(** The [switch] of [newScalarMapFieldMask] and [newMsgMapFieldMask];
    [None] is the [default] case, which panics. *)
Definition keyFuncsOf (kind : Kind) : option keyFuncs :=
  match kind with
  | StringKind => Some stringKeyFuncs
  | BoolKind => Some boolKeyFuncs
  | Int32Kind | Sint32Kind | Sfixed32Kind => Some int32KeyFuncs
  | Int64Kind | Sint64Kind | Sfixed64Kind => Some int64KeyFuncs
  | Uint32Kind | Fixed32Kind => Some uint32KeyFuncs
  | Uint64Kind | Fixed64Kind => Some uint64KeyFuncs
  | _ => None
  end.

(** ** parse.go: quoting of path segments *)

(** What [maybeQuote] takes from outside this package: the quoting
    routine [quote.With(segment, '`')] of the package [internal/quote],
    and from the Go library [utf8.DecodeRuneInString], [unicode.IsControl]
    and [strconv.IsPrint].  Runes are integers. *)
Record TextEnv := {
  quote_With : string → string;
  DecodeRuneInString : string → Z * nat;
  IsControl : Z → bool;
  IsPrint : Z → bool;
}.

Definition RuneSelf : Z := 128.
Definition RuneError : Z := 65533.

(** The loop of [shouldQuote]; [skip] counts the bytes of the current
    rune that are still to be stepped over ([s = s[width:]]). *)
Fixpoint shouldQuote_loop (env : TextEnv) (skip : nat) (s : string) : bool :=
  match s with
  | "" => false
  | String c s' =>
      match skip with
      | S k => shouldQuote_loop env k s'
      | O =>
          let r0 := Z.of_nat (nat_of_ascii c) in
          let '(r, width) :=
            if (RuneSelf <=? r0)%Z then DecodeRuneInString env s else (r0, 1%nat) in
          if ((RuneSelf <=? r0)%Z && (width =? 1)%nat && (r =? RuneError)%Z)%bool then true
          else if ((r =? 46)%Z || (r =? 44)%Z || (r =? 96)%Z)%bool then true
          else if (IsControl env r || negb (IsPrint env r))%bool then true
          else shouldQuote_loop env (width - 1) s'
      end
  end.

Definition shouldQuote (env : TextEnv) (s : string) : bool :=
  if (String.eqb s "" || String.eqb s "*")%bool then true
  else shouldQuote_loop env 0 s.

Definition maybeQuote (env : TextEnv) (segment : string) : string :=
  if shouldQuote env segment then quote_With env segment else segment.

(** ** The mask tree *)

(** The six field masks and the record mask.  A nil map or pointer is
    [None].  [newMsgFieldMask] builds its record mask without [fldDescs],
    which stays the nil interface there: [fldDescs] is an option. *)
#[local] Unset Elimination Schemes.
Inductive fieldMask :=
| scalarFieldMask (desc : FieldDescriptor)
| scalarListFieldMask (desc : FieldDescriptor)
| msgListFieldMask (desc : FieldDescriptor) (elemMask : option msgMask)
| scalarMapFieldMask (desc : FieldDescriptor) (fn : keyFuncs)
    (keys : option (gmap keyT bool))
| msgMapFieldMask (desc : FieldDescriptor) (fn : keyFuncs)
    (wildMask : option msgMask) (keyedMasks : option (gmap keyT msgMask))
| msgFieldMask (desc : FieldDescriptor) (mm : msgMask)
with msgMask :=
| MkMsgMask (mdesc : string) (fldDescs : option (list FieldDescriptor))
    (fields : option (gmap string fieldMask)).
#[local] Set Elimination Schemes.

Definition mm_fields (mm : msgMask) : option (gmap string fieldMask) :=
  let 'MkMsgMask _ _ f := mm in f.

Definition newMsgMask (sch : Schema) (desc : string) : msgMask :=
  MkMsgMask desc (Some (sch desc)) None.

Definition newMsgFieldMask (desc : FieldDescriptor) : fieldMask :=
  msgFieldMask desc (MkMsgMask (MessageName desc) None None).

Definition newListFieldMask (desc : FieldDescriptor) : fieldMask :=
  if isMessage (ElemKind desc) then msgListFieldMask desc None
  else scalarListFieldMask desc.

Definition invalidMapKeyKind : string := "invalid map key kind".

Definition newMapFieldMask (desc : FieldDescriptor) : res fieldMask :=
  match Card desc with
  | MapOf kind =>
      match keyFuncsOf kind with
      | Some fn =>
          if isMessage (ElemKind desc) then Ok (msgMapFieldMask desc fn None None)
          else Ok (scalarMapFieldMask desc fn None)
      | None => Panic invalidMapKeyKind
      end
  | _ => Panic invalidMapKeyKind
  end.

Definition newFieldMask (desc : FieldDescriptor) : res fieldMask :=
  if IsList desc then Ok (newListFieldMask desc)
  else if IsMap desc then newMapFieldMask desc
  else if bool_decide (is_Some (ElemMessage desc)) then Ok (newMsgFieldMask desc)
  else Ok (scalarFieldMask desc).

(** [complete] *)
Definition msgMask_complete (mm : msgMask) : bool :=
  match mm_fields mm with None => true | Some _ => false end.

(** ** paths *)

Definition sortStrings {A} (l : list (string * A)) : list (string * A) :=
  merge_sort (λ a b, Is_true (String.leb a.1 b.1)) l.

Definition sortKeys {A} (l : list (keyT * A)) : list (keyT * A) :=
  merge_sort (λ a b, Is_true (keyT_leb a.1 b.1)) l.

(** [toSet] and [remove] of [map.go] *)
Definition toSet (s : list string) : gmap string bool :=
  list_to_map ((λ v, (v, true)) <$> s).

Definition remove (haystack : list string) (needles : gmap string bool) : list string :=
  if bool_decide (size needles = 0) then haystack
  else filter (λ v, needles !! v ≠ Some true) haystack.

(** What one name (or key) contributes to [paths]: [name.sub] for every
    sub-path, or [name] alone when there is none. *)
Definition pathsOf (name : string) (subs : list string) : list string :=
  match subs with
  | [] => [name]
  | _ => joinPath name <$> subs
  end.

(** [paths] of the field masks and of the record mask.  The sub-paths of
    the children are computed map-wise first and then read in key order. *)
Fixpoint fieldMask_paths (env : TextEnv) (fm : fieldMask) : list string :=
  match fm with
  | scalarFieldMask _ => []
  | scalarListFieldMask _ => []
  | msgListFieldMask _ None => []
  | msgListFieldMask _ (Some m) => joinPath "*" <$> msgMask_paths env m
  | scalarMapFieldMask _ fn None => []
  | scalarMapFieldMask _ fn (Some keys) =>
      (λ kv, maybeQuote env (format fn kv.1)) <$> sortKeys (map_to_list keys)
  | msgMapFieldMask _ fn wildMask keyedMasks =>
      let wild := match wildMask with Some w => msgMask_paths env w | None => [] end in
      let paths := joinPath "*" <$> wild in
      match keyedMasks with
      | None => paths
      | Some keyed =>
          let needles := toSet wild in
          paths ++
          mjoin ((λ kv,
                    let name := maybeQuote env (format fn kv.1) in
                    match kv.2 with
                    | [] => [name]
                    | subs => joinPath name <$> remove subs needles
                    end) <$> sortKeys (map_to_list (msgMask_paths env <$> keyed)))
      end
  | msgFieldMask _ mm => msgMask_paths env mm
  end
with msgMask_paths (env : TextEnv) (mm : msgMask) : list string :=
  match mm with
  | MkMsgMask _ _ None => []
  | MkMsgMask _ _ (Some fields) =>
      mjoin ((λ kv, pathsOf kv.1 kv.2)
               <$> sortStrings (map_to_list (fieldMask_paths env <$> fields)))
  end.

(** ** Building the mask tree: init and append *)

(** A call that mutates a mask and may fail returns the mask as the call
    leaves it together with the outcome.  [or_return r st k] continues
    with [k] when [r] succeeded and otherwise returns early, leaving the
    state [st] behind. *)
Definition or_return {A S : Type} (r : res A) (st : S) (k : A → S * res unit)
  : S * res unit :=
  match r with
  | Ok a => k a
  | Err e => (st, Err e)
  | Panic msg => (st, Panic msg)
  | OutOfFuel => (st, OutOfFuel)
  end.

Definition res_is_ok {A} (r : res A) : bool :=
  match r with Ok _ => true | _ => false end.
Definition res_is_fuel {A} (r : res A) : bool :=
  match r with OutOfFuel => true | _ => false end.

Definition nilDereference : string := "invalid memory address or nil pointer dereference".
Definition internalError : string :=
  "fieldmask: internal error: successful wild mask append failed on keyed mask".

(** [mm.settings.lookupField(mm.fldDescs, name)]; the method call on the
    nil interface panics. *)
Definition msgMask_lookupField (s : settings) (mm : msgMask) (name : string)
  : res (option (string * FieldDescriptor)) :=
  match mm with
  | MkMsgMask _ None _ => Panic nilDereference
  | MkMsgMask _ (Some fds) _ => Ok (doLookupField (lookupField s) fds name)
  end.

Definition with_fields (mm : msgMask) (f : option (gmap string fieldMask)) : msgMask :=
  let 'MkMsgMask d fds _ := mm in MkMsgMask d fds f.

Definition mm_desc (mm : msgMask) : string :=
  let 'MkMsgMask d _ _ := mm in d.

Definition is_empty_or_star (path : string) : bool :=
  (String.eqb path "" || String.eqb path "*")%bool.

(** scalar.go *)
Definition addScalarPath (path : string) : res unit :=
  if negb (String.eqb path "") then Err (errInvalidScalarSubpath path) else Ok tt.

(** [scalarListFieldMask.add] *)
Definition scalarList_add (path : string) : res unit :=
  if is_empty_or_star path then Ok tt
  else
    match nextSegment path with
    | Ok (token, subpath) =>
        if negb (String.eqb token "*") then Err (errInvalidListPath path)
        else if negb (String.eqb subpath "") then Err (errInvalidScalarSubpath subpath)
        else Ok tt
    | Err e => Err e
    | Panic msg => Panic msg
    | OutOfFuel => OutOfFuel
    end.

(** [scalarMapFieldMask]: [addWild], [addKeyed], [add]; the state is the
    field [keys]. *)
Definition scalarMap_addWild (keys : option (gmap keyT bool)) (subpath : string)
  : option (gmap keyT bool) * res unit :=
  if negb (String.eqb subpath "") then (keys, Err (errInvalidScalarSubpath subpath))
  else (None, Ok tt).

Definition scalarMap_addKeyed (fn : keyFuncs) (keys : option (gmap keyT bool))
    (key_ subpath : string) : option (gmap keyT bool) * res unit :=
  or_return (key fn key_) keys (λ k,
    if negb (String.eqb subpath "") then (keys, Err (errInvalidScalarSubpath subpath))
    else (Some (<[k := true]> (default ∅ keys)), Ok tt)).

Definition scalarMap_add (fn : keyFuncs) (keys : option (gmap keyT bool)) (path : string)
  : option (gmap keyT bool) * res unit :=
  if is_empty_or_star path then scalarMap_addWild keys ""
  else
    or_return (nextSegment path) keys (λ '(name, subpath),
      if String.eqb name "*" then scalarMap_addWild keys subpath
      else scalarMap_addKeyed fn keys name subpath).

(** The loop of [addWild] over the keyed masks: every keyed mask takes
    the append; a failure of any of them panics. *)
Definition echo_outcome (rs : list (keyT * (msgMask * res unit))) : res unit :=
  if existsb (λ kr, res_is_fuel kr.2.2) rs then OutOfFuel
  else if forallb (λ kr, res_is_ok kr.2.2) rs then Ok tt
  else Panic internalError.

(** The loop of [addKeyed] over the paths of the wild mask. *)
Fixpoint seed (append_ : msgMask → string → msgMask * res unit)
    (m : msgMask) (paths : list string) : msgMask * res unit :=
  match paths with
  | [] => (m, Ok tt)
  | path :: paths =>
      match append_ m path with
      | (m, Ok _) => seed append_ m paths
      | (m, OutOfFuel) => (m, OutOfFuel)
      | (m, _) => (m, Panic internalError)
      end
  end.

(** [addWild] and [addKeyed] of the record-valued map mask, given the
    [init] and [append] of the record mask they call. *)
Section msgMap.
Context (sch : Schema) (env : TextEnv).
Context (init_ append_ : msgMask → string → msgMask * res unit).

Definition msgMap_addWild (desc : FieldDescriptor) (fn : keyFuncs)
    (wildMask : option msgMask) (keyedMasks : option (gmap keyT msgMask))
    (subpath : string) : fieldMask * res unit :=
  if String.eqb subpath "" then (msgMapFieldMask desc fn None None, Ok tt)
  else
    let '(wild, r) :=
      match wildMask with
      | None =>
          match init_ (newMsgMask sch (MessageName desc)) subpath with
          | (m, Ok _) => (Some m, Ok tt)
          | (_, r) => (None, r)
          end
      | Some w =>
          let '(w, r) := append_ w subpath in (Some w, r)
      end in
    match r with
    | Ok _ =>
        let rs := (λ m, append_ m subpath) <$> default ∅ keyedMasks in
        (msgMapFieldMask desc fn wild
           (match keyedMasks with None => None | Some _ => Some (fst <$> rs) end),
         echo_outcome (map_to_list rs))
    | _ => (msgMapFieldMask desc fn wild keyedMasks, r)
    end.

Definition msgMap_addKeyed (desc : FieldDescriptor) (fn : keyFuncs)
    (wildMask : option msgMask) (keyedMasks : option (gmap keyT msgMask))
    (key_ subpath : string) : fieldMask * res unit :=
  let fm := msgMapFieldMask desc fn wildMask keyedMasks in
  or_return (key fn key_) fm (λ k,
    match default ∅ keyedMasks !! k with
    | Some m =>
        let '(m, r) := append_ m subpath in
        (msgMapFieldMask desc fn wildMask (Some (<[k := m]> (default ∅ keyedMasks))), r)
    | None =>
        match init_ (newMsgMask sch (MessageName desc)) subpath with
        | (m, Ok _) =>
            let '(m, r) :=
              match wildMask with
              | Some w => seed append_ m (msgMask_paths env w)
              | None => (m, Ok tt)
              end in
            match r with
            | Ok _ =>
                (msgMapFieldMask desc fn wildMask
                   (Some (<[k := m]> (default ∅ keyedMasks))), Ok tt)
            | _ => (fm, r)
            end
        | (_, r) => (fm, r)
        end
    end).

(** [msgMapFieldMask.add] *)
Definition msgMap_add_body (desc : FieldDescriptor) (fn : keyFuncs)
    (wildMask : option msgMask) (keyedMasks : option (gmap keyT msgMask))
    (path : string) : fieldMask * res unit :=
  if is_empty_or_star path then msgMap_addWild desc fn wildMask keyedMasks ""
  else
    or_return (nextSegment path) (msgMapFieldMask desc fn wildMask keyedMasks)
      (λ '(name, subpath),
         if String.eqb name "*" then msgMap_addWild desc fn wildMask keyedMasks subpath
         else msgMap_addKeyed desc fn wildMask keyedMasks name subpath).
End msgMap.

Section construct.
Context (sch : Schema) (s : settings) (env : TextEnv).

(** [init] and [append] of the record mask and of the field masks.
    [fuel] bounds the depth of the calls; [OutOfFuel] is returned when
    it does not suffice. *)
Fixpoint msgMask_init (fuel : nat) (mm : msgMask) (path : string) {struct fuel}
  : msgMask * res unit :=
  match fuel with
  | O => (mm, OutOfFuel)
  | S fuel =>
      if is_empty_or_star path then (mm, Ok tt)
      else
        or_return (nextSegment path) mm (λ '(name, subpath),
        or_return (msgMask_lookupField s mm name) mm (λ found,
          match found with
          | None => (mm, Err (errUnknownField (mm_desc mm) name))
          | Some (key_, fd) =>
              or_return (newFieldMask fd) mm (λ fld,
                match fieldMask_init fuel fld subpath with
                | (fld, Ok _) => (with_fields mm (Some {[ key_ := fld ]}), Ok tt)
                | (_, r) => (mm, r)
                end)
          end))
  end
with msgMask_append (fuel : nat) (mm : msgMask) (path : string) {struct fuel}
  : msgMask * res unit :=
  match fuel with
  | O => (mm, OutOfFuel)
  | S fuel =>
      if is_empty_or_star path then (with_fields mm None, Ok tt)
      else
        or_return (nextSegment path) mm (λ '(name, subpath),
        or_return (msgMask_lookupField s mm name) mm (λ found,
          match found with
          | None => (mm, Err (errUnknownField (mm_desc mm) name))
          | Some (key_, fd) =>
              match mm_fields mm with
              | None => (mm, Ok tt)
              | Some fields =>
                  match fields !! key_ with
                  | Some fld =>
                      let '(fld, r) := fieldMask_append fuel fld subpath in
                      (with_fields mm (Some (<[key_ := fld]> fields)), r)
                  | None =>
                      or_return (newFieldMask fd) mm (λ fld,
                        match fieldMask_init fuel fld subpath with
                        | (fld, Ok _) =>
                            (with_fields mm (Some (<[key_ := fld]> fields)), Ok tt)
                        | (_, r) => (mm, r)
                        end)
                  end
              end
          end))
  end
with fieldMask_init (fuel : nat) (fm : fieldMask) (path : string) {struct fuel}
  : fieldMask * res unit :=
  match fuel with
  | O => (fm, OutOfFuel)
  | S fuel =>
      match fm with
      | scalarFieldMask _ => (fm, addScalarPath path)
      | scalarListFieldMask _ => (fm, scalarList_add path)
      | msgListFieldMask desc elemMask =>
          if is_empty_or_star path then (msgListFieldMask desc None, Ok tt)
          else
            or_return (nextSegment path) fm (λ '(token, subpath),
              if negb (String.eqb token "*") then (fm, Err (errInvalidListPath path))
              else
                match msgMask_init fuel (newMsgMask sch (MessageName desc)) subpath with
                | (vm, Ok _) => (msgListFieldMask desc (Some vm), Ok tt)
                | (_, r) => (fm, r)
                end)
      | scalarMapFieldMask desc fn keys =>
          let '(keys, r) := scalarMap_add fn keys path in
          (scalarMapFieldMask desc fn keys, r)
      | msgMapFieldMask desc fn wildMask keyedMasks =>
          msgMap_add fuel desc fn wildMask keyedMasks path
      | msgFieldMask desc mm =>
          let '(mm, r) := msgMask_init fuel mm path in
          (msgFieldMask desc mm, r)
      end
  end
with fieldMask_append (fuel : nat) (fm : fieldMask) (path : string) {struct fuel}
  : fieldMask * res unit :=
  match fuel with
  | O => (fm, OutOfFuel)
  | S fuel =>
      match fm with
      | scalarFieldMask _ => (fm, addScalarPath path)
      | scalarListFieldMask _ => (fm, scalarList_add path)
      | msgListFieldMask desc elemMask =>
          if is_empty_or_star path then (msgListFieldMask desc None, Ok tt)
          else
            or_return (nextSegment path) fm (λ '(token, subpath),
              if negb (String.eqb token "*") then (fm, Err (errInvalidListPath path))
              else
                match elemMask with
                | None => (fm, Ok tt)
                | Some vm =>
                    let '(vm, r) := msgMask_append fuel vm subpath in
                    (msgListFieldMask desc (Some vm), r)
                end)
      | scalarMapFieldMask desc fn keys =>
          match keys with
          | None => (fm, Ok tt)
          | Some _ =>
              let '(keys, r) := scalarMap_add fn keys path in
              (scalarMapFieldMask desc fn keys, r)
          end
      | msgMapFieldMask desc fn wildMask keyedMasks =>
          match wildMask, keyedMasks with
          | None, None => (fm, Ok tt)
          | _, _ => msgMap_add fuel desc fn wildMask keyedMasks path
          end
      | msgFieldMask desc mm =>
          let '(mm, r) := msgMask_append fuel mm path in
          (msgFieldMask desc mm, r)
      end
  end
(** [msgMapFieldMask.add], one level down *)
with msgMap_add (fuel : nat) (desc : FieldDescriptor) (fn : keyFuncs)
    (wildMask : option msgMask) (keyedMasks : option (gmap keyT msgMask))
    (path : string) {struct fuel} : fieldMask * res unit :=
  match fuel with
  | O => (msgMapFieldMask desc fn wildMask keyedMasks, OutOfFuel)
  | S fuel =>
      msgMap_add_body sch env (msgMask_init fuel) (msgMask_append fuel)
        desc fn wildMask keyedMasks path
  end.
End construct.

(** ** Applying the mask tree: mask, clone, update *)

(** [lookupMask] of the record-valued map mask, over any decoration [f]
    of the sub-masks. *)
Definition lookupMask_with {A} (fn : keyFuncs) (wild : option A)
    (keyed : option (gmap keyT A)) (k : MapKey) : option A :=
  match keyed with
  | Some km =>
      match km !! value fn k with
      | Some m => Some m
      | None => wild
      end
  | None => wild
  end.

Definition lookupMask (fn : keyFuncs) (wildMask : option msgMask)
    (keyedMasks : option (gmap keyT msgMask)) (k : MapKey) : option msgMask :=
  lookupMask_with fn wildMask keyedMasks k.

(** [fm.keys[fm.value(key)]] *)
Definition hasKey (fn : keyFuncs) (keys : gmap keyT bool) (k : MapKey) : bool :=
  default false (keys !! value fn k).

Definition onMessage (f : Message → Message) (v : Value) : Value :=
  match v with
  | ValueOfMessage m => ValueOfMessage (f m)
  | _ => v
  end.

(** [mask]: the value, or the message, as the in-place masking leaves
    it.  The masks of the children are computed map-wise, then looked up
    by field name (by key). *)
Fixpoint fieldMask_mask (s : settings) (fm : fieldMask) (val : Value) : Value :=
  match fm with
  | scalarFieldMask _ => val
  | scalarListFieldMask _ => val
  | msgListFieldMask _ None => val
  | msgListFieldMask _ (Some m) =>
      match val with
      | ValueOfList list => ValueOfList (onMessage (msgMask_mask s m) <$> list)
      | _ => val
      end
  | scalarMapFieldMask _ fn None => val
  | scalarMapFieldMask _ fn (Some keys) =>
      match val with
      | ValueOfMap protoMap =>
          ValueOfMap (filter (λ kv, hasKey fn keys kv.1 = true) protoMap)
      | _ => val
      end
  | msgMapFieldMask _ fn None None => val
  | msgMapFieldMask _ fn wildMask keyedMasks =>
      match val with
      | ValueOfMap protoMap =>
          let wild := msgMask_mask s <$> wildMask in
          let keyed := fmap (M := gmap keyT) (msgMask_mask s) <$> keyedMasks in
          ValueOfMap
            (map_imap (λ k v,
                         match lookupMask_with fn wild keyed k with
                         | Some m => Some (onMessage m v)
                         | None => None
                         end) protoMap)
      | _ => val
      end
  | msgFieldMask _ mm => onMessage (msgMask_mask s mm) val
  end
with msgMask_mask (s : settings) (mm : msgMask) (msg : Message) : Message :=
  match mm with
  | MkMsgMask _ _ None => msg
  | MkMsgMask _ _ (Some fields) =>
      let masks := fieldMask_mask s <$> fields in
      let msg :=
        WithFields msg
          (omap (λ p : FieldDescriptor * Value,
                   match masks !! Name p.1 with
                   | Some f => if allow s p.1 then store p.1 (f p.2) else None
                   | None => None
                   end) (Fields msg)) in
      if retainsUnknowns s then msg else SetUnknown msg ""
  end.

(** [clone] *)
Fixpoint fieldMask_clone (s : settings) (fm : fieldMask) (val : Value) : Value :=
  match fm with
  | scalarFieldMask desc =>
      if isBytesKind (ElemKind desc) then cloneBytesValue val else val
  | scalarListFieldMask desc =>
      match val with
      | ValueOfList src => ValueOfList (copyList s [] src desc)
      | _ => val
      end
  | msgListFieldMask desc None =>
      match val with
      | ValueOfList src => ValueOfList (copyList s [] src desc)
      | _ => val
      end
  | msgListFieldMask desc (Some m) =>
      match val with
      | ValueOfList src => ValueOfList ([] ++ (onMessage (msgMask_clone s m) <$> src))
      | _ => val
      end
  | scalarMapFieldMask desc fn None =>
      match val with
      | ValueOfMap src => ValueOfMap (copyMap s ∅ src desc)
      | _ => val
      end
  | scalarMapFieldMask desc fn (Some keys) =>
      match val with
      | ValueOfMap src =>
          let kept := filter (λ kv, hasKey fn keys kv.1 = true) src in
          if isBytesKind (ElemKind desc) then ValueOfMap (cloneBytesValue <$> kept)
          else ValueOfMap kept
      | _ => val
      end
  | msgMapFieldMask desc fn None None =>
      match val with
      | ValueOfMap src => ValueOfMap (copyMap s ∅ src desc)
      | _ => val
      end
  | msgMapFieldMask desc fn wildMask keyedMasks =>
      match val with
      | ValueOfMap src =>
          let wild := msgMask_clone s <$> wildMask in
          let keyed := fmap (M := gmap keyT) (msgMask_clone s) <$> keyedMasks in
          ValueOfMap
            (map_imap (λ k v,
                         match lookupMask_with fn wild keyed k with
                         | Some m => Some (onMessage m v)
                         | None => None
                         end) src)
      | _ => val
      end
  | msgFieldMask _ mm => onMessage (msgMask_clone s mm) val
  end
with msgMask_clone (s : settings) (mm : msgMask) (msg : Message) : Message :=
  let out := New msg in
  match mm with
  | MkMsgMask _ _ None => copyMessage s out msg
  | MkMsgMask _ _ (Some fields) =>
      let clones := fieldMask_clone s <$> fields in
      let out :=
        WithFields out
          (omap (λ p : FieldDescriptor * Value,
                   match clones !! Name p.1 with
                   | Some f => if allow s p.1 then store p.1 (f p.2) else None
                   | None => None
                   end) (Fields msg)) in
      if retainsUnknowns s then SetUnknown out (copyBytes (GetUnknown msg)) else out
  end.

(** [Mutable] of a message field of [parent], and [Set] of the result. *)
Definition mutableMessage (parent : Message) (fd : FieldDescriptor) : Message :=
  asMessage (MessageName fd) (Get parent fd).
Definition mutableList (parent : Message) (fd : FieldDescriptor) : list Value :=
  asList (Get parent fd).
Definition mutableMap (parent : Message) (fd : FieldDescriptor) : gmap MapKey Value :=
  asMap (Get parent fd).

(** [IsValid] of a list or map value read from the source: the value of
    an unpopulated field is not valid. *)
Definition validList (value : option Value) : option (list Value) :=
  match value with Some (ValueOfList l) => Some l | _ => None end.
Definition validMap (value : option Value) : option (gmap MapKey Value) :=
  match value with Some (ValueOfMap m) => Some m | _ => None end.

(** [scalarMapFieldMask.clear] and [msgMapFieldMask.clear] *)
Definition scalarMap_clear (desc : FieldDescriptor) (fn : keyFuncs)
    (keys : option (gmap keyT bool)) (parent : Message) : Message :=
  if negb (Has parent desc) then parent
  else
    match keys with
    | None => Clear parent desc
    | Some keys =>
        Set_ parent desc
          (ValueOfMap (filter (λ kv, ¬ is_Some (keys !! value fn kv.1))
                         (mutableMap parent desc)))
    end.

Definition msgMap_clear (desc : FieldDescriptor) (fn : keyFuncs)
    (wildMask : option msgMask) (keyedMasks : option (gmap keyT msgMask))
    (parent : Message) : Message :=
  if negb (Has parent desc) then parent
  else
    match wildMask, keyedMasks with
    | None, None => Clear parent desc
    | Some _, _ => Clear parent desc
    | None, Some keyed =>
        Set_ parent desc
          (ValueOfMap (filter (λ kv, ¬ is_Some (keyed !! value fn kv.1))
                         (mutableMap parent desc)))
    end.

(** [update]: the parent (the destination) as the call leaves it.  The
    record mask visits its fields with [map_fold]; a visit writes the
    field of its mask and, through [Set_], clears the other members of
    that field's oneof. *)
Fixpoint fieldMask_update (sch : Schema) (s : settings) (fm : fieldMask)
    (parent : Message) (value : option Value) (exists_ : bool) : Message :=
  match fm with
  | scalarFieldMask desc =>
      match value with
      | Some v => if exists_ then Set_ parent desc v else Clear parent desc
      | None => Clear parent desc
      end
  | scalarListFieldMask desc =>
      match validList value with
      | Some src =>
          if negb exists_ then
            (if appendsRepeated s then parent else Clear parent desc)
          else if appendsRepeated s then
            Set_ parent desc (ValueOfList (mutableList parent desc ++ src))
          else Set_ parent desc (ValueOfList src)
      | None => if appendsRepeated s then parent else Clear parent desc
      end
  | msgListFieldMask desc elemMask =>
      match validList value with
      | Some src =>
          if negb exists_ then
            (if appendsRepeated s then parent else Clear parent desc)
          else
            match elemMask with
            | None =>
                if appendsRepeated s then
                  Set_ parent desc (ValueOfList (mutableList parent desc ++ src))
                else Set_ parent desc (ValueOfList src)
            | Some m =>
                let dst := mutableList parent desc in
                let dst := if appendsRepeated s then dst else [] in
                Set_ parent desc (ValueOfList (dst ++ (onMessage (msgMask_clone s m) <$> src)))
            end
      | None => if appendsRepeated s then parent else Clear parent desc
      end
  | scalarMapFieldMask desc fn keys =>
      match validMap value with
      | None => scalarMap_clear desc fn keys parent
      | Some src =>
          match keys with
          | None => Set_ parent desc (ValueOfMap src)
          | Some keys =>
              let dst := mutableMap parent desc in
              let dst :=
                filter (λ kv, ¬ (hasKey fn keys kv.1 = true ∧ src !! kv.1 = None)) dst in
              let dst := filter (λ kv, hasKey fn keys kv.1 = true) src ∪ dst in
              Set_ parent desc (ValueOfMap dst)
          end
      end
  | msgMapFieldMask desc fn wildMask keyedMasks =>
      match validMap value with
      | None => msgMap_clear desc fn wildMask keyedMasks parent
      | Some src =>
          match wildMask, keyedMasks with
          | None, None =>
              Set_ parent desc (ValueOfMap (updateMap sch s (mutableMap parent desc) src desc))
          | _, _ =>
              let wild := msgMask_update sch s <$> wildMask in
              let keyed := fmap (M := gmap keyT) (msgMask_update sch s) <$> keyedMasks in
              let dst := mutableMap parent desc in
              let dst :=
                filter (λ kv, ¬ (is_Some (lookupMask fn wildMask keyedMasks kv.1)
                                 ∧ src !! kv.1 = None)) dst in
              let dst :=
                merge (λ sv dv,
                         match sv with
                         | Some (Some upd, ValueOfMessage m) =>
                             Some (ValueOfMessage
                                     (upd (asMessage (MessageName desc) dv) m))
                         | _ => dv
                         end)
                  (map_imap (λ k v, Some (lookupMask_with fn wild keyed k, v)) src) dst in
              Set_ parent desc (ValueOfMap dst)
          end
      end
  | msgFieldMask desc mm =>
      match value with
      | Some (ValueOfMessage src) =>
          if exists_ then
            Set_ parent desc
              (ValueOfMessage (msgMask_update sch s mm (mutableMessage parent desc) src))
          else Clear parent desc
      | _ => Clear parent desc
      end
  end
with msgMask_update (sch : Schema) (s : settings) (mm : msgMask) (dst src : Message)
  : Message :=
  match mm with
  | MkMsgMask _ _ None => updateMessage sch s dst src
  | MkMsgMask _ fldDescs (Some fields) =>
      let dst :=
        map_fold (λ name mask dst,
                    match doLookupField (lookupField s) (default [] fldDescs) name with
                    | Some (_, fd) =>
                        fieldMask_update sch s mask dst (Get src fd) (Has src fd)
                    | None => dst
                    end) dst fields in
      doUpdateUnknowns s dst src
  end.

(** ** The facade *)

Record FieldMask := {
  fm_settings : settings;
  fm_msg : msgMask;
}.

(** [newFieldMaskT]: the options have been applied to [s]; [root] is the
    descriptor of the message type [T]. *)
Definition newFieldMaskT (sch : Schema) (root : string) (s : settings) : FieldMask :=
  {| fm_settings := s; fm_msg := newMsgMask sch root |}.

Definition with_msg (fm : FieldMask) (mm : msgMask) : FieldMask :=
  {| fm_settings := fm_settings fm; fm_msg := mm |}.

Section facade.
Context (sch : Schema) (env : TextEnv).

Definition Append (fuel : nat) (fm : FieldMask) (path : string) : FieldMask * res unit :=
  let '(mm, r) := msgMask_append sch (fm_settings fm) env fuel (fm_msg fm) path in
  (with_msg fm mm, r).

(** The loop of [New] over [paths[1:]] *)
Fixpoint New_loop (fuel : nat) (fm : FieldMask) (paths : list string) : res FieldMask :=
  match paths with
  | [] => Ok fm
  | path :: paths =>
      match Append fuel fm path with
      | (fm, Ok _) => New_loop fuel fm paths
      | (_, Err e) => Err e
      | (_, Panic msg) => Panic msg
      | (_, OutOfFuel) => OutOfFuel
      end
  end.

Definition NewFieldMask (fuel : nat) (root : string) (s : settings) (paths : list string)
  : res FieldMask :=
  let fm := newFieldMaskT sch root s in
  match paths with
  | [] => Ok fm
  | path :: paths =>
      match msgMask_init sch s env fuel (fm_msg fm) path with
      | (mm, Ok _) => New_loop fuel (with_msg fm mm) paths
      | (_, Err e) => Err e
      | (_, Panic msg) => Panic msg
      | (_, OutOfFuel) => OutOfFuel
      end
  end.

(** The loop of [Parse]; [first] tells whether [apply] is still [init].
    [fuel] bounds both the number of paths and the depth of the calls. *)
Fixpoint Parse_loop (count fuel : nat) (first : bool) (fm : FieldMask) (paths : string)
  : res FieldMask :=
  match count with
  | O => OutOfFuel
  | S count =>
      match nextPath paths with
      | Ok (path, rest) =>
          let apply := if first then msgMask_init else msgMask_append in
          match apply sch (fm_settings fm) env fuel (fm_msg fm) path with
          | (mm, Ok _) =>
              if String.eqb rest "" then Ok (with_msg fm mm)
              else Parse_loop count fuel false (with_msg fm mm) rest
          | (_, Err e) => Err e
          | (_, Panic msg) => Panic msg
          | (_, OutOfFuel) => OutOfFuel
          end
      | Err e => Err e
      | Panic msg => Panic msg
      | OutOfFuel => OutOfFuel
      end
  end.

Definition Parse (fuel : nat) (root : string) (s : settings) (paths : string)
  : res FieldMask :=
  Parse_loop fuel fuel true (newFieldMaskT sch root s) paths.

Definition Paths (fm : FieldMask) : list string :=
  match msgMask_paths env (fm_msg fm) with
  | [] => ["*"]
  | paths => paths
  end.

(** [strings.Join(fm.Paths(), ",")] *)
Definition join_commas (l : list string) : string :=
  match l with
  | [] => ""
  | x :: l => foldl (λ acc y, acc +:+ "," +:+ y) x l
  end.

Definition String_ (fm : FieldMask) : string := join_commas (Paths fm).

(** A message handed to the facade is [None] when its [ProtoReflect]
    is not valid (a nil pointer of the message type, which is also the
    zero value of [T]).  [Mask] and [Update] return the message as they
    leave it. *)
Definition Mask (fm : FieldMask) (msg : option Message) : option Message :=
  match msg with
  | None => None
  | Some m => Some (msgMask_mask (fm_settings fm) (fm_msg fm) m)
  end.

Definition Clone (fm : FieldMask) (msg : option Message) : option Message :=
  match msg with
  | None => None
  | Some m => Some (msgMask_clone (fm_settings fm) (fm_msg fm) m)
  end.

(** A source that is not valid has no populated field and no unknown
    bytes: it reads like the empty message of its type. *)
Definition Update (fm : FieldMask) (dst src : option Message) : option Message :=
  match dst with
  | None => None
  | Some d =>
      Some (msgMask_update sch (fm_settings fm) (fm_msg fm) d
              (default (New d) src))
  end.
End facade.

(** ** A schema and records to run the code on *)

(** Fields of the message [Message] of the package's test schema. *)
Definition testMessage : string := "dev.bursavich.fieldmask.test.Message".

Definition field (num : Z) (name : string) (json : string) (card : Cardinality)
    (kind : Kind) : FieldDescriptor :=
  {| Number := num; Name := name; TextName := name; JSONName := json;
     IsExtension := false; ContainingOneof := None; Card := card; ElemKind := kind;
     ElemMessage := if isMessage kind then Some testMessage else None |}.

(** A member of the oneof [oneof_field] of the test schema. *)
Definition oneofField (num : Z) (name : string) (json : string) (kind : Kind)
  : FieldDescriptor :=
  {| Number := num; Name := name; TextName := name; JSONName := json;
     IsExtension := false; ContainingOneof := Some "oneof_field";
     Card := Singular; ElemKind := kind;
     ElemMessage := if isMessage kind then Some testMessage else None |}.

Definition string_field := field 2 "string_field" "stringField" Singular StringKind.
Definition int32_field := field 3 "int32_field" "int32Field" Singular Int32Kind.
Definition int64_field := field 4 "int64_field" "int64Field" Singular Int64Kind.
Definition message_field := field 11 "message_field" "messageField" Singular MessageKind.
Definition bytes_field := field 12 "bytes_field" "bytesField" Singular BytesKind.
Definition repeated_int32_field :=
  field 203 "repeated_int32_field" "repeatedInt32Field" Repeated Int32Kind.
Definition repeated_message_field :=
  field 211 "repeated_message_field" "repeatedMessageField" Repeated MessageKind.
Definition map_bool_string_field :=
  field 301 "map_bool_string_field" "mapBoolStringField" (MapOf BoolKind) StringKind.
Definition map_string_string_field :=
  field 302 "map_string_string_field" "mapStringStringField" (MapOf StringKind) StringKind.
Definition map_int32_string_field :=
  field 303 "map_int32_string_field" "mapInt32StringField" (MapOf Int32Kind) StringKind.
Definition map_string_message_field :=
  field 502 "map_string_message_field" "mapStringMessageField" (MapOf StringKind) MessageKind.
Definition string_oneof_field :=
  oneofField 102 "string_oneof_field" "stringOneofField" StringKind.
Definition int32_oneof_field :=
  oneofField 103 "int32_oneof_field" "int32OneofField" Int32Kind.
Definition message_oneof_field :=
  oneofField 111 "message_oneof_field" "messageOneofField" MessageKind.

Definition testSchema : Schema := λ name,
  if String.eqb name testMessage then
    [string_field; int32_field; int64_field; message_field; bytes_field;
     string_oneof_field; int32_oneof_field; message_oneof_field;
     repeated_int32_field; repeated_message_field;
     map_bool_string_field; map_string_string_field; map_int32_string_field;
     map_string_message_field]
  else [].

(** A stand-in for the text services: all bytes are taken as printable
    ASCII and quoting wraps the segment in backticks. *)
Definition asciiEnv : TextEnv :=
  {| quote_With := λ seg, "`" +:+ seg +:+ "`";
     DecodeRuneInString := λ _, (RuneError, 1%nat);
     IsControl := λ r, ((r <? 32) || (r =? 127))%Z%bool;
     IsPrint := λ r, ((32 <=? r) && (r <? 127))%Z%bool |}.

Definition msgOf (fields : list (FieldDescriptor * Value)) (unknown : string) : Message :=
  MkMessage testMessage (list_to_map ((λ p, (Number p.1, p)) <$> fields)) unknown.

Definition mapOf (entries : list (string * Value)) : Value :=
  ValueOfMap (list_to_map ((λ p, (MapKeyString p.1, p.2)) <$> entries)).

(** ** The grammar of paths, for the statements about the parser *)

Fixpoint has_delim (s : string) : bool :=
  match s with
  | "" => false
  | String c s' => (is_delim c || has_delim s')%bool
  end.

Definition starts_delim (s : string) : bool :=
  match s with
  | String c _ => is_delim c
  | "" => false
  end.

(** A segment: the wildcard, a backtick-quoted run without a backtick
    inside, or a non-empty run that holds no delimiter and does not start
    like one of the other tokens. *)
Inductive is_segment : string → Prop :=
| seg_star : is_segment "*"
| seg_quoted body :
    str_mem "`" body = false → is_segment ("`" +:+ body +:+ "`")
| seg_ident c s :
    is_delim c = false → c ≠ "*"%char → c ≠ "`"%char → has_delim s = false →
    is_segment (String c s).

(** A chain: segments separated by single dots. *)
Inductive is_chain : string → Prop :=
| chain_last seg : is_segment seg → is_chain seg
| chain_dot seg p : is_segment seg → is_chain p → is_chain (seg +:+ "." +:+ p).

(** [s] starts with the chain [path], which either ends the input or is
    followed by a comma and the non-empty [rest]. *)
Definition path_head (s path rest : string) : Prop :=
  is_chain path ∧
  ((rest = "" ∧ s = path) ∨ (rest ≠ "" ∧ s = path +:+ "," +:+ rest)).

(** The four conditions the specification lists for a syntax error of
    [nextPath], read on the input: it is empty; it starts or ends with a
    delimiter; a backtick opens a quoted segment that is not closed; a
    closed quoted segment is followed by a byte that is no delimiter. *)
Definition last_byte (s : string) : option ascii :=
  match String.rev s with
  | String c _ => Some c
  | "" => None
  end.

Definition leading_or_trailing_delim (s : string) : Prop :=
  starts_delim s = true ∨ ∃ c, last_byte s = Some c ∧ is_delim c = true.

Definition unterminated_quote (s : string) : Prop :=
  ∃ pre body, s = pre +:+ "`" +:+ body ∧ str_mem "`" body = false.

Definition junk_after_quote (s : string) : Prop :=
  ∃ pre body c post,
    s = pre +:+ "`" +:+ body +:+ "`" +:+ String c post ∧ is_delim c = false.

Definition listed_syntax_error (s : string) : Prop :=
  s = "" ∨ leading_or_trailing_delim s ∨ unterminated_quote s ∨ junk_after_quote s.

(** The segments read so far: nothing, or a chain and its dot. *)
Definition chain_prefix (pre : string) : Prop :=
  pre = "" ∨ ∃ ch, is_chain ch ∧ pre = ch +:+ ".".

(** What makes [nextPath] fail where a segment of the first path has to
    start: a delimiter (the segment is empty: a leading or a doubled
    delimiter), a segment whose delimiter ends the input, a backtick that
    is not closed, or a quoted segment or [*] followed by a byte that is
    no delimiter. *)
Inductive bad_segment : string → Prop :=
| bad_empty x : starts_delim x = true → bad_segment x
| bad_trailing seg d :
    is_segment seg → is_delim d = true → bad_segment (seg +:+ String d "")
| bad_unterminated body :
    str_mem "`" body = false → bad_segment ("`" +:+ body)
| bad_after_quote body c post :
    str_mem "`" body = false → is_delim c = false →
    bad_segment (("`" +:+ body +:+ "`") +:+ String c post)
| bad_after_star c post :
    is_delim c = false → bad_segment ("*" +:+ String c post).

(** Masks and records of the test schema, built by hand. *)
Definition rootMask (fields : option (gmap string fieldMask)) : FieldMask :=
  {| fm_settings := defaultSettings;
     fm_msg := MkMsgMask testMessage (Some (testSchema testMessage)) fields |}.

(** The mask of [map_string_message_field.foo.int32_field] *)
Definition fooInt32Mask : FieldMask :=
  rootMask (Some {[ "map_string_message_field" :=
    msgMapFieldMask map_string_message_field stringKeyFuncs None
      (Some {[ TString "foo" :=
         MkMsgMask testMessage (Some (testSchema testMessage))
           (Some {[ "int32_field" := scalarFieldMask int32_field ]}) ]}) ]}).

Definition simpleMsg (i : Z) (str : string) : Message :=
  msgOf [(int32_field, ValueOfInt i); (string_field, ValueOfString str)] "".

(** A record with unknown bytes *)
Definition withUnknown : Message :=
  msgOf [(int32_field, ValueOfInt 1)] "unknown".

(** A record with two entries in its map of records *)
Definition fooBar : Message :=
  msgOf [(map_string_message_field,
          mapOf [("foo", ValueOfMessage (simpleMsg 1 "f"));
                 ("bar", ValueOfMessage (simpleMsg 2 "b"))])] "".

(** A record that holds the given records in its map of records *)
Definition recordMap (entries : list (string * Message)) : Message :=
  msgOf [(map_string_message_field,
          mapOf ((λ p, (p.1, ValueOfMessage p.2)) <$> entries))] "".

(** The schema of the scenarios of the specification: a record with the
    scalar fields [a], [b], [c], the list [r] and the map [m]. *)
Definition scenarioMessage : string := "scenario.Record".

Definition scenarioField (num : Z) (name : string) (card : Cardinality) (kind : Kind)
  : FieldDescriptor :=
  {| Number := num; Name := name; TextName := name; JSONName := name;
     IsExtension := false; ContainingOneof := None; Card := card; ElemKind := kind;
     ElemMessage := None |}.

Definition field_a := scenarioField 1 "a" Singular Int32Kind.
Definition field_b := scenarioField 2 "b" Singular Int32Kind.
Definition field_c := scenarioField 3 "c" Singular Int32Kind.
Definition field_r := scenarioField 4 "r" Repeated Int32Kind.
Definition field_m := scenarioField 5 "m" (MapOf StringKind) Int32Kind.

Definition scenarioSchema : Schema := λ name,
  if String.eqb name scenarioMessage then [field_a; field_b; field_c; field_r; field_m]
  else [].

Definition scenarioMsg (fields : list (FieldDescriptor * Value)) : Message :=
  MkMessage scenarioMessage (list_to_map ((λ p, (Number p.1, p)) <$> fields)) "".

(** The observation that tells two records apart by the keys one of
    their map fields holds. *)
Definition keysOfField (fd : FieldDescriptor) (m : option Message) : list MapKey :=
  match m with
  | Some msg => (map_to_list (asMap (Get msg fd))).*1
  | None => []
  end.

(** ** What update does through a map mask that is not complete *)

(** For a scalar-valued map: [pruned] is the destination map after the
    first loop, [updated] after the second. *)
Definition scalarMap_update_spec (sch : Schema) (s : settings) (desc : FieldDescriptor)
    (fn : keyFuncs) (keys : gmap keyT bool) (parent : Message)
    (src : gmap MapKey Value) (exists_ : bool) : Prop :=
  let dst := mutableMap parent desc in
  ∃ pruned updated : gmap MapKey Value,
    fieldMask_update sch s (scalarMapFieldMask desc fn (Some keys)) parent
      (Some (ValueOfMap src)) exists_
    = Set_ parent desc (ValueOfMap updated) ∧
    (∀ k, pruned !! k =
          match src !! k with
          | None => if hasKey fn keys k then None else dst !! k
          | Some _ => dst !! k
          end) ∧
    (∀ k, updated !! k =
          match src !! k with
          | Some v => if hasKey fn keys k then Some v else pruned !! k
          | None => pruned !! k
          end) ∧
    (∀ k, hasKey fn keys k = false → updated !! k = dst !! k) ∧
    (∀ k, hasKey fn keys k = true → updated !! k = src !! k).

(** In the words of the specification, the sub-mask a key matches: the
    keyed sub-mask filed under the key, or the wild sub-mask where no
    keyed sub-mask is filed under the key. *)
Inductive matches_submask (fn : keyFuncs) (wildMask : option msgMask)
    (keyedMasks : option (gmap keyT msgMask)) (k : MapKey) : msgMask → Prop :=
| matches_keyed keyed m :
    keyedMasks = Some keyed → keyed !! value fn k = Some m →
    matches_submask fn wildMask keyedMasks k m
| matches_wild m :
    wildMask = Some m →
    (∀ keyed, keyedMasks = Some keyed → keyed !! value fn k = None) →
    matches_submask fn wildMask keyedMasks k m.

(** For a record-valued map, whose source entries are records: [pruned]
    is the destination map after the first loop, [updated] after the
    second.  The first loop deletes the entries whose key matches a
    sub-mask and is absent from the source and keeps the others; the
    second updates, through the matching sub-mask, the entry of every
    source key that matches one, starting from a new record where the
    destination has no entry, and leaves the other entries as the first
    loop left them. *)
Definition msgMap_update_spec (sch : Schema) (s : settings) (desc : FieldDescriptor)
    (fn : keyFuncs) (wildMask : option msgMask) (keyedMasks : option (gmap keyT msgMask))
    (parent : Message) (src : gmap MapKey Message) (exists_ : bool) : Prop :=
  let dst := mutableMap parent desc in
  let matches := matches_submask fn wildMask keyedMasks in
  ∃ pruned updated : gmap MapKey Value,
    fieldMask_update sch s (msgMapFieldMask desc fn wildMask keyedMasks) parent
      (Some (ValueOfMap (ValueOfMessage <$> src))) exists_
    = Set_ parent desc (ValueOfMap updated) ∧
    (∀ k m, matches k m → src !! k = None → pruned !! k = None) ∧
    (∀ k, (∀ m, ¬ matches k m) ∨ is_Some (src !! k) → pruned !! k = dst !! k) ∧
    (∀ k m sm, matches k m → src !! k = Some sm →
       updated !! k
       = Some (ValueOfMessage
                 (msgMask_update sch s m (asMessage (MessageName desc) (dst !! k)) sm))) ∧
    (∀ k, (∀ m, ¬ matches k m) ∨ src !! k = None → updated !! k = pruned !! k) ∧
    (∀ k, (∀ m, ¬ matches k m) → updated !! k = dst !! k) ∧
    (∀ k m, matches k m → src !! k = None → updated !! k = None).

(** The complete mask [newMapFieldMask] builds for a map field whose
    keys are read with [fn]. *)
Definition completeMapMask (fd : FieldDescriptor) (fn : keyFuncs) : fieldMask :=
  if isMessage (ElemKind fd) then msgMapFieldMask fd fn None None
  else scalarMapFieldMask fd fn None.

(** The [Paths] of the mask a construction returned. *)
Definition PathsOf (env : TextEnv) (r : res FieldMask) : res (list string) :=
  match r with
  | Ok fm => Ok (Paths env fm)
  | Err e => Err e
  | Panic msg => Panic msg
  | OutOfFuel => OutOfFuel
  end.

(** ** Records the generic copy returns unchanged *)

Definition is_scalar (v : Value) : bool :=
  match v with
  | ValueOfBool _ | ValueOfInt _ | ValueOfString _ | ValueOfBytes _ => true
  | _ => false
  end.

Definition is_message_of (name : string) (v : Value) : Prop :=
  ∃ m, v = ValueOfMessage m ∧ Descriptor m = name.

(** The value [v] has the shape the descriptor [fd] announces, and is
    populated. *)
Definition fits (fd : FieldDescriptor) (v : Value) : Prop :=
  match Card fd, v with
  | Repeated, ValueOfList l =>
      l ≠ [] ∧
      match ElemMessage fd with
      | Some name => ∀ x, x ∈ l → is_message_of name x
      | None => True
      end
  | MapOf _, ValueOfMap mp =>
      mp ≠ ∅ ∧
      match ElemMessage fd with
      | Some name => ∀ k x, mp !! k = Some x → is_message_of name x
      | None => True
      end
  | Singular, _ =>
      match ElemMessage fd with
      | Some name => is_message_of name v
      | None => is_scalar v = true
      end
  | _, _ => False
  end.

(** The messages that stand directly in a field value. *)
Definition sub_message (v : Value) (m : Message) : Prop :=
  match v with
  | ValueOfMessage m' => m' = m
  | ValueOfList l => ValueOfMessage m ∈ l
  | ValueOfMap mp => ∃ k, mp !! k = Some (ValueOfMessage m)
  | _ => False
  end.

(** A record that is typed by its descriptors and in which, at every
    depth, the settings find nothing to drop: no unknown bytes unless
    unknowns are retained, no extension field unless extensions are
    allowed. *)
Inductive fully_retained (s : settings) : Message → Prop :=
| fully_retained_intro desc fields unknown :
    (retainsUnknowns s = false → unknown = "") →
    (∀ num fd v, fields !! num = Some (fd, v) → allow s fd = true ∧ fits fd v) →
    (∀ num fd v m, fields !! num = Some (fd, v) → sub_message v m → fully_retained s m) →
    fully_retained s (MkMessage desc fields unknown).

(** ** Further notions for the statements about the rest of the package *)

(** Whether every byte of [s] is below [utf8.RuneSelf], so that
    [shouldQuote] never calls the rune decoder on it. *)
Fixpoint all_ascii (s : string) : bool :=
  match s with
  | "" => true
  | String c s' => ((Z.of_nat (nat_of_ascii c) <? RuneSelf)%Z && all_ascii s')%bool
  end.

(** The keys of the type [T] a map mask of key kind [kind] is
    instantiated with: any string, a byte that is 0 or 1 for [bool], an
    integer in the range of [int32], [int64], [uint32] or [uint64]. *)
Definition keyTOfKind (kind : Kind) (k : keyT) : Prop :=
  match kind, k with
  | StringKind, TString _ => True
  | BoolKind, TInt z => z = 0%Z ∨ z = 1%Z
  | (Int32Kind | Sint32Kind | Sfixed32Kind), TInt z => (- 2 ^ 31 ≤ z < 2 ^ 31)%Z
  | (Int64Kind | Sint64Kind | Sfixed64Kind), TInt z => (- 2 ^ 63 ≤ z < 2 ^ 63)%Z
  | (Uint32Kind | Fixed32Kind), TInt z => (0 ≤ z < 2 ^ 32)%Z
  | (Uint64Kind | Fixed64Kind), TInt z => (0 ≤ z < 2 ^ 64)%Z
  | _, _ => False
  end.

(** The [protoreflect.MapKey] values a map field of key kind [kind]
    holds. *)
Definition keyOfKind (kind : Kind) (k : MapKey) : Prop :=
  match kind, k with
  | StringKind, MapKeyString _ => True
  | BoolKind, MapKeyBool _ => True
  | (Int32Kind | Sint32Kind | Sfixed32Kind), MapKeyInt z => (- 2 ^ 31 ≤ z < 2 ^ 31)%Z
  | (Int64Kind | Sint64Kind | Sfixed64Kind), MapKeyInt z => (- 2 ^ 63 ≤ z < 2 ^ 63)%Z
  | (Uint32Kind | Fixed32Kind), MapKeyInt z => (0 ≤ z < 2 ^ 32)%Z
  | (Uint64Kind | Fixed64Kind), MapKeyInt z => (0 ≤ z < 2 ^ 64)%Z
  | _, _ => False
  end.

Definition starts_digit (s : string) : bool :=
  match s with
  | String c _ => is_digit c
  | "" => false
  end.

(** What a lookup function accepts as a name of the field [fd], and the
    name it returns as the key of the field in a mask. *)
Definition name_matches (f : fieldLookupFunc) (fd : FieldDescriptor) (name : string) : Prop :=
  match f with
  | lookupTextField | lookupJSONField => TextName fd = name ∨ JSONName fd = name
  | lookupTextFieldStrict => TextName fd = name
  | lookupJSONFieldStrict => JSONName fd = name
  end.

Definition canonicalName (f : fieldLookupFunc) (fd : FieldDescriptor) : string :=
  match f with
  | lookupTextField | lookupTextFieldStrict => TextName fd
  | lookupJSONField | lookupJSONFieldStrict => JSONName fd
  end.

(** The descriptor a field mask was built for ([fm.desc]). *)
Definition fieldMask_desc (fm : fieldMask) : FieldDescriptor :=
  match fm with
  | scalarFieldMask desc | scalarListFieldMask desc | msgListFieldMask desc _
  | scalarMapFieldMask desc _ _ | msgMapFieldMask desc _ _ _ | msgFieldMask desc _ => desc
  end.

(** What [out] has to be like to be a part of the record [msg] that the
    field masks [fields] select: the same message type; no field but
    populated fields of [msg] that the settings allow and whose name is a
    key of [fields]; the unknown bytes of [msg] when the settings retain
    them and none otherwise. *)
Definition keeps_only_selected (s : settings) (fields : gmap string fieldMask)
    (msg out : Message) : Prop :=
  Descriptor out = Descriptor msg ∧
  GetUnknown out = (if retainsUnknowns s then GetUnknown msg else "") ∧
  (∀ num fd v, Fields out !! num = Some (fd, v) →
     allow s fd = true ∧ is_Some (fields !! Name fd) ∧ populated v = true ∧
     ∃ v0, Fields msg !! num = Some (fd, v0)).

(** The number of masks in a mask tree, the measure for inductions over
    the tree. *)
Definition sum_sizes `{Countable K} (m : gmap K nat) : nat :=
  map_fold (λ _ n acc, n + acc) 0 m.

Fixpoint fieldMask_size (fm : fieldMask) : nat :=
  match fm with
  | msgListFieldMask _ (Some m) => S (msgMask_size m)
  | msgMapFieldMask _ _ wildMask keyedMasks =>
      S (match wildMask with Some w => msgMask_size w | None => 0 end
         + match keyedMasks with
           | Some keyed => sum_sizes (msgMask_size <$> keyed)
           | None => 0
           end)
  | msgFieldMask _ mm => S (msgMask_size mm)
  | _ => 1
  end
with msgMask_size (mm : msgMask) : nat :=
  match mm with
  | MkMsgMask _ _ None => 1
  | MkMsgMask _ _ (Some fields) => S (sum_sizes (fieldMask_size <$> fields))
  end.

(** What one visit of the [Range] in [msgMask.mask] and [msgMask.clone]
    leaves of the field [p], given what the field masks do to a value. *)
Definition select (s : settings) (fs : gmap string (Value → Value))
    (p : FieldDescriptor * Value) : option (FieldDescriptor * Value) :=
  match fs !! Name p.1 with
  | Some f => if allow s p.1 then store p.1 (f p.2) else None
  | None => None
  end.

(** ** Typed records *)

(** An element of the field [fd]: a message of the field's message
    type, or a scalar. *)
Definition elem_fits (fd : FieldDescriptor) (x : Value) : Prop :=
  match ElemMessage fd with
  | Some name => is_message_of name x
  | None => is_scalar x = true
  end.

(** The value [v] is a populated value of the field [fd]: a non-empty
    list or map of elements of the field, or one element. *)
Definition well_typed (fd : FieldDescriptor) (v : Value) : Prop :=
  match Card fd, v with
  | Repeated, ValueOfList l => l ≠ [] ∧ ∀ x, x ∈ l → elem_fits fd x
  | MapOf _, ValueOfMap mp => mp ≠ ∅ ∧ ∀ k x, mp !! k = Some x → elem_fits fd x
  | Singular, _ => elem_fits fd v
  | _, _ => False
  end.

(** A record whose fields hold, at every depth, values of the shape
    their descriptors announce. *)
Inductive typed : Message → Prop :=
| typed_intro desc fields unknown :
    (∀ num fd v, fields !! num = Some (fd, v) → well_typed fd v) →
    (∀ num fd v m, fields !! num = Some (fd, v) → sub_message v m → typed m) →
    typed (MkMessage desc fields unknown).

(** What the generic copy into a fresh record makes of an element of
    the field [fd], and of a value of the field. *)
Definition copyElem (s : settings) (fd : FieldDescriptor) (x : Value) : Value :=
  match ElemMessage fd with
  | Some name => copyElemMessage (copyMessage s) name x
  | None => x
  end.

Definition copyValue (s : settings) (fd : FieldDescriptor) (v : Value) : Value :=
  match v with
  | ValueOfList l => ValueOfList (copyElem s fd <$> l)
  | ValueOfMap mp => ValueOfMap (copyElem s fd <$> mp)
  | _ => copyElem s fd v
  end.

(** A record of the schema [sch]: every field it holds is stored under
    its number with a descriptor of its message type and holds a value of
    the field's type, and of the members of a oneof it holds at most one,
    at every depth. *)
Inductive conforms (sch : Schema) : Message → Prop :=
| conforms_intro desc fields unknown :
    (∀ num fd v, fields !! num = Some (fd, v) →
       fd ∈ sch desc ∧ Number fd = num ∧ well_typed fd v) →
    (∀ n1 n2 fd1 v1 fd2 v2, fields !! n1 = Some (fd1, v1) → fields !! n2 = Some (fd2, v2) →
       n1 ≠ n2 → inOneofOf fd1 fd2 = false) →
    (∀ num fd v m, fields !! num = Some (fd, v) → sub_message v m → conforms sch m) →
    conforms sch (MkMessage desc fields unknown).

(** A record without unknown bytes, at every depth. *)
Inductive no_unknown : Message → Prop :=
| no_unknown_intro desc fields :
    (∀ num fd v m, fields !! num = Some (fd, v) → sub_message v m → no_unknown m) →
    no_unknown (MkMessage desc fields "").

(** The settings and the schema under which the generic update makes a
    destination equal to its source: repeated fields are replaced, no
    field of the schema is an extension that is not allowed, and the
    fields of a message type have different numbers. *)
Definition assigning (sch : Schema) (s : settings) : Prop :=
  updateRepeated s = UpdateReplacesRepeated ∧
  (∀ desc fd, fd ∈ sch desc → allow s fd = true) ∧
  (∀ desc, NoDup (Number <$> sch desc)).

(** The unknown bytes do not stand in the way: the settings replace
    them, or neither record has any. *)
Definition unknowns_agree (s : settings) (dst src : Message) : Prop :=
  updateUnknowns s = UpdateReplacesUnknowns ∨ (no_unknown dst ∧ no_unknown src).

(** Writing the field [fd] of the record [m], with [Set] or through
    [Mutable], leaves alone what [m] holds under the number [num]: [num]
    is another number than that of [fd], and the field [m] holds there,
    if any, is no member of the oneof of [fd]. *)
Definition spares (fd : FieldDescriptor) (m : Message) (num : Z) : Prop :=
  Number fd ≠ num ∧ ∀ fd' v, Fields m !! num = Some (fd', v) → inOneofOf fd fd' = false.

(** The field masks of a record mask are masks of different fields
    that do not share a oneof, and no mask's field shares a oneof with
    what the destination [dst] holds as the field of another mask. *)
Definition independent_fields (fields : gmap string fieldMask) (dst : Message) : Prop :=
  ∀ n1 n2 f1 f2, fields !! n1 = Some f1 → fields !! n2 = Some f2 → n1 ≠ n2 →
    inOneofOf (fieldMask_desc f1) (fieldMask_desc f2) = false ∧
    spares (fieldMask_desc f1) dst (Number (fieldMask_desc f2)).

(** What the visit of the field mask [fm], stored under [name], makes of
    its field of the destination [dst], were it the only visit of
    [msgMask.update]. *)
Definition update_alone (sch : Schema) (s : settings) (fldDescs : option (list FieldDescriptor))
    (name : string) (fm : fieldMask) (dst src : Message)
  : option (FieldDescriptor * Value) :=
  match doLookupField (lookupField s) (default [] fldDescs) name with
  | Some (_, fd) =>
      Fields (fieldMask_update sch s fm dst (Get src fd) (Has src fd))
        !! Number (fieldMask_desc fm)
  | None => Fields dst !! Number (fieldMask_desc fm)
  end.

(** The part of [msgMask.append] that deals with the field of the first
    segment: [old] is the field mask stored under the key of the field,
    if any, and the result the field mask stored after the call, when the
    call succeeds. *)
Definition field_step (sch : Schema) (s : settings) (env : TextEnv) (fuel : nat)
    (fd : FieldDescriptor) (subpath : string) (old : option fieldMask) : option fieldMask :=
  match old with
  | Some fld =>
      match fieldMask_append sch s env fuel fld subpath with
      | (fld, Ok _) => Some fld
      | _ => None
      end
  | None =>
      match newFieldMask fd with
      | Ok fld =>
          match fieldMask_init sch s env fuel fld subpath with
          | (fld, Ok _) => Some fld
          | _ => None
          end
      | _ => None
      end
  end.

(** ** Masks that select below every record *)

(** A mask tree no part of which retains a record, or a list or map of
    records, as a whole: every record mask in it holds field masks, every
    mask of a list of records holds an element mask, every mask of a map
    of records holds a wild mask or keyed masks; the masks of scalars, of
    lists of scalars and of maps of scalars are its leaves. *)
Inductive fieldMask_selective : fieldMask → Prop :=
| sel_scalar desc : fieldMask_selective (scalarFieldMask desc)
| sel_scalarList desc :
    ElemMessage desc = None → fieldMask_selective (scalarListFieldMask desc)
| sel_msgList desc m :
    msgMask_selective m → fieldMask_selective (msgListFieldMask desc (Some m))
| sel_scalarMap_complete desc fn :
    ElemMessage desc = None → fieldMask_selective (scalarMapFieldMask desc fn None)
| sel_scalarMap_keys desc fn keys :
    fieldMask_selective (scalarMapFieldMask desc fn (Some keys))
| sel_msgMap desc fn wild keyed :
    wild ≠ None ∨ keyed ≠ None →
    (∀ m, wild = Some m → msgMask_selective m) →
    (∀ km k m, keyed = Some km → km !! k = Some m → msgMask_selective m) →
    fieldMask_selective (msgMapFieldMask desc fn wild keyed)
| sel_msgField desc mm :
    msgMask_selective mm → fieldMask_selective (msgFieldMask desc mm)
with msgMask_selective : msgMask → Prop :=
| sel_msg desc fldDescs fields :
    (∀ name fm, fields !! name = Some fm → fieldMask_selective fm) →
    msgMask_selective (MkMsgMask desc fldDescs (Some fields)).

(** ** Records with a oneof *)

(** A destination that holds one member of the oneof of the test schema,
    a source that holds another, and the destination after the update
    through a mask of the source's member. *)
Definition oneofDst : Message :=
  msgOf [(int32_field, ValueOfInt 1); (int32_oneof_field, ValueOfInt 5)] "".
Definition oneofSrc : Message :=
  msgOf [(string_oneof_field, ValueOfString "x")] "".
Definition oneofOut : Message :=
  msgOf [(int32_field, ValueOfInt 1); (string_oneof_field, ValueOfString "x")] "".

(** * Properties *)

(** ** Strings *)

Lemma app_nil_l (s : string) : "" +:+ s = s.
Proof. reflexivity. Qed.

Lemma app_cons (c : ascii) (s t : string) : String c s +:+ t = String c (s +:+ t).
Proof. reflexivity. Qed.

Lemma app_nil_r (s : string) : s +:+ "" = s.
Proof. induction s as [|c s IH]; [done|]. by rewrite app_cons, IH. Qed.

Lemma app_assoc (s t u : string) : (s +:+ t) +:+ u = s +:+ t +:+ u.
Proof. induction s as [|c s IH]; [done|]. by rewrite !app_cons, IH. Qed.

Lemma length_app (s t : string) :
  String.length (s +:+ t) = String.length s + String.length t.
Proof. induction s as [|c s IH]; [done|]. rewrite app_cons. simpl. by rewrite IH. Qed.

Lemma slice_to_app (s t : string) : slice_to (String.length s) (s +:+ t) = s.
Proof. induction s as [|c s IH]; [by destruct t|]. rewrite app_cons. simpl. by rewrite IH. Qed.

Lemma slice_from_app (s t : string) : slice_from (String.length s) (s +:+ t) = t.
Proof. induction s as [|c s IH]; [by destruct t|]. rewrite app_cons. simpl. by rewrite IH. Qed.

Lemma slice_to_from (n : nat) (s : string) : slice_to n s +:+ slice_from n s = s.
Proof.
  revert s. induction n as [|n IH]; intros [|c s]; try done.
  simpl. by rewrite app_cons, IH.
Qed.

Lemma eqb_false_iff (s t : string) : String.eqb s t = false ↔ s ≠ t.
Proof. apply String.eqb_neq. Qed.

Lemma str_mem_delims (c : ascii) : str_mem c ".," = is_delim c.
Proof. unfold is_delim. simpl. by rewrite orb_false_r. Qed.

Lemma str_mem_app (c : ascii) (s t : string) :
  str_mem c (s +:+ t) = (str_mem c s || str_mem c t)%bool.
Proof.
  induction s as [|d s IH]; [done|]. rewrite app_cons. simpl.
  by rewrite IH, orb_assoc.
Qed.

Lemma has_delim_app (s t : string) :
  has_delim (s +:+ t) = (has_delim s || has_delim t)%bool.
Proof.
  induction s as [|d s IH]; [done|]. rewrite app_cons. simpl.
  by rewrite IH, orb_assoc.
Qed.

(** ** The tokenizer *)

Lemma IndexAny_cons (c : ascii) (s chars : string) :
  IndexAny (String c s) chars
  = if str_mem c chars then Some 0 else S <$> IndexAny s chars.
Proof. reflexivity. Qed.

Lemma IndexAny_delims_None (s : string) :
  IndexAny s ".," = None → has_delim s = false.
Proof.
  induction s as [|c s IH]; [done|]. rewrite IndexAny_cons, str_mem_delims.
  simpl. destruct (is_delim c); [done|].
  destruct (IndexAny s ".,"); [done|]. intros _. by apply IH.
Qed.

Lemma IndexAny_delims_Some (s : string) (i : nat) :
  IndexAny s ".," = Some i →
  has_delim (slice_to i s) = false ∧ starts_delim (slice_from i s) = true.
Proof.
  revert i. induction s as [|c s IH]; intros i; [done|].
  rewrite IndexAny_cons, str_mem_delims.
  destruct (is_delim c) eqn:Hc.
  - intros [= <-]. done.
  - destruct (IndexAny s ".,") as [j|]; [|done]. intros [= <-].
    destruct (IH j eq_refl) as [H1 H2]. simpl. by rewrite Hc, H1.
Qed.

Lemma IndexAny_delims_app (a t : string) :
  has_delim a = false → (t = "" ∨ starts_delim t = true) →
  (t = "" ∧ IndexAny (a +:+ t) ".," = None) ∨
  (t ≠ "" ∧ IndexAny (a +:+ t) ".," = Some (String.length a)).
Proof.
  intros Ha Ht. induction a as [|c a IH].
  - rewrite app_nil_l. destruct Ht as [->|Ht]; [by left|right].
    destruct t as [|d t]; [done|]. split; [done|].
    rewrite IndexAny_cons, str_mem_delims. simpl in Ht. by rewrite Ht.
  - simpl in Ha. apply orb_false_elim in Ha as [Hc Ha].
    rewrite app_cons, IndexAny_cons, str_mem_delims, Hc.
    destruct (IH Ha) as [[-> ->]|[? ->]]; [by left|by right].
Qed.

Lemma IndexByte_app (body t : string) (c : ascii) :
  str_mem c body = false →
  IndexByte (body +:+ String c t) c = Some (String.length body).
Proof.
  intros Hb. induction body as [|d body IH].
  - rewrite app_nil_l. simpl. by rewrite Ascii.eqb_refl.
  - simpl in Hb. apply orb_false_elim in Hb as [Hd Hb].
    rewrite app_cons. simpl. rewrite Hd. by rewrite (IH Hb).
Qed.

Lemma IndexByte_Some (s : string) (c : ascii) (i : nat) :
  IndexByte s c = Some i →
  ∃ body t, s = body +:+ String c t ∧ String.length body = i ∧ str_mem c body = false.
Proof.
  revert i. induction s as [|d s IH]; intros i; [done|]. simpl.
  destruct (Ascii.eqb c d) eqn:Hd.
  - intros [= <-]. apply Ascii.eqb_eq in Hd as <-. by exists "", s.
  - destruct (IndexByte s c) as [j|]; [|done]. intros [= <-].
    destruct (IH j eq_refl) as (body & t & -> & <- & Hb).
    exists (String d body), t. split_and!; [done..|]. simpl. by rewrite Hd.
Qed.

Lemma is_segment_nonempty (seg : string) : is_segment seg → seg ≠ "".
Proof. by destruct 1. Qed.

Lemma is_segment_not_delim (seg : string) :
  is_segment seg → (String.eqb seg "." || String.eqb seg ",")%bool = false.
Proof.
  destruct 1 as [|body|c s Hc]; try done.
  apply orb_false_intro; apply String.eqb_neq; intros [= -> ->]; done.
Qed.

Lemma is_chain_nonempty (p : string) : is_chain p → p ≠ "".
Proof.
  destruct 1 as [seg Hseg|seg p Hseg _]; [by apply is_segment_nonempty|].
  destruct Hseg; done.
Qed.

Lemma nextToken_delim (c : ascii) (t : string) :
  is_delim c = true → nextToken (String c t) = Ok (String c "", t).
Proof.
  unfold is_delim, nextToken. intros Hc.
  by destruct (Ascii.eqb c ".") eqn:?, (Ascii.eqb c ",") eqn:?.
Qed.

Lemma nextToken_star (t : string) : nextToken ("*" +:+ t) = Ok ("*", t).
Proof. done. Qed.

Lemma nextToken_backtick (s : string) :
  nextToken (String "`" s)
  = match QuotedPrefix (String "`" s) with
    | None => Err errSyntax
    | Some quoted => Ok (quoted, slice_from (String.length quoted) (String "`" s))
    end.
Proof. reflexivity. Qed.

Lemma QuotedPrefix_app (body t : string) :
  str_mem "`" body = false →
  QuotedPrefix (("`" +:+ body +:+ "`") +:+ t) = Some ("`" +:+ body +:+ "`").
Proof.
  intros Hb.
  change (("`" +:+ body +:+ "`") +:+ t) with (String "`" ((body +:+ "`") +:+ t)).
  unfold QuotedPrefix. rewrite app_assoc.
  change ("`" +:+ t) with (String "`" t). rewrite (IndexByte_app body t "`" Hb).
  f_equal.
  replace (String.length body + 2) with (String.length ("`" +:+ body +:+ "`")).
  2:{ change ("`" +:+ body +:+ "`") with (String "`" (body +:+ "`")).
      simpl. rewrite length_app. simpl. lia. }
  replace (String "`" (body +:+ String "`" t)) with (("`" +:+ body +:+ "`") +:+ t).
  2:{ change (("`" +:+ body +:+ "`") +:+ t) with (String "`" ((body +:+ "`") +:+ t)).
      by rewrite app_assoc. }
  apply slice_to_app.
Qed.

Lemma nextToken_quoted (body t : string) :
  str_mem "`" body = false →
  nextToken (("`" +:+ body +:+ "`") +:+ t) = Ok ("`" +:+ body +:+ "`", t).
Proof.
  intros Hb.
  change (("`" +:+ body +:+ "`") +:+ t) with (String "`" ((body +:+ "`") +:+ t)).
  rewrite nextToken_backtick.
  change (String "`" ((body +:+ "`") +:+ t)) with (("`" +:+ body +:+ "`") +:+ t).
  rewrite (QuotedPrefix_app body t Hb). by rewrite slice_from_app.
Qed.

Lemma nextToken_ident (c : ascii) (s t : string) :
  is_delim c = false → c ≠ "*"%char → c ≠ "`"%char → has_delim s = false →
  (t = "" ∨ starts_delim t = true) →
  nextToken (String c s +:+ t) = Ok (String c s, t).
Proof.
  intros Hc Hstar Hq Hs Ht. rewrite app_cons. unfold nextToken.
  unfold is_delim in Hc. apply orb_false_elim in Hc as [Hc1 Hc2].
  rewrite Hc1, Hc2. apply Ascii.eqb_neq in Hstar, Hq. rewrite Hstar, Hq. simpl orb. cbv iota.
  replace (String c (s +:+ t)) with (String c s +:+ t) by done.
  destruct (IndexAny_delims_app (String c s) t) as [[-> ->]|[? ->]]; [|done|..].
  - simpl. unfold is_delim. by rewrite Hc1, Hc2.
  - by rewrite app_nil_r.
  - by rewrite slice_to_app, slice_from_app.
Qed.

Lemma nextToken_segment (seg t : string) :
  is_segment seg → (t = "" ∨ starts_delim t = true) →
  nextToken (seg +:+ t) = Ok (seg, t).
Proof.
  intros Hseg Ht. destruct Hseg as [|body Hb|c s].
  - apply nextToken_star.
  - by apply nextToken_quoted.
  - by apply nextToken_ident.
Qed.

(** What a token is, whenever the tokenizer returns one. *)
Lemma nextToken_sound (s tok rest : string) :
  nextToken s = Ok (tok, rest) →
  s = tok +:+ rest ∧ (tok = "." ∨ tok = "," ∨ is_segment tok).
Proof.
  destruct s as [|c s]; [done|]. unfold nextToken.
  destruct (Ascii.eqb c ".") eqn:Hdot.
  { apply Ascii.eqb_eq in Hdot as ->. intros [= <- <-]. auto. }
  destruct (Ascii.eqb c ",") eqn:Hcomma.
  { apply Ascii.eqb_eq in Hcomma as ->. intros [= <- <-]. auto. }
  destruct (Ascii.eqb c "*") eqn:Hstar.
  { apply Ascii.eqb_eq in Hstar as ->. intros [= <- <-]. split; [done|].
    right; right. constructor. }
  simpl orb. cbv iota.
  destruct (Ascii.eqb c "`") eqn:Hq.
  - apply Ascii.eqb_eq in Hq as ->.
    destruct (QuotedPrefix (String "`" s)) as [q|] eqn:HQ; [|done].
    unfold QuotedPrefix in HQ.
    destruct (IndexByte s "`") as [i|] eqn:Hi; [|done].
    apply IndexByte_Some in Hi as (body & t & -> & <- & Hb).
    assert (String "`" (body +:+ String "`" t) = ("`" +:+ body +:+ "`") +:+ t) as Hs.
    { change (("`" +:+ body +:+ "`") +:+ t) with (String "`" ((body +:+ "`") +:+ t)).
      by rewrite app_assoc. }
    pose proof (QuotedPrefix_app body t Hb) as HQ'. rewrite <- Hs in HQ'.
    unfold QuotedPrefix in HQ'. rewrite IndexByte_app in HQ' by done.
    rewrite HQ' in HQ. injection HQ as <-.
    intros [= <- <-]. rewrite Hs.
    change ("" +:+ body +:+ "`") with (body +:+ "`").
    replace (body +:+ String "`" t) with ((body +:+ "`") +:+ t) by (by rewrite app_assoc).
    rewrite slice_from_app. split; [done|].
    right; right. by constructor.
  - destruct (IndexAny (String c s) ".,") as [i|] eqn:Hi.
    + intros [= <- <-]. split; [by rewrite slice_to_from|].
      right; right. pose proof (IndexAny_delims_Some _ _ Hi) as [H1 _].
      destruct i as [|i].
      { rewrite IndexAny_cons, str_mem_delims in Hi. unfold is_delim in Hi.
        rewrite Hdot, Hcomma in Hi. simpl in Hi.
        destruct (IndexAny s ".,"); done. }
      simpl in *. apply orb_false_elim in H1 as [H1 H2].
      constructor; try done; by apply Ascii.eqb_neq.
    + intros [= <- <-]. split; [by rewrite app_nil_r|].
      right; right. apply IndexAny_delims_None in Hi. simpl in Hi.
      apply orb_false_elim in Hi as [H1 H2].
      constructor; try done; by apply Ascii.eqb_neq.
Qed.

Lemma nextToken_total (s : string) :
  (∃ tok rest, nextToken s = Ok (tok, rest)) ∨ nextToken s = Err errSyntax.
Proof.
  destruct s as [|c s]; [by right|]. unfold nextToken.
  destruct (Ascii.eqb c "." || Ascii.eqb c "," || Ascii.eqb c "*")%bool; [eauto|].
  destruct (Ascii.eqb c "`").
  - destruct (QuotedPrefix (String c s)); eauto.
  - destruct (IndexAny (String c s) ".,"); eauto.
Qed.

Lemma nextToken_shrinks (s tok rest : string) :
  nextToken s = Ok (tok, rest) → String.length rest < String.length s.
Proof.
  intros H. apply nextToken_sound in H as [-> Htok]. rewrite length_app.
  assert (tok ≠ "") as Hne.
  { destruct Htok as [->| [->|Hseg]]; [done..|by apply is_segment_nonempty]. }
  destruct tok; [done|]. simpl. lia.
Qed.

(** ** nextPath and nextSegment *)

Lemma nextPath_loop_sound (fuel : nat) : ∀ s rest pre path r,
  nextPath_loop fuel s rest = Ok (path, r) → s = pre +:+ rest →
  ∃ ch, is_chain ch ∧ path = pre +:+ ch ∧
        ((r = "" ∧ rest = ch) ∨ (r ≠ "" ∧ rest = ch +:+ "," +:+ r)).
Proof.
  induction fuel as [|fuel IH]; intros s rest pre path r; [done|].
  simpl. destruct (nextToken rest) as [[tok rest1]| | |] eqn:H1; try done.
  destruct (String.eqb tok "." || String.eqb tok ",")%bool eqn:Hd; [done|].
  apply nextToken_sound in H1 as [-> Htok].
  assert (is_segment tok) as Hseg by (by destruct Htok as [->|[->|?]]).
  destruct (String.eqb rest1 "") eqn:Hr1.
  - apply String.eqb_eq in Hr1 as ->. intros [= <- <-] ->. exists tok.
    rewrite app_nil_r. split_and!; [by constructor|done|by left].
  - destruct (nextToken rest1) as [[tok2 rest2]| | |] eqn:H2; try done.
    apply nextToken_sound in H2 as [-> Htok2].
    destruct (String.eqb rest2 "") eqn:Hr2; [done|].
    destruct (String.eqb tok2 ",") eqn:Hc.
    + apply String.eqb_eq in Hc as ->. intros [= <- <-] ->. exists tok.
      split; [by constructor|]. split.
      * replace (pre +:+ tok +:+ "," +:+ rest2)
          with ((pre +:+ tok) +:+ "," +:+ rest2) by (by rewrite !app_assoc).
        replace (String.length ((pre +:+ tok) +:+ "," +:+ rest2)
                 - String.length rest2 - 1) with (String.length (pre +:+ tok)).
        { apply slice_to_app. }
        rewrite !length_app. simpl. lia.
      * right. split; [by apply String.eqb_neq|done].
    + destruct (String.eqb tok2 ".") eqn:Hdot; [|done]. simpl negb. cbv iota.
      apply String.eqb_eq in Hdot as ->. intros Hloop ->.
      destruct (IH _ _ (pre +:+ tok +:+ ".") _ _ Hloop) as (ch & Hch & -> & Hcase).
      { by rewrite !app_assoc. }
      exists (tok +:+ "." +:+ ch). split; [by constructor|].
      split; [by rewrite !app_assoc|].
      destruct Hcase as [[-> ->]|[? ->]]; [by left|right].
      split; [done|]. by rewrite !app_assoc.
Qed.

Lemma nextPath_loop_complete (ch : string) :
  is_chain ch → ∀ fuel pre tail r,
  String.length ch < fuel →
  (tail = "" ∧ r = "") ∨ (r ≠ "" ∧ tail = "," +:+ r) →
  nextPath_loop fuel (pre +:+ ch +:+ tail) (ch +:+ tail) = Ok (pre +:+ ch, r).
Proof.
  induction 1 as [seg Hseg|seg p Hseg Hp IH]; intros fuel pre tail r Hfuel Htail.
  - destruct fuel as [|fuel]; [lia|]. simpl.
    rewrite (nextToken_segment seg tail Hseg).
    2:{ destruct Htail as [[-> _]|[_ ->]]; [by left|by right]. }
    rewrite (is_segment_not_delim seg Hseg).
    destruct Htail as [[-> ->]|[Hr ->]].
    + simpl. by rewrite !app_nil_r.
    + change (("," +:+ r =? "")%string) with false. cbv iota.
      change (nextToken ("," +:+ r)) with (Ok (A:=string * string) (",", r)).
      cbv iota beta. apply String.eqb_neq in Hr as Hr'. rewrite Hr'.
      simpl String.eqb. cbv iota. f_equal. f_equal.
      replace (pre +:+ seg +:+ "," +:+ r)
        with ((pre +:+ seg) +:+ "," +:+ r) by (by rewrite !app_assoc).
      replace (String.length ((pre +:+ seg) +:+ "," +:+ r) - String.length r - 1)
        with (String.length (pre +:+ seg)).
      { apply slice_to_app. }
      rewrite !length_app. simpl. lia.
  - destruct fuel as [|fuel]; [lia|]. simpl.
    rewrite !app_assoc.
    rewrite (nextToken_segment seg ("." +:+ p +:+ tail) Hseg) by (by right).
    rewrite (is_segment_not_delim seg Hseg).
    change (("." +:+ p +:+ tail =? "")%string) with false. cbv iota.
    change (nextToken ("." +:+ p +:+ tail))
      with (Ok (A:=string * string) (".", p +:+ tail)).
    cbv iota beta.
    assert (p +:+ tail ≠ "") as Hne.
    { pose proof (is_chain_nonempty p Hp). destruct p; done. }
    apply String.eqb_neq in Hne. rewrite Hne. simpl String.eqb. simpl negb. cbv iota.
    specialize (IH fuel (pre +:+ seg +:+ ".") tail r).
    rewrite !app_assoc in IH. apply IH; [|done].
    rewrite !length_app in Hfuel. simpl in Hfuel. lia.
Qed.

Lemma nextPath_loop_total (fuel : nat) : ∀ s rest,
  String.length rest < fuel →
  (∃ path r, nextPath_loop fuel s rest = Ok (path, r))
  ∨ nextPath_loop fuel s rest = Err errSyntax.
Proof.
  induction fuel as [|fuel IH]; intros s rest Hlen; [lia|].
  simpl. destruct (nextToken_total rest) as [(tok & rest1 & H1)| ->]; [|by right].
  rewrite H1. apply nextToken_shrinks in H1.
  destruct (String.eqb tok "." || String.eqb tok ",")%bool; [by right|].
  destruct (String.eqb rest1 ""); [by eauto|].
  destruct (nextToken_total rest1) as [(tok2 & rest2 & H2)| ->]; [|by right].
  rewrite H2. apply nextToken_shrinks in H2.
  destruct (String.eqb rest2 ""); [by right|].
  destruct (String.eqb tok2 ","); [by eauto|].
  destruct (String.eqb tok2 "."); [|by right]. simpl. apply IH. lia.
Qed.

(** [nextPath] always returns: a path and a rest, or the syntax error. *)
Lemma nextPath_terminates (s : string) :
  (∃ path r, nextPath s = Ok (path, r)) ∨ nextPath s = Err errSyntax.
Proof.
  unfold nextPath. destruct (String.eqb s ""); [by right|].
  apply nextPath_loop_total. lia.
Qed.

Lemma nextPath_Ok_iff (s path rest : string) :
  nextPath s = Ok (path, rest) ↔ path_head s path rest.
Proof.
  unfold nextPath, path_head. split.
  - destruct (String.eqb s ""); [done|]. intros H.
    destruct (nextPath_loop_sound _ s s "" path rest H eq_refl)
      as (ch & Hch & -> & Hcase).
    rewrite app_nil_l. split; [done|]. destruct Hcase as [[-> ->]|[? ->]]; auto.
  - intros [Hch Hcase].
    assert (s ≠ "") as Hs.
    { pose proof (is_chain_nonempty _ Hch).
      destruct Hcase as [[_ ->]|[_ ->]]; [done|]. by destruct path. }
    apply String.eqb_neq in Hs. rewrite Hs.
    destruct Hcase as [[-> ->]|[Hr ->]].
    + pose proof (nextPath_loop_complete path Hch (S (String.length path)) "" "" "") as H.
      rewrite !app_nil_l, !app_nil_r in H. apply H; [lia|by left].
    + pose proof (nextPath_loop_complete path Hch
        (S (String.length (path +:+ "," +:+ rest))) "" ("," +:+ rest) rest) as H.
      rewrite !app_nil_l in H. apply H; [|by right].
      rewrite length_app. lia.
Qed.

Lemma nextPath_Err_iff (s : string) :
  nextPath s = Err errSyntax ↔ ¬ ∃ path rest, path_head s path rest.
Proof.
  split.
  - intros H (path & rest & Hhead). apply nextPath_Ok_iff in Hhead. congruence.
  - intros H. destruct (nextPath_terminates s) as [(path & r & Hok)|]; [|done].
    destruct H. exists path, r. by apply nextPath_Ok_iff.
Qed.

(** [nextSegment] on a segment that ends the input, and on a segment
    followed by a dot and more. *)
Lemma nextSegment_last (seg : string) :
  is_segment seg → nextSegment seg = Ok (seg, "").
Proof.
  intros Hseg. unfold nextSegment.
  pose proof (nextToken_segment seg "" Hseg (or_introl eq_refl)) as H.
  rewrite app_nil_r in H. rewrite H, (is_segment_not_delim seg Hseg). done.
Qed.

Lemma nextSegment_dot (seg sub : string) :
  is_segment seg → sub ≠ "" → nextSegment (seg +:+ "." +:+ sub) = Ok (seg, sub).
Proof.
  intros Hseg Hsub. unfold nextSegment.
  rewrite (nextToken_segment seg ("." +:+ sub) Hseg) by (by right).
  rewrite (is_segment_not_delim seg Hseg).
  change (("." +:+ sub =? "")%string) with false. cbv iota.
  change (nextToken ("." +:+ sub)) with (Ok (A:=string * string) (".", sub)).
  cbv iota beta. apply String.eqb_neq in Hsub. rewrite Hsub. done.
Qed.

Lemma nextSegment_sound (s seg rest : string) :
  nextSegment s = Ok (seg, rest) →
  is_segment seg ∧ ((rest = "" ∧ s = seg) ∨ (rest ≠ "" ∧ s = seg +:+ "." +:+ rest)).
Proof.
  unfold nextSegment.
  destruct (nextToken s) as [[tok rest1]| | |] eqn:H1; try done.
  destruct (String.eqb tok "." || String.eqb tok ",")%bool eqn:Hd; [done|].
  apply nextToken_sound in H1 as [-> Htok].
  assert (is_segment tok) as Hseg by (by destruct Htok as [->|[->|?]]).
  destruct (String.eqb rest1 "") eqn:Hr1.
  - apply String.eqb_eq in Hr1 as ->. intros [= <- <-]. rewrite app_nil_r. auto.
  - destruct (nextToken rest1) as [[tok2 rest2]| | |] eqn:H2; try done.
    apply nextToken_sound in H2 as [-> _].
    destruct (String.eqb tok2 ".") eqn:Hdot; [|done].
    destruct (String.eqb rest2 "") eqn:Hr2; [done|]. simpl.
    apply String.eqb_eq in Hdot as ->. apply String.eqb_neq in Hr2.
    intros [= <- <-]. auto.
Qed.

(** The failures of [nextPath], one by one. *)

Lemma nextPath_loop_unfold (fuel : nat) (s rest : string) :
  nextPath_loop (S fuel) s rest
  = match nextToken rest with
    | Ok (tok, rest) =>
        if (String.eqb tok "." || String.eqb tok ",")%bool then Err errSyntax
        else if String.eqb rest "" then Ok (s, "")
        else
          match nextToken rest with
          | Ok (tok, rest) =>
              if String.eqb rest "" then Err errSyntax
              else if String.eqb tok "," then
                Ok (slice_to (String.length s - String.length rest - 1) s, rest)
              else if negb (String.eqb tok ".") then Err errSyntax
              else nextPath_loop fuel s rest
          | _ => Err errSyntax
          end
    | _ => Err errSyntax
    end.
Proof. reflexivity. Qed.

Lemma delim_token (d : ascii) :
  is_delim d = true →
  (String.eqb (String d "") "." || String.eqb (String d "") ",")%bool = true.
Proof.
  unfold is_delim. intros [H|H]%orb_true_iff; apply Ascii.eqb_eq in H as ->; done.
Qed.

Lemma IndexByte_None (s : string) (c : ascii) :
  str_mem c s = false → IndexByte s c = None.
Proof.
  induction s as [|d s IH]; [done|]. simpl. intros [Hd Hs]%orb_false_elim.
  by rewrite Hd, IH.
Qed.

Lemma IndexByte_None_inv (s : string) (c : ascii) :
  IndexByte s c = None → str_mem c s = false.
Proof.
  induction s as [|d s IH]; [done|]. simpl. destruct (Ascii.eqb c d); [done|].
  destruct (IndexByte s c); [done|]. intros _. by rewrite IH.
Qed.

Lemma nextToken_Err (s : string) :
  nextToken s = Err errSyntax →
  s = "" ∨ ∃ body, s = "`" +:+ body ∧ str_mem "`" body = false.
Proof.
  destruct s as [|c s]; [by left|]. unfold nextToken.
  destruct (Ascii.eqb c "." || Ascii.eqb c "," || Ascii.eqb c "*")%bool; [done|].
  destruct (Ascii.eqb c "`") eqn:Hq.
  - apply Ascii.eqb_eq in Hq as ->. unfold QuotedPrefix.
    destruct (IndexByte s "`") eqn:Hi; [done|]. intros _. right. exists s.
    split; [done|]. by apply IndexByte_None_inv.
  - destruct (IndexAny (String c s) ".,"); done.
Qed.

(** The byte a segment starts with is no delimiter. *)
Lemma is_segment_head (seg : string) :
  is_segment seg → ∃ c t, seg = String c t ∧ is_delim c = false.
Proof. destruct 1 as [|body|c s]; eauto. Qed.

(** After an identifier comes a delimiter or the end of the input. *)
Lemma nextToken_follow (s tok rest : string) :
  nextToken s = Ok (tok, rest) → is_segment tok →
  tok = "*" ∨ (∃ body, tok = "`" +:+ body +:+ "`" ∧ str_mem "`" body = false)
  ∨ rest = "" ∨ starts_delim rest = true.
Proof.
  intros H Hseg. destruct Hseg as [|body Hb|c t Hc Hstar Hq Ht]; [by left|right; left; eauto|].
  right; right. pose proof (nextToken_sound _ _ _ H) as [-> _].
  rewrite app_cons in H. unfold nextToken in H.
  unfold is_delim in Hc. apply orb_false_elim in Hc as [Hc1 Hc2].
  apply Ascii.eqb_neq in Hstar, Hq. rewrite Hc1, Hc2, Hstar, Hq in H.
  simpl orb in H. cbv iota in H.
  destruct (IndexAny (String c (t +:+ rest)) ".,") as [i|] eqn:Hi.
  - apply IndexAny_delims_Some in Hi as [_ Hi].
    assert (slice_from i (String c (t +:+ rest)) = rest) as <- by congruence.
    by right.
  - left. congruence.
Qed.

Lemma bad_segment_nonempty (x : string) : bad_segment x → x ≠ "".
Proof.
  destruct 1 as [x Hx|seg d Hseg _| | |]; try done.
  - by destruct x.
  - apply is_segment_nonempty in Hseg. by destruct seg.
Qed.

(** A bad segment start fails the iteration of the loop that reads it. *)
Lemma nextPath_loop_bad (x : string) :
  bad_segment x → ∀ fuel s, nextPath_loop (S fuel) s x = Err errSyntax.
Proof.
  intros Hbad fuel s. rewrite nextPath_loop_unfold.
  destruct Hbad as [x Hx|seg d Hseg Hd|body Hb|body c post Hb Hc|c post Hc].
  - destruct x as [|d x]; [done|]. simpl in Hx.
    by rewrite (nextToken_delim d x Hx), (delim_token d Hx).
  - rewrite (nextToken_segment seg (String d "") Hseg) by (by right).
    rewrite (is_segment_not_delim seg Hseg). simpl String.eqb. cbv iota.
    by rewrite (nextToken_delim d "" Hd).
  - change ("`" +:+ body) with (String "`" body). rewrite nextToken_backtick.
    unfold QuotedPrefix. by rewrite (IndexByte_None _ _ Hb).
  - rewrite (nextToken_quoted body _ Hb).
    rewrite (is_segment_not_delim _ (seg_quoted body Hb)). simpl String.eqb. cbv iota.
    destruct (nextToken (String c post)) as [[tok2 rest2]| | |] eqn:H2; try done.
    destruct (String.eqb rest2 ""); [done|].
    pose proof (nextToken_sound _ _ _ H2) as [Hs Htok2].
    assert (is_segment tok2) as Hseg2.
    { destruct Htok2 as [->|[->|?]]; [..|done]; injection Hs as -> _; done. }
    pose proof (is_segment_not_delim _ Hseg2) as [H3 H4]%orb_false_elim.
    by rewrite H3, H4.
  - rewrite nextToken_star. simpl String.eqb. simpl orb. cbv iota.
    destruct (nextToken (String c post)) as [[tok2 rest2]| | |] eqn:H2; try done.
    destruct (String.eqb rest2 ""); [done|].
    pose proof (nextToken_sound _ _ _ H2) as [Hs Htok2].
    assert (is_segment tok2) as Hseg2.
    { destruct Htok2 as [->|[->|?]]; [..|done]; injection Hs as -> _; done. }
    pose proof (is_segment_not_delim _ Hseg2) as [H3 H4]%orb_false_elim.
    by rewrite H3, H4.
Qed.

(** The loop steps over a chain and its dot. *)
Lemma nextPath_loop_skip (ch : string) :
  is_chain ch → ∀ x, bad_segment x → ∀ fuel s,
  String.length ch < fuel →
  nextPath_loop fuel s (ch +:+ "." +:+ x) = Err errSyntax.
Proof.
  induction 1 as [seg Hseg|seg p Hseg Hp IH]; intros x Hx fuel s Hfuel.
  - destruct fuel as [|fuel]; [lia|]. rewrite nextPath_loop_unfold.
    rewrite (nextToken_segment seg ("." +:+ x) Hseg) by (by right).
    rewrite (is_segment_not_delim seg Hseg).
    change (("." +:+ x =? "")%string) with false. cbv iota.
    change (nextToken ("." +:+ x)) with (Ok (A:=string * string) (".", x)).
    cbv iota beta. pose proof (bad_segment_nonempty x Hx) as Hne.
    apply String.eqb_neq in Hne. rewrite Hne. simpl String.eqb. simpl negb. cbv iota.
    destruct fuel as [|fuel].
    { apply is_segment_nonempty in Hseg. destruct seg; [done|]. simpl in Hfuel. lia. }
    by apply nextPath_loop_bad.
  - destruct fuel as [|fuel]; [lia|]. rewrite nextPath_loop_unfold.
    rewrite !app_assoc.
    rewrite (nextToken_segment seg ("." +:+ p +:+ "." +:+ x) Hseg) by (by right).
    rewrite (is_segment_not_delim seg Hseg).
    change (("." +:+ p +:+ "." +:+ x =? "")%string) with false. cbv iota.
    change (nextToken ("." +:+ p +:+ "." +:+ x))
      with (Ok (A:=string * string) (".", p +:+ "." +:+ x)).
    cbv iota beta.
    assert (p +:+ "." +:+ x ≠ "") as Hne.
    { pose proof (is_chain_nonempty p Hp). destruct p; done. }
    apply String.eqb_neq in Hne. rewrite Hne. simpl String.eqb. simpl negb. cbv iota.
    apply IH; [done|]. rewrite !length_app in Hfuel. simpl in Hfuel. lia.
Qed.

Lemma nextPath_bad (pre x : string) :
  chain_prefix pre → bad_segment x → nextPath (pre +:+ x) = Err errSyntax.
Proof.
  intros Hpre Hx. unfold nextPath.
  destruct (String.eqb (pre +:+ x) ""); [done|].
  destruct Hpre as [->|(ch & Hch & ->)].
  - rewrite app_nil_l. by apply nextPath_loop_bad.
  - rewrite !app_assoc. apply nextPath_loop_skip; [done..|].
    rewrite !length_app. lia.
Qed.

(** Every failure of the loop is one of these. *)
Lemma nextPath_loop_Err (fuel : nat) : ∀ s rest e,
  nextPath_loop fuel s rest = Err e → rest ≠ "" →
  ∃ pre x, chain_prefix pre ∧ bad_segment x ∧ rest = pre +:+ x.
Proof.
  induction fuel as [|fuel IH]; intros s rest e; [done|].
  rewrite nextPath_loop_unfold. intros H Hrest.
  destruct (nextToken rest) as [[tok rest1]|e1| |] eqn:H1.
  2:{ destruct (nextToken_total rest) as [(?&?&?)|H1']; [congruence|].
      apply nextToken_Err in H1' as [?|(body & -> & Hb)]; [done|].
      exists "", ("`" +:+ body). split_and!; [by left|by constructor|done]. }
  2,3: by destruct (nextToken_total rest) as [(?&?&?)|?]; congruence.
  pose proof (nextToken_sound _ _ _ H1) as [-> Htok].
  destruct (String.eqb tok "." || String.eqb tok ",")%bool eqn:Hd.
  { exists "", (tok +:+ rest1). split_and!; [by left| |done].
    apply bad_empty. by destruct Htok as [->|[->|Hseg%is_segment_not_delim]]; [..|congruence]. }
  assert (is_segment tok) as Hseg by (by destruct Htok as [->|[->|?]]).
  destruct (String.eqb rest1 "") eqn:Hr1; [done|]. apply String.eqb_neq in Hr1.
  (* a star or a quoted segment directly followed by something else *)
  assert (∀ c post, rest1 = String c post → is_delim c = false →
          ∃ pre x, chain_prefix pre ∧ bad_segment x ∧ tok +:+ rest1 = pre +:+ x) as Hjunk.
  { intros c post -> Hc.
    destruct (nextToken_follow _ _ _ H1 Hseg) as [->|[(body & -> & Hb)|[?|Hsd]]];
      [| |done|simpl in Hsd; congruence].
    - exists "", ("*" +:+ String c post). split_and!; [by left|by constructor|done].
    - exists "", (("`" +:+ body +:+ "`") +:+ String c post).
      split_and!; [by left|by constructor|done]. }
  destruct (nextToken rest1) as [[tok2 rest2]|e2| |] eqn:H2.
  2:{ destruct (nextToken_total rest1) as [(?&?&?)|H2']; [congruence|].
      apply nextToken_Err in H2' as [?|(body & -> & Hb)]; [done|].
      by apply (Hjunk "`"%char body). }
  2,3: by destruct (nextToken_total rest1) as [(?&?&?)|?]; congruence.
  pose proof (nextToken_sound _ _ _ H2) as [-> Htok2].
  assert (is_segment tok2 →
          ∃ pre x, chain_prefix pre ∧ bad_segment x
                   ∧ tok +:+ tok2 +:+ rest2 = pre +:+ x) as Hseg2.
  { intros (c & t & -> & Hc)%is_segment_head. by apply (Hjunk c (t +:+ rest2)). }
  destruct (String.eqb rest2 "") eqn:Hr2.
  { apply String.eqb_eq in Hr2 as ->. rewrite app_nil_r in *.
    destruct Htok2 as [->|[->|?]]; [..|by auto].
    - exists "", (tok +:+ "."). split_and!; [by left|by constructor|done].
    - exists "", (tok +:+ ","). split_and!; [by left|by constructor|done]. }
  destruct (String.eqb tok2 ",") eqn:Hc; [done|].
  destruct (String.eqb tok2 ".") eqn:Hdot.
  2:{ apply String.eqb_neq in Hc, Hdot. destruct Htok2 as [->|[->|?]]; [done..|by auto]. }
  apply String.eqb_eq in Hdot as ->. simpl negb in H. cbv iota in H.
  apply String.eqb_neq in Hr2.
  destruct (IH _ _ _ H Hr2) as (pre & x & Hpre & Hx & ->).
  exists (tok +:+ "." +:+ pre), x. split_and!; [|done|by rewrite !app_assoc].
  right. destruct Hpre as [->|(ch & Hch & ->)].
  - exists tok. split; [by constructor|by rewrite app_nil_r].
  - exists (tok +:+ "." +:+ ch). split; [by constructor|by rewrite !app_assoc].
Qed.

Lemma nextPath_Err_cases (s : string) :
  nextPath s = Err errSyntax ↔
  s = "" ∨ ∃ pre x, chain_prefix pre ∧ bad_segment x ∧ s = pre +:+ x.
Proof.
  split.
  - unfold nextPath. destruct (String.eqb s "") eqn:Hs.
    { apply String.eqb_eq in Hs. by left. }
    apply String.eqb_neq in Hs. intros H. right. by eapply nextPath_loop_Err.
  - intros [->|(pre & x & Hpre & Hx & ->)]; [done|]. by apply nextPath_bad.
Qed.

Lemma str_mem_of_app (c : ascii) (pre post s : string) :
  s = pre +:+ String c post → str_mem c s = true.
Proof.
  intros ->. rewrite str_mem_app. simpl. rewrite Ascii.eqb_refl.
  by rewrite orb_true_r.
Qed.

(** C7, as the specification states it, fails on the input [*a]: the call
    returns the syntax error although the input is not empty, neither
    starts nor ends with a delimiter, and holds no backtick at all. *)
Lemma nextPath_star_junk_not_listed :
  nextPath "*a" = Err errSyntax ∧ ¬ listed_syntax_error "*a".
Proof.
  split; [reflexivity|].
  intros [H|[[H|(c & H & Hc)]|[(pre & body & H & _)|(pre & body & c & post & H & _)]]].
  - discriminate.
  - discriminate.
  - injection H as <-. discriminate.
  - apply str_mem_of_app in H. discriminate.
  - apply str_mem_of_app in H. discriminate.
Qed.

(** C7 (amended).  [nextPath] returns the syntax error exactly when the
    input is empty or, where a segment of the first path has to start
    (at the start of the input or after the dot that follows a chain of
    segments), the input goes on with a delimiter, with a segment whose
    delimiter ends the input, with a backtick that is never closed, or
    with a quoted segment or a [*] followed by a byte that is no
    delimiter.  It returns otherwise, and then with exactly one
    comma-delimited path: a chain of segments that ends the input or is
    followed by a comma and the non-empty rest.  A quoted segment with a
    dot inside is one segment: [`a.b`,c] holds the two paths [`a.b`] and
    [c], and the first is a single segment. *)
Theorem nextPath_syntax_error_iff :
  (∀ s, nextPath s = Err errSyntax ↔
        s = "" ∨ ∃ pre x, chain_prefix pre ∧ bad_segment x ∧ s = pre +:+ x) ∧
  (∀ s, (∃ path rest, nextPath s = Ok (path, rest)) ∨ nextPath s = Err errSyntax) ∧
  (∀ s path rest, nextPath s = Ok (path, rest) ↔ path_head s path rest) ∧
  nextPath "`a.b`,c" = Ok ("`a.b`", "c") ∧
  nextSegment "`a.b`" = Ok ("`a.b`", "") ∧
  nextPath "c" = Ok ("c", "").
Proof.
  split_and!.
  - apply nextPath_Err_cases.
  - apply nextPath_terminates.
  - apply nextPath_Ok_iff.
  - reflexivity.
  - reflexivity.
  - reflexivity.
Qed.

Example nextPath_multipart : nextPath "foo.*.123,bar.qux" = Ok ("foo.*.123", "bar.qux").
Proof. reflexivity. Qed.
Example nextPath_unseparated : nextPath "`foo.bar`123.qux" = Err errSyntax.
Proof. reflexivity. Qed.
Example nextPath_doubled_dot : nextPath "a..b" = Err errSyntax.
Proof. reflexivity. Qed.
Example nextPath_second_path_unread : nextPath "a,b." = Ok ("a", "b.").
Proof. reflexivity. Qed.
Example nextSegment_multipath : nextSegment "foo,bar" = Err errSyntax.
Proof. reflexivity. Qed.
Example nextSegment_multipart : nextSegment "foo.bar.baz" = Ok ("foo", "bar.baz").
Proof. reflexivity. Qed.

(** ** Building the mask tree *)

Section construct_facts.
Context (sch : Schema) (s : settings) (env : TextEnv).

#[local] Abbreviation msgMask_init := (msgMask_init sch s env).
#[local] Abbreviation msgMask_append := (msgMask_append sch s env).
#[local] Abbreviation fieldMask_init := (fieldMask_init sch s env).
#[local] Abbreviation fieldMask_append := (fieldMask_append sch s env).
#[local] Abbreviation msgMap_add := (msgMap_add sch s env).

Lemma msgMask_append_S (fuel : nat) (mm : msgMask) (path : string) :
  msgMask_append (S fuel) mm path
  = if is_empty_or_star path then (with_fields mm None, Ok tt)
    else
      or_return (nextSegment path) mm (λ '(name, subpath),
      or_return (msgMask_lookupField s mm name) mm (λ found,
        match found with
        | None => (mm, Err (errUnknownField (mm_desc mm) name))
        | Some (key_, fd) =>
            match mm_fields mm with
            | None => (mm, Ok tt)
            | Some fields =>
                match fields !! key_ with
                | Some fld =>
                    let '(fld, r) := fieldMask_append fuel fld subpath in
                    (with_fields mm (Some (<[key_ := fld]> fields)), r)
                | None =>
                    or_return (newFieldMask fd) mm (λ fld,
                      match fieldMask_init fuel fld subpath with
                      | (fld, Ok _) =>
                          (with_fields mm (Some (<[key_ := fld]> fields)), Ok tt)
                      | (_, r) => (mm, r)
                      end)
                end
            end
        end)).
Proof. reflexivity. Qed.

Lemma msgMask_init_S (fuel : nat) (mm : msgMask) (path : string) :
  msgMask_init (S fuel) mm path
  = if is_empty_or_star path then (mm, Ok tt)
    else
      or_return (nextSegment path) mm (λ '(name, subpath),
      or_return (msgMask_lookupField s mm name) mm (λ found,
        match found with
        | None => (mm, Err (errUnknownField (mm_desc mm) name))
        | Some (key_, fd) =>
            or_return (newFieldMask fd) mm (λ fld,
              match fieldMask_init fuel fld subpath with
              | (fld, Ok _) => (with_fields mm (Some {[ key_ := fld ]}), Ok tt)
              | (_, r) => (mm, r)
              end)
        end)).
Proof. reflexivity. Qed.

Lemma fieldMask_append_S (fuel : nat) (fm : fieldMask) (path : string) :
  fieldMask_append (S fuel) fm path
  = match fm with
    | scalarFieldMask _ => (fm, addScalarPath path)
    | scalarListFieldMask _ => (fm, scalarList_add path)
    | msgListFieldMask desc elemMask =>
        if is_empty_or_star path then (msgListFieldMask desc None, Ok tt)
        else
          or_return (nextSegment path) fm (λ '(token, subpath),
            if negb (String.eqb token "*") then (fm, Err (errInvalidListPath path))
            else
              match elemMask with
              | None => (fm, Ok tt)
              | Some vm =>
                  let '(vm, r) := msgMask_append fuel vm subpath in
                  (msgListFieldMask desc (Some vm), r)
              end)
    | scalarMapFieldMask desc fn keys =>
        match keys with
        | None => (fm, Ok tt)
        | Some _ =>
            let '(keys, r) := scalarMap_add fn keys path in
            (scalarMapFieldMask desc fn keys, r)
        end
    | msgMapFieldMask desc fn wildMask keyedMasks =>
        match wildMask, keyedMasks with
        | None, None => (fm, Ok tt)
        | _, _ => msgMap_add fuel desc fn wildMask keyedMasks path
        end
    | msgFieldMask desc mm =>
        let '(mm, r) := msgMask_append fuel mm path in
        (msgFieldMask desc mm, r)
    end.
Proof. reflexivity. Qed.

Lemma fieldMask_init_S (fuel : nat) (fm : fieldMask) (path : string) :
  fieldMask_init (S fuel) fm path
  = match fm with
    | scalarFieldMask _ => (fm, addScalarPath path)
    | scalarListFieldMask _ => (fm, scalarList_add path)
    | msgListFieldMask desc elemMask =>
        if is_empty_or_star path then (msgListFieldMask desc None, Ok tt)
        else
          or_return (nextSegment path) fm (λ '(token, subpath),
            if negb (String.eqb token "*") then (fm, Err (errInvalidListPath path))
            else
              match msgMask_init fuel (newMsgMask sch (MessageName desc)) subpath with
              | (vm, Ok _) => (msgListFieldMask desc (Some vm), Ok tt)
              | (_, r) => (fm, r)
              end)
    | scalarMapFieldMask desc fn keys =>
        let '(keys, r) := scalarMap_add fn keys path in
        (scalarMapFieldMask desc fn keys, r)
    | msgMapFieldMask desc fn wildMask keyedMasks =>
        msgMap_add fuel desc fn wildMask keyedMasks path
    | msgFieldMask desc mm =>
        let '(mm, r) := msgMask_init fuel mm path in
        (msgFieldMask desc mm, r)
    end.
Proof. reflexivity. Qed.

Lemma msgMap_add_S (fuel : nat) (desc : FieldDescriptor) (fn : keyFuncs)
    (wildMask : option msgMask) (keyedMasks : option (gmap keyT msgMask))
    (path : string) :
  msgMap_add (S fuel) desc fn wildMask keyedMasks path
  = msgMap_add_body sch env (msgMask_init fuel) (msgMask_append fuel)
      desc fn wildMask keyedMasks path.
Proof. reflexivity. Qed.

End construct_facts.

(** ** A failed append leaves the mask as it was *)

Lemma with_fields_id (mm : msgMask) (f : option (gmap string fieldMask)) :
  mm_fields mm = f → with_fields mm f = mm.
Proof. destruct mm. simpl. by intros ->. Qed.

Lemma scalarMap_add_Err (fn : keyFuncs) (keys keys' : option (gmap keyT bool))
    (path : string) (e : error) :
  scalarMap_add fn keys path = (keys', Err e) → keys' = keys.
Proof.
  unfold scalarMap_add, scalarMap_addWild, scalarMap_addKeyed, or_return.
  repeat case_match; naive_solver.
Qed.

Lemma echo_outcome_not_Err (rs : list (keyT * (msgMask * res unit))) (e : error) :
  echo_outcome rs ≠ Err e.
Proof. unfold echo_outcome. by repeat case_match. Qed.

Section append_atomic.
Context (sch : Schema) (s : settings) (env : TextEnv).

Lemma append_Err_unchanged (fuel : nat) :
  (∀ mm path mm' e,
     msgMask_append sch s env fuel mm path = (mm', Err e) → mm' = mm) ∧
  (∀ fm path fm' e,
     fieldMask_append sch s env fuel fm path = (fm', Err e) → fm' = fm) ∧
  (∀ desc fn wildMask keyedMasks path fm' e,
     msgMap_add sch s env fuel desc fn wildMask keyedMasks path = (fm', Err e) →
     fm' = msgMapFieldMask desc fn wildMask keyedMasks).
Proof.
  induction fuel as [|fuel (IHmsg & IHfld & IHmap)]; [by split_and!|].
  split_and!.
  - intros mm path mm' e. rewrite msgMask_append_S. unfold or_return.
    destruct (is_empty_or_star path); [done|].
    destruct (nextSegment path) as [[name subpath]| | |]; [|naive_solver..].
    destruct (msgMask_lookupField s mm name) as [[[key_ fd]|]| | |]; [|naive_solver..].
    destruct (mm_fields mm) as [fields|] eqn:Hfields; [|done].
    destruct (fields !! key_) as [fld|] eqn:Hfld.
    + destruct (fieldMask_append sch s env fuel fld subpath) as [fld' r] eqn:Happ.
      intros [= <- ->]. apply IHfld in Happ as ->.
      rewrite insert_id by done. by apply with_fields_id.
    + destruct (newFieldMask fd) as [fld| | |]; [|naive_solver..].
      destruct (fieldMask_init sch s env fuel fld subpath) as [fld' []]; naive_solver.
  - intros fm path fm' e. rewrite fieldMask_append_S. unfold or_return.
    destruct fm as [desc|desc|desc elemMask|desc fn keys|desc fn wildMask keyedMasks|desc mm].
    + naive_solver.
    + naive_solver.
    + destruct (is_empty_or_star path); [done|].
      destruct (nextSegment path) as [[token subpath]| | |]; [|naive_solver..].
      destruct (negb (String.eqb token "*")); [naive_solver|].
      destruct elemMask as [vm|]; [|done].
      destruct (msgMask_append sch s env fuel vm subpath) as [vm' r] eqn:Happ.
      intros [= <- ->]. by apply IHmsg in Happ as ->.
    + destruct keys as [keys|]; [|done].
      destruct (scalarMap_add fn (Some keys) path) as [keys' r] eqn:Hadd.
      intros [= <- ->]. by apply scalarMap_add_Err in Hadd as ->.
    + destruct wildMask, keyedMasks; try done; apply IHmap.
    + destruct (msgMask_append sch s env fuel mm path) as [mm' r] eqn:Happ.
      intros [= <- ->]. by apply IHmsg in Happ as ->.
  - intros desc fn wildMask keyedMasks path fm' e. rewrite msgMap_add_S.
    unfold msgMap_add_body, msgMap_addWild, msgMap_addKeyed, or_return.
    assert (∀ subpath,
      (if String.eqb subpath "" then (msgMapFieldMask desc fn None None, Ok tt)
       else
         let '(wild, r) :=
           match wildMask with
           | None =>
               match msgMask_init sch s env fuel (newMsgMask sch (MessageName desc)) subpath with
               | (m, Ok _) => (Some m, Ok tt)
               | (_, r) => (None, r)
               end
           | Some w =>
               let '(w, r) := msgMask_append sch s env fuel w subpath in (Some w, r)
           end in
         match r with
         | Ok _ =>
             let rs := (λ m, msgMask_append sch s env fuel m subpath)
                         <$> default ∅ keyedMasks in
             (msgMapFieldMask desc fn wild
                (match keyedMasks with None => None | Some _ => Some (fst <$> rs) end),
              echo_outcome (map_to_list rs))
         | _ => (msgMapFieldMask desc fn wild keyedMasks, r)
         end) = (fm', Err e) → fm' = msgMapFieldMask desc fn wildMask keyedMasks) as Hwild.
    { intros subpath. destruct (String.eqb subpath ""); [done|].
      destruct wildMask as [w|].
      - destruct (msgMask_append sch s env fuel w subpath) as [w' r] eqn:Happ.
        destruct r as [[]|e'|msg|].
        + intros [= _ Hecho]. by apply echo_outcome_not_Err in Hecho.
        + intros [= <- ->]. by apply IHmsg in Happ as ->.
        + done.
        + done.
      - destruct (msgMask_init sch s env fuel (newMsgMask sch (MessageName desc)) subpath)
          as [m []]; try naive_solver.
        intros [= _ Hecho]. by apply echo_outcome_not_Err in Hecho. }
    destruct (is_empty_or_star path); [apply Hwild|].
    destruct (nextSegment path) as [[name subpath]| | |]; [|naive_solver..].
    destruct (String.eqb name "*"); [apply Hwild|].
    destruct (key fn name) as [k| | |]; [|naive_solver..].
    destruct (default ∅ keyedMasks !! k) as [m|] eqn:Hk.
    + destruct (msgMask_append sch s env fuel m subpath) as [m' r] eqn:Happ.
      intros [= <- ->]. apply IHmsg in Happ as ->.
      destruct keyedMasks as [keyed|]; [|done]. simpl in *. by rewrite insert_id.
    + destruct (msgMask_init sch s env fuel (newMsgMask sch (MessageName desc)) subpath)
        as [m []]; [|naive_solver..].
      destruct wildMask as [w|]; [|naive_solver].
      destruct (seed _ m _) as [m' []]; naive_solver.
Qed.

End append_atomic.

(** C3.  When [Append] returns an error, the mask is exactly as it was
    before the call: the same mask tree, hence the same [Paths] and the
    same [Mask], [Clone] and [Update].  This holds whatever recursion
    budget the call is run with. *)
Theorem Append_error_leaves_mask (sch : Schema) (env : TextEnv) (fuel : nat)
    (fm fm' : FieldMask) (path : string) (e : error) :
  Append sch env fuel fm path = (fm', Err e) →
  fm' = fm ∧
  fm_msg fm' = fm_msg fm ∧
  Paths env fm' = Paths env fm ∧
  (∀ msg, Mask fm' msg = Mask fm msg) ∧
  (∀ msg, Clone fm' msg = Clone fm msg) ∧
  (∀ dst src, Update sch fm' dst src = Update sch fm dst src).
Proof.
  unfold Append.
  destruct (msgMask_append sch (fm_settings fm) env fuel (fm_msg fm) path)
    as [mm r] eqn:Happ.
  intros [= <- ->].
  apply (proj1 (append_Err_unchanged sch (fm_settings fm) env fuel)) in Happ as ->.
  assert (with_msg fm (fm_msg fm) = fm) as -> by (by destruct fm).
  done.
Qed.

Lemma Append_error_leaves_mask_witness :
  (Append testSchema asciiEnv 8 fooInt32Mask
     "map_string_message_field.foo.int32_field.x").1 = fooInt32Mask.
Proof.
  apply (Append_error_leaves_mask testSchema asciiEnv 8 fooInt32Mask _
           "map_string_message_field.foo.int32_field.x"
           (errInvalidScalarSubpath "x")).
  vm_compute. reflexivity.
Defined.

(** C9.  On a record mask in the complete state, an append whose leading
    segment resolves to a field succeeds and changes nothing, whatever
    sub-path follows the segment; an append whose leading segment does
    not resolve fails with the unknown-field error.  A complete map mask
    accepts every path as it is. *)
Theorem append_on_complete (sch : Schema) (s : settings) (env : TextEnv) (fuel : nat)
    (mm : msgMask) (path name subpath : string) :
  msgMask_complete mm = true →
  nextSegment path = Ok (name, subpath) →
  (∀ key_ fd, msgMask_lookupField s mm name = Ok (Some (key_, fd)) →
     msgMask_append sch s env (S fuel) mm path = (mm, Ok tt)) ∧
  (msgMask_lookupField s mm name = Ok None →
     path ≠ "*" →
     msgMask_append sch s env (S fuel) mm path
     = (mm, Err (errUnknownField (mm_desc mm) name))) ∧
  (∀ desc fn p,
     fieldMask_append sch s env (S fuel) (msgMapFieldMask desc fn None None) p
     = (msgMapFieldMask desc fn None None, Ok tt)) ∧
  (∀ desc fn p,
     fieldMask_append sch s env (S fuel) (scalarMapFieldMask desc fn None) p
     = (scalarMapFieldMask desc fn None, Ok tt)).
Proof.
  intros Hcomplete Hseg.
  assert (mm_fields mm = None) as Hfields.
  { unfold msgMask_complete in Hcomplete. by destruct (mm_fields mm). }
  split_and!.
  - intros key_ fd Hlookup. rewrite msgMask_append_S.
    destruct (is_empty_or_star path).
    { by rewrite (with_fields_id mm None Hfields). }
    by rewrite Hseg; simpl; rewrite Hlookup; simpl; rewrite Hfields.
  - intros Hlookup Hstar. rewrite msgMask_append_S.
    assert (is_empty_or_star path = false) as ->.
    { unfold is_empty_or_star. apply orb_false_intro; apply String.eqb_neq; [|done].
      intros ->. done. }
    by rewrite Hseg; simpl; rewrite Hlookup.
  - done.
  - done.
Qed.

Lemma append_on_complete_witness :
  msgMask_append testSchema defaultSettings asciiEnv 1
    (newMsgMask testSchema testMessage) "int32_field.no.such.field"
  = (newMsgMask testSchema testMessage, Ok tt).
Proof.
  exact (proj1 (append_on_complete testSchema defaultSettings asciiEnv 0
                  (newMsgMask testSchema testMessage)
                  "int32_field.no.such.field" "int32_field" "no.such.field"
                  eq_refl eq_refl) "int32_field" int32_field eq_refl).
Defined.

(** The same sub-path is refused when the mask is not complete. *)
Example append_validates_when_incomplete :
  (msgMask_append testSchema defaultSettings asciiEnv 8
     (fm_msg fooInt32Mask) "int32_field.no.such.field").2
  = Err (errInvalidScalarSubpath "no.such.field").
Proof. vm_compute. reflexivity. Qed.

(** C8 (the code breaks it).  The wild mask of [m.*.*] is complete, so
    it takes the append of [int32_field.bogus] without looking at the
    sub-path; the keyed mask of [foo] is not complete, refuses it, and
    [addWild] panics. *)
Theorem addWild_panic_reachable :
  Parse testSchema asciiEnv 16 testMessage defaultSettings
    ("map_string_message_field.*.*,"
     +:+ "map_string_message_field.foo.string_field,"
     +:+ "map_string_message_field.*.int32_field.bogus")
  = Panic internalError.
Proof. vm_compute. reflexivity. Qed.

(** C10.  At the facade a message that is not valid never reaches the
    mask tree: [Mask] leaves it alone, [Clone] returns the zero value, and
    [Update] with such a destination leaves it alone, for every mask and
    every source. *)
Theorem facade_invalid_message (sch : Schema) (fm : FieldMask) (src : option Message) :
  Mask fm None = None ∧ Clone fm None = None ∧ Update sch fm None src = None.
Proof. done. Qed.

(** ** Mask and Clone *)

(** C1 (the code breaks it).  With the mask [*] and the default
    settings, [Mask] returns at once and leaves the unknown bytes of the
    record in place, while [Clone] copies the record with the generic
    copy, which drops them: the two records differ. *)
Theorem Mask_Clone_differ_on_unknown :
  ∃ fm, Parse testSchema asciiEnv 4 testMessage defaultSettings "*" = Ok fm ∧
        Mask fm (Some withUnknown) = Some withUnknown ∧
        Clone fm (Some withUnknown) = Some (SetUnknown withUnknown "") ∧
        Mask fm (Some withUnknown) ≠ Clone fm (Some withUnknown).
Proof.
  eexists. split; [vm_compute; reflexivity|]. split_and!.
  - reflexivity.
  - vm_compute. reflexivity.
  - intros H. apply (f_equal (λ m, GetUnknown <$> m)) in H. vm_compute in H.
    discriminate.
Qed.

(** C4 (the code breaks it).  The mask of [m.*.*,m.foo.string_field]
    keeps every entry of the map, but its [Paths] are [m.foo.string_field]
    alone: the mask parsed from them keeps the entry [foo] only. *)
Theorem Paths_round_trip_loses_wildcard :
  ∃ fm fm',
    Parse testSchema asciiEnv 16 testMessage defaultSettings
      "map_string_message_field.*.*,map_string_message_field.foo.string_field" = Ok fm ∧
    Paths asciiEnv fm = ["map_string_message_field.foo.string_field"] ∧
    Parse testSchema asciiEnv 16 testMessage defaultSettings (String_ asciiEnv fm) = Ok fm' ∧
    Paths asciiEnv fm' = Paths asciiEnv fm ∧
    keysOfField map_string_message_field (Clone fm (Some fooBar))
      = [MapKeyString "foo"; MapKeyString "bar"] ∧
    keysOfField map_string_message_field (Clone fm' (Some fooBar))
      = [MapKeyString "foo"] ∧
    Clone fm (Some fooBar) ≠ Clone fm' (Some fooBar) ∧
    Mask fm (Some fooBar) ≠ Mask fm' (Some fooBar).
Proof.
  eexists. eexists. split; [vm_compute; reflexivity|].
  split; [vm_compute; reflexivity|].
  split; [vm_compute; reflexivity|].
  split; [vm_compute; reflexivity|].
  split; [vm_compute; reflexivity|].
  split; [vm_compute; reflexivity|].
  split.
  - intros H. apply (f_equal (keysOfField map_string_message_field)) in H.
    vm_compute in H. discriminate.
  - intros H. apply (f_equal (keysOfField map_string_message_field)) in H.
    vm_compute in H. discriminate.
Qed.

(** ** Update through a map mask *)

Lemma lookupMask_with_fmap {A B} (f : A → B) (fn : keyFuncs) (wild : option A)
    (keyed : option (gmap keyT A)) (k : MapKey) :
  lookupMask_with fn (f <$> wild) (fmap (M := gmap keyT) f <$> keyed) k
  = f <$> lookupMask_with fn wild keyed k.
Proof.
  unfold lookupMask_with. destruct keyed as [km|]; simpl; [|done].
  rewrite lookup_fmap. by destruct (km !! value fn k).
Qed.

Lemma scalarMap_update_selected (sch : Schema) (s : settings) (desc : FieldDescriptor)
    (fn : keyFuncs) (keys : gmap keyT bool) (parent : Message)
    (src : gmap MapKey Value) (exists_ : bool) :
  scalarMap_update_spec sch s desc fn keys parent src exists_.
Proof.
  unfold scalarMap_update_spec. simpl.
  set (dst := mutableMap parent desc).
  set (pruned := filter (λ kv : MapKey * Value,
                   ¬ (hasKey fn keys kv.1 = true ∧ src !! kv.1 = None)) dst).
  exists pruned, (filter (λ kv : MapKey * Value, hasKey fn keys kv.1 = true) src ∪ pruned).
  assert (∀ k, pruned !! k =
               match src !! k with
               | None => if hasKey fn keys k then None else dst !! k
               | Some _ => dst !! k
               end) as Hpruned.
  { intros k. unfold pruned. rewrite map_lookup_filter.
    destruct (dst !! k) as [v|] eqn:Hd; simpl.
    - by destruct (src !! k) eqn:Hs, (hasKey fn keys k) eqn:Hk.
    - by destruct (src !! k), (hasKey fn keys k). }
  assert (∀ k, (filter (λ kv : MapKey * Value, hasKey fn keys kv.1 = true) src ∪ pruned) !! k
               = match src !! k with
                 | Some v => if hasKey fn keys k then Some v else pruned !! k
                 | None => pruned !! k
                 end) as Hupdated.
  { intros k. rewrite lookup_union, map_lookup_filter.
    destruct (src !! k) as [v|] eqn:Hs; simpl.
    - destruct (hasKey fn keys k) eqn:Hk; simpl; by destruct (pruned !! k).
    - by destruct (pruned !! k). }
  split_and!; [done|done|done|..].
  - intros k Hk. rewrite Hupdated, Hpruned, Hk. by destruct (src !! k).
  - intros k Hk. rewrite Hupdated, Hpruned, Hk. by destruct (src !! k).
Qed.

(** [lookupMask] finds the sub-mask the key matches, and none where the
    key matches none. *)
Lemma lookupMask_matches (fn : keyFuncs) (wildMask : option msgMask)
    (keyedMasks : option (gmap keyT msgMask)) (k : MapKey) (m : msgMask) :
  lookupMask fn wildMask keyedMasks k = Some m ↔ matches_submask fn wildMask keyedMasks k m.
Proof.
  unfold lookupMask, lookupMask_with. split.
  - destruct keyedMasks as [keyed|].
    + destruct (keyed !! value fn k) as [m'|] eqn:Hk.
      * intros [= ->]. by eapply matches_keyed.
      * intros ->. apply matches_wild; [done|]. by intros ? [= <-].
    + intros ->. by apply matches_wild.
  - intros [keyed m' -> Hk|m' -> Hnone].
    + by rewrite Hk.
    + destruct keyedMasks as [keyed|]; [|done]. by rewrite (Hnone keyed).
Qed.

Lemma lookupMask_matches_None (fn : keyFuncs) (wildMask : option msgMask)
    (keyedMasks : option (gmap keyT msgMask)) (k : MapKey) :
  lookupMask fn wildMask keyedMasks k = None ↔
  ∀ m, ¬ matches_submask fn wildMask keyedMasks k m.
Proof.
  split.
  - intros Hnone m Hm%lookupMask_matches. congruence.
  - intros Hnone. destruct (lookupMask fn wildMask keyedMasks k) as [m|] eqn:Hk; [|done].
    by apply lookupMask_matches, Hnone in Hk.
Qed.

(** The two loops of the update, entry by entry, on what [lookupMask]
    returns. *)
Lemma msgMap_update_loops (sch : Schema) (s : settings) (desc : FieldDescriptor)
    (fn : keyFuncs) (wildMask : option msgMask) (keyedMasks : option (gmap keyT msgMask))
    (parent : Message) (src : gmap MapKey Message) (exists_ : bool) :
  (is_Some wildMask ∨ is_Some keyedMasks) →
  let dst := mutableMap parent desc in
  ∃ pruned updated : gmap MapKey Value,
    fieldMask_update sch s (msgMapFieldMask desc fn wildMask keyedMasks) parent
      (Some (ValueOfMap (ValueOfMessage <$> src))) exists_
    = Set_ parent desc (ValueOfMap updated) ∧
    (∀ k, pruned !! k =
          match lookupMask fn wildMask keyedMasks k, src !! k with
          | Some _, None => None
          | _, _ => dst !! k
          end) ∧
    (∀ k, updated !! k =
          match lookupMask fn wildMask keyedMasks k, src !! k with
          | Some m, Some sm =>
              Some (ValueOfMessage
                      (msgMask_update sch s m
                         (asMessage (MessageName desc) (pruned !! k)) sm))
          | _, _ => pruned !! k
          end).
Proof.
  intros Hincomplete dst.
  set (pruned := filter (λ kv : MapKey * Value,
                   ¬ (is_Some (lookupMask fn wildMask keyedMasks kv.1)
                      ∧ (ValueOfMessage <$> src) !! kv.1 = None)) dst).
  set (wild := msgMask_update sch s <$> wildMask).
  set (keyed := fmap (M := gmap keyT) (msgMask_update sch s) <$> keyedMasks).
  set (updated :=
    merge (λ sv dv,
             match sv with
             | Some (Some upd, ValueOfMessage m) =>
                 Some (ValueOfMessage (upd (asMessage (MessageName desc) dv) m))
             | _ => dv
             end)
      (map_imap (λ k v, Some (lookupMask_with fn wild keyed k, v))
         (ValueOfMessage <$> src)) pruned).
  exists pruned, updated.
  assert (∀ k, pruned !! k =
               match lookupMask fn wildMask keyedMasks k, src !! k with
               | Some _, None => None
               | _, _ => dst !! k
               end) as Hpruned.
  { intros k. unfold pruned. rewrite map_lookup_filter.
    destruct (dst !! k) as [v|] eqn:Hd; simpl.
    - case_guard as Hg; simpl; rewrite lookup_fmap in Hg;
        destruct (lookupMask fn wildMask keyedMasks k) eqn:Hm, (src !! k) eqn:Hs;
        simpl in *; try done; exfalso;
        first [ by apply Hg; split; eauto | by destruct Hg as [[? ?] ?] ].
    - by destruct (lookupMask fn wildMask keyedMasks k), (src !! k). }
  assert (∀ k, updated !! k =
               match lookupMask fn wildMask keyedMasks k, src !! k with
               | Some m, Some sm =>
                   Some (ValueOfMessage
                           (msgMask_update sch s m
                              (asMessage (MessageName desc) (pruned !! k)) sm))
               | _, _ => pruned !! k
               end) as Hupdated.
  { intros k. unfold updated. rewrite lookup_merge, map_lookup_imap, lookup_fmap.
    unfold wild, keyed. rewrite lookupMask_with_fmap. unfold lookupMask.
    destruct (src !! k) as [sm|] eqn:Hs; simpl.
    - destruct (lookupMask_with fn wildMask keyedMasks k) as [m|]; simpl;
        by destruct (pruned !! k).
    - destruct (lookupMask_with fn wildMask keyedMasks k); by destruct (pruned !! k). }
  split_and!; [|done|done].
  simpl. destruct wildMask as [w|], keyedMasks as [km|]; try done.
  destruct Hincomplete as [[? [=]]|[? [=]]].
Qed.

Lemma msgMap_update_selected (sch : Schema) (s : settings) (desc : FieldDescriptor)
    (fn : keyFuncs) (wildMask : option msgMask) (keyedMasks : option (gmap keyT msgMask))
    (parent : Message) (src : gmap MapKey Message) (exists_ : bool) :
  (is_Some wildMask ∨ is_Some keyedMasks) →
  msgMap_update_spec sch s desc fn wildMask keyedMasks parent src exists_.
Proof.
  intros Hincomplete. unfold msgMap_update_spec. cbv zeta.
  destruct (msgMap_update_loops sch s desc fn wildMask keyedMasks parent src exists_
              Hincomplete) as (pruned & updated & Heq & Hpruned & Hupdated).
  exists pruned, updated. split_and!; [done|..].
  - intros k m Hm%lookupMask_matches Hs. by rewrite Hpruned, Hm, Hs.
  - intros k [Hnone%lookupMask_matches_None|[sm Hs]]; rewrite Hpruned.
    + by rewrite Hnone.
    + rewrite Hs. by destruct (lookupMask fn wildMask keyedMasks k).
  - intros k m sm Hm%lookupMask_matches Hs. by rewrite Hupdated, Hpruned, Hm, Hs.
  - intros k [Hnone%lookupMask_matches_None|Hs]; rewrite Hupdated.
    + by rewrite Hnone.
    + rewrite Hs. by destruct (lookupMask fn wildMask keyedMasks k).
  - intros k Hnone%lookupMask_matches_None. by rewrite Hupdated, Hpruned, Hnone.
  - intros k m Hm%lookupMask_matches Hs. by rewrite Hupdated, Hpruned, Hm, Hs.
Qed.

(** C6.  Through a map mask that is not complete, with a source map that
    is present, update first removes the destination entries whose key
    matches a keyed or the wild sub-mask and is absent from the source,
    then writes (scalar values) or updates in place, through the sub-mask
    the key matches (record values), the source entries whose key
    matches a sub-mask; entries whose key matches no sub-mask stay as
    they are.  With the mask [m.k1], the destination [m = {k1:1, k2:2}]
    and the source [m = {k2:9}] the result is [m = {k2:2}].  On the map
    of records [{foo: {1, f}, bar: {2, b}}] of the test schema, a keyed
    sub-mask for the number of [foo] takes the number from the source
    entry [foo: {7, x}] and lets [bar] and the source entry [new] be,
    and removes [foo] when the source has no [foo]; the wild sub-mask
    does the same to every key: it removes [bar], which the source does
    not have, and adds [new] with its number only. *)
Theorem map_update_selected_entries (sch : Schema) (s : settings)
    (desc : FieldDescriptor) (fn : keyFuncs) (parent : Message) (exists_ : bool) :
  (∀ keys src, scalarMap_update_spec sch s desc fn keys parent src exists_) ∧
  (∀ w keyedMasks src,
     msgMap_update_spec sch s desc fn (Some w) keyedMasks parent src exists_) ∧
  (∀ keyed src,
     msgMap_update_spec sch s desc fn None (Some keyed) parent src exists_) ∧
  (∃ fm,
     Parse scenarioSchema asciiEnv 8 scenarioMessage defaultSettings "m.k1" = Ok fm ∧
     Update scenarioSchema fm
       (Some (scenarioMsg
          [(field_m, mapOf [("k1", ValueOfInt 1); ("k2", ValueOfInt 2)])]))
       (Some (scenarioMsg [(field_m, mapOf [("k2", ValueOfInt 9)])]))
     = Some (scenarioMsg [(field_m, mapOf [("k2", ValueOfInt 2)])])) ∧
  (∃ fm,
     Parse testSchema asciiEnv 8 testMessage defaultSettings
       "map_string_message_field.foo.int32_field" = Ok fm ∧
     Update testSchema fm (Some fooBar)
       (Some (recordMap [("foo", simpleMsg 7 "x"); ("new", simpleMsg 9 "n")]))
     = Some (recordMap [("foo", simpleMsg 7 "f"); ("bar", simpleMsg 2 "b")]) ∧
     Update testSchema fm (Some fooBar) (Some (recordMap [("new", simpleMsg 9 "n")]))
     = Some (recordMap [("bar", simpleMsg 2 "b")])) ∧
  (∃ fm,
     Parse testSchema asciiEnv 8 testMessage defaultSettings
       "map_string_message_field.*.int32_field" = Ok fm ∧
     Update testSchema fm (Some fooBar)
       (Some (recordMap [("foo", simpleMsg 7 "x"); ("new", simpleMsg 9 "n")]))
     = Some (recordMap [("foo", simpleMsg 7 "f");
                        ("new", msgOf [(int32_field, ValueOfInt 9)] "")])).
Proof.
  split_and!.
  - intros. apply scalarMap_update_selected.
  - intros. apply msgMap_update_selected. left. eauto.
  - intros. apply msgMap_update_selected. right. eauto.
  - eexists. split; [vm_compute; reflexivity|]. vm_compute. reflexivity.
  - eexists. split_and!; [vm_compute; reflexivity|..]; vm_compute; reflexivity.
  - eexists. split; [vm_compute; reflexivity|]. vm_compute. reflexivity.
Qed.

(** ** A wildcard absorbs the keys of its map *)

Lemma is_empty_or_star_dot (seg x : string) :
  is_segment seg → is_empty_or_star (seg +:+ "." +:+ x) = false.
Proof.
  intros (c & t & -> & _)%is_segment_head. unfold is_empty_or_star.
  rewrite app_cons. apply orb_false_intro; [done|].
  apply String.eqb_neq. intros [= -> H]. by destruct t.
Qed.

Lemma is_empty_or_star_segment (seg : string) :
  is_segment seg → is_empty_or_star seg = false → seg ≠ "*".
Proof. intros _ H ->. done. Qed.

Lemma sortStrings_singleton {A} (x : string * A) : sortStrings [x] = [x].
Proof. reflexivity. Qed.

Section absorb.
Context (sch : Schema) (env : TextEnv) (s : settings).
Context (root name key_ : string) (fd : FieldDescriptor) (kind : Kind) (fn : keyFuncs).
Context (Hname : is_segment name).
Context (Hlookup : doLookupField (lookupField s) (sch root) name = Some (key_, fd)).
Context (Hmap : Card fd = MapOf kind) (Hfn : keyFuncsOf kind = Some fn).

#[local] Abbreviation rootWith fld :=
  (MkMsgMask root (Some (sch root)) (Some {[ key_ := fld ]})).

Lemma newFieldMask_map : newFieldMask fd = Ok (completeMapMask fd fn).
Proof.
  unfold newFieldMask, IsList, IsMap, newMapFieldMask, completeMapMask.
  rewrite Hmap, Hfn. by destruct (isMessage (ElemKind fd)).
Qed.

Lemma init_star_complete (fuel : nat) :
  fieldMask_init sch s env (S (S fuel)) (completeMapMask fd fn) "*"
  = (completeMapMask fd fn, Ok tt).
Proof.
  rewrite fieldMask_init_S. unfold completeMapMask.
  destruct (isMessage (ElemKind fd)); [|done]. by rewrite msgMap_add_S.
Qed.

Lemma append_on_complete_map (fuel : nat) (p : string) :
  fieldMask_append sch s env (S fuel) (completeMapMask fd fn) p
  = (completeMapMask fd fn, Ok tt).
Proof.
  rewrite fieldMask_append_S. unfold completeMapMask.
  by destruct (isMessage (ElemKind fd)).
Qed.

(** [init] with [name.*] *)
Lemma init_wild (fuel : nat) :
  msgMask_init sch s env (S (S (S fuel))) (newMsgMask sch root) (name +:+ "." +:+ "*")
  = (rootWith (completeMapMask fd fn), Ok tt).
Proof.
  rewrite msgMask_init_S, (is_empty_or_star_dot name "*" Hname).
  rewrite (nextSegment_dot name "*" Hname) by done.
  unfold or_return, msgMask_lookupField, newMsgMask. rewrite Hlookup, newFieldMask_map.
  by rewrite init_star_complete.
Qed.

(** [append] of any path under the field once it is complete *)
Lemma append_under_wild (fuel : nat) (x : string) :
  x ≠ "" →
  msgMask_append sch s env (S (S fuel)) (rootWith (completeMapMask fd fn))
    (name +:+ "." +:+ x)
  = (rootWith (completeMapMask fd fn), Ok tt).
Proof.
  intros Hx. rewrite msgMask_append_S, (is_empty_or_star_dot name x Hname).
  rewrite (nextSegment_dot name x Hname) by done.
  unfold or_return, msgMask_lookupField. rewrite Hlookup. simpl mm_fields. cbv iota beta.
  rewrite lookup_singleton_eq, append_on_complete_map. simpl.
  by rewrite insert_singleton_eq.
Qed.

(** [init] with [name.key], then [append] of [name.*] *)
Lemma init_key_then_wild (fuel : nat) (keytext : string) (k : keyT) :
  is_segment keytext → key fn keytext = Ok k →
  ∃ fld,
    msgMask_init sch s env (S (S (S (S fuel)))) (newMsgMask sch root)
      (name +:+ "." +:+ keytext) = (rootWith fld, Ok tt) ∧
    msgMask_append sch s env (S (S (S (S fuel)))) (rootWith fld) (name +:+ "." +:+ "*")
    = (rootWith (completeMapMask fd fn), Ok tt).
Proof.
  intros Hkeytext Hkey.
  assert (∃ fld,
    fieldMask_init sch s env (S (S (S fuel))) (completeMapMask fd fn) keytext = (fld, Ok tt)
    ∧ fieldMask_append sch s env (S (S (S fuel))) fld "*" = (completeMapMask fd fn, Ok tt))
    as (fld & Hinit & Happ).
  { rewrite fieldMask_init_S. unfold completeMapMask.
    destruct (isMessage (ElemKind fd)).
    - rewrite msgMap_add_S. unfold msgMap_add_body.
      destruct (is_empty_or_star keytext) eqn:Hstar.
      + eexists. split; [reflexivity|]. by rewrite fieldMask_append_S.
      + rewrite (nextSegment_last keytext Hkeytext). unfold or_return.
        assert (String.eqb keytext "*" = false) as ->.
        { apply String.eqb_neq. by apply is_empty_or_star_segment. }
        unfold msgMap_addKeyed, or_return. rewrite Hkey. simpl default.
        rewrite lookup_empty, msgMask_init_S. simpl is_empty_or_star. cbv iota beta.
        eexists. split; [reflexivity|].
        rewrite fieldMask_append_S, msgMap_add_S. done.
    - unfold scalarMap_add.
      destruct (is_empty_or_star keytext) eqn:Hstar.
      + eexists. split; [reflexivity|]. by rewrite fieldMask_append_S.
      + rewrite (nextSegment_last keytext Hkeytext). unfold or_return.
        assert (String.eqb keytext "*" = false) as ->.
        { apply String.eqb_neq. by apply is_empty_or_star_segment. }
        unfold scalarMap_addKeyed, or_return. rewrite Hkey.
        eexists. split; [reflexivity|]. by rewrite fieldMask_append_S. }
  exists fld. split.
  - rewrite msgMask_init_S, (is_empty_or_star_dot name keytext Hname).
    rewrite (nextSegment_dot name keytext Hname) by (by apply is_segment_nonempty).
    unfold or_return, msgMask_lookupField, newMsgMask. rewrite Hlookup, newFieldMask_map.
    by rewrite Hinit.
  - rewrite msgMask_append_S, (is_empty_or_star_dot name "*" Hname).
    rewrite (nextSegment_dot name "*" Hname) by done.
    unfold or_return, msgMask_lookupField. rewrite Hlookup. simpl mm_fields. cbv iota beta.
    rewrite lookup_singleton_eq, Happ. simpl. by rewrite insert_singleton_eq.
Qed.

Lemma Paths_complete_field (fm : FieldMask) :
  fm_msg fm = rootWith (completeMapMask fd fn) → Paths env fm = [key_].
Proof.
  intros Hmsg. unfold Paths. rewrite Hmsg. simpl msgMask_paths.
  rewrite map_fmap_singleton, map_to_list_singleton, sortStrings_singleton.
  assert (fieldMask_paths env (completeMapMask fd fn) = []) as ->.
  { unfold completeMapMask. by destruct (isMessage (ElemKind fd)). }
  done.
Qed.

End absorb.

Lemma Parse_loop_S (sch : Schema) (env : TextEnv) (count fuel : nat) (first : bool)
    (fm : FieldMask) (paths : string) :
  Parse_loop sch env (S count) fuel first fm paths
  = match nextPath paths with
    | Ok (path, rest) =>
        let apply := if first then msgMask_init else msgMask_append in
        match apply sch (fm_settings fm) env fuel (fm_msg fm) path with
        | (mm, Ok _) =>
            if String.eqb rest "" then Ok (with_msg fm mm)
            else Parse_loop sch env count fuel false (with_msg fm mm) rest
        | (_, Err e) => Err e
        | (_, Panic msg) => Panic msg
        | (_, OutOfFuel) => OutOfFuel
        end
    | Err e => Err e
    | Panic msg => Panic msg
    | OutOfFuel => OutOfFuel
    end.
Proof. reflexivity. Qed.

Lemma Parse_loop_last (sch : Schema) (env : TextEnv) (count fuel : nat) (first : bool)
    (fm : FieldMask) (paths path : string) (mm : msgMask) :
  nextPath paths = Ok (path, "") →
  (if first then msgMask_init else msgMask_append)
    sch (fm_settings fm) env fuel (fm_msg fm) path = (mm, Ok tt) →
  Parse_loop sch env (S count) fuel first fm paths = Ok (with_msg fm mm).
Proof. intros Hnext Happly. rewrite Parse_loop_S, Hnext. cbv zeta. by rewrite Happly. Qed.

Lemma Parse_loop_more (sch : Schema) (env : TextEnv) (count fuel : nat) (first : bool)
    (fm : FieldMask) (paths path rest : string) (mm : msgMask) :
  nextPath paths = Ok (path, rest) → rest ≠ "" →
  (if first then msgMask_init else msgMask_append)
    sch (fm_settings fm) env fuel (fm_msg fm) path = (mm, Ok tt) →
  Parse_loop sch env (S count) fuel first fm paths
  = Parse_loop sch env count fuel false (with_msg fm mm) rest.
Proof.
  intros Hnext Hrest%String.eqb_neq Happly. rewrite Parse_loop_S, Hnext. cbv zeta.
  by rewrite Happly, Hrest.
Qed.

Lemma nextPath_last (path : string) :
  is_chain path → nextPath path = Ok (path, "").
Proof. intros Hch. apply nextPath_Ok_iff. split; [done|]. by left. Qed.

Lemma nextPath_comma (path rest : string) :
  is_chain path → rest ≠ "" → nextPath (path +:+ "," +:+ rest) = Ok (path, rest).
Proof. intros Hch Hrest. apply nextPath_Ok_iff. split; [done|]. by right. Qed.

Lemma is_chain_two (a b : string) :
  is_segment a → is_segment b → is_chain (a +:+ "." +:+ b).
Proof. intros Ha Hb. apply chain_dot; [done|]. by apply chain_last. Qed.

(** C5.  For a map field [name] and a key text the field's codec
    parses, the paths [name.*], [name.*,name.key] and [name.key,name.*]
    parse to one and the same mask, whose [Paths] is the field alone: the
    wildcard absorbs the key in either order.  The recursion budget has
    to cover the four calls the deepest of these parses nests. *)
Theorem wildcard_absorbs_key (sch : Schema) (env : TextEnv) (s : settings)
    (root name key_ : string) (fd : FieldDescriptor) (kind : Kind) (fn : keyFuncs)
    (keytext : string) (k : keyT) (fuel : nat) :
  is_segment name →
  doLookupField (lookupField s) (sch root) name = Some (key_, fd) →
  Card fd = MapOf kind → keyFuncsOf kind = Some fn →
  is_segment keytext → key fn keytext = Ok k →
  ∃ fm,
    Parse sch env (4 + fuel) root s (name +:+ ".*") = Ok fm ∧
    Parse sch env (4 + fuel) root s (name +:+ ".*," +:+ name +:+ "." +:+ keytext) = Ok fm ∧
    Parse sch env (4 + fuel) root s (name +:+ "." +:+ keytext +:+ "," +:+ name +:+ ".*") = Ok fm ∧
    Paths env fm = [key_] ∧
    fm_msg fm = MkMsgMask root (Some (sch root)) (Some {[ key_ := completeMapMask fd fn ]}).
Proof.
  intros Hname Hlookup Hmap Hfn Hkeytext Hkey.
  assert (name +:+ ".*," +:+ name +:+ "." +:+ keytext
          = (name +:+ "." +:+ "*") +:+ "," +:+ name +:+ "." +:+ keytext) as ->
    by (by rewrite !app_assoc).
  assert (name +:+ "." +:+ keytext +:+ "," +:+ name +:+ ".*"
          = (name +:+ "." +:+ keytext) +:+ "," +:+ name +:+ "." +:+ "*") as ->
    by (by rewrite !app_assoc).
  change (name +:+ ".*") with (name +:+ "." +:+ "*").
  set (wild := name +:+ "." +:+ "*"). set (keyed := name +:+ "." +:+ keytext).
  assert (is_chain wild) as Hwild by (by apply is_chain_two; [|constructor]).
  assert (is_chain keyed) as Hkeyed by (by apply is_chain_two).
  assert (wild ≠ "" ∧ keyed ≠ "") as [Hwild' Hkeyed']
    by (by split; apply is_chain_nonempty).
  apply String.eqb_neq in Hwild' as Hw, Hkeyed' as Hk.
  pose proof (init_wild sch env s root name key_ fd kind fn Hname Hlookup Hmap Hfn (S fuel))
    as Hinit_wild.
  fold wild in Hinit_wild.
  exists (with_msg (newFieldMaskT sch root s)
            (MkMsgMask root (Some (sch root)) (Some {[ key_ := completeMapMask fd fn ]}))).
  change (4 + fuel) with (S (S (S (S fuel)))). unfold Parse. split_and!.
  - by apply (Parse_loop_last _ _ _ _ _ _ wild wild); [apply nextPath_last|].
  - erewrite (Parse_loop_more _ _ _ _ _ _ _ wild keyed);
      [|by apply nextPath_comma|done|exact Hinit_wild].
    erewrite (Parse_loop_last _ _ _ _ false _ keyed keyed); [done|by apply nextPath_last|].
    apply (append_under_wild sch env s root name key_ fd fn Hname Hlookup).
    by apply is_segment_nonempty.
  - destruct (init_key_then_wild sch env s root name key_ fd kind fn
                Hname Hlookup Hmap Hfn fuel keytext k Hkeytext Hkey)
      as (fld & Hinit & Happ).
    erewrite (Parse_loop_more _ _ _ _ _ _ _ keyed wild);
      [|by apply nextPath_comma|done|exact Hinit].
    by erewrite (Parse_loop_last _ _ _ _ false _ wild wild); [|by apply nextPath_last|].
  - by eapply Paths_complete_field.
  - done.
Qed.

Lemma wildcard_absorbs_key_witness :
  ∃ fm,
    Parse testSchema asciiEnv 4 testMessage defaultSettings
      "map_string_message_field.*" = Ok fm ∧
    Parse testSchema asciiEnv 4 testMessage defaultSettings
      "map_string_message_field.*,map_string_message_field.foo" = Ok fm ∧
    Parse testSchema asciiEnv 4 testMessage defaultSettings
      "map_string_message_field.foo,map_string_message_field.*" = Ok fm ∧
    Paths asciiEnv fm = ["map_string_message_field"] ∧
    fm_msg fm = MkMsgMask testMessage (Some (testSchema testMessage))
                  (Some {[ "map_string_message_field" :=
                             completeMapMask map_string_message_field stringKeyFuncs ]}).
Proof.
  apply (wildcard_absorbs_key testSchema asciiEnv defaultSettings testMessage
           "map_string_message_field" "map_string_message_field"
           map_string_message_field StringKind stringKeyFuncs "foo" (TString "foo") 0).
  - apply (seg_ident "m" "ap_string_message_field"); [reflexivity|discriminate..|reflexivity].
  - reflexivity.
  - reflexivity.
  - reflexivity.
  - apply (seg_ident "f" "oo"); [reflexivity|discriminate..|reflexivity].
  - reflexivity.
Defined.

(** The same with the keys of the other codecs. *)
Example int32_key_absorbed :
  PathsOf asciiEnv (Parse testSchema asciiEnv 4 testMessage defaultSettings
    "map_int32_string_field.-45,map_int32_string_field.*")
  = Ok ["map_int32_string_field"].
Proof. vm_compute. reflexivity. Qed.

Example bool_key_absorbed :
  PathsOf asciiEnv (Parse testSchema asciiEnv 4 testMessage defaultSettings
    "map_bool_string_field.*,map_bool_string_field.true")
  = Ok ["map_bool_string_field"].
Proof. vm_compute. reflexivity. Qed.

(** Keys come out of [Paths] in the order of their codec. *)
Example int32_keys_sorted :
  PathsOf asciiEnv (Parse testSchema asciiEnv 4 testMessage defaultSettings
    "map_int32_string_field.11,map_int32_string_field.2,map_int32_string_field.-45")
  = Ok ["map_int32_string_field.-45"; "map_int32_string_field.2";
        "map_int32_string_field.11"].
Proof. vm_compute. reflexivity. Qed.

(** ** The complete mask and the generic routines *)

Lemma map_fixed {A} (f : A → A) (l : list A) :
  (∀ x, x ∈ l → f x = x) → map f l = l.
Proof.
  induction l as [|x l IH]; [done|]. intros H. simpl. f_equal.
  - apply H. by left.
  - apply IH. intros y Hy. apply H. by right.
Qed.

Lemma fmap_fixed {A} (f : A → A) (m : gmap MapKey A) :
  (∀ k x, m !! k = Some x → f x = x) → f <$> m = m.
Proof.
  intros H. apply map_eq. intros k. rewrite lookup_fmap.
  destruct (m !! k) as [x|] eqn:Hk; [|done]. simpl. f_equal. by eapply H.
Qed.

Lemma cloneBytesValue_id (v : Value) : cloneBytesValue v = v.
Proof. by destruct v. Qed.

Lemma populated_map (m : gmap MapKey Value) : m ≠ ∅ → populated (ValueOfMap m) = true.
Proof. intros H. simpl. by rewrite bool_decide_eq_false_2. Qed.

Lemma populated_list (l : list Value) : l ≠ [] → populated (ValueOfList l) = true.
Proof. by destruct l. Qed.

Lemma copyMessage_eq (s : settings) (dst : Message) (desc : string)
    (fields : gmap Z (FieldDescriptor * Value)) (unknown : string) :
  copyMessage s dst (MkMessage desc fields unknown)
  = let dst :=
      WithFields dst
        (merge (λ sv dv,
                  match sv with
                  | Some (fd, val) => copyField s (copyMessage s) fd val dv
                  | None => dv
                  end) fields (Fields dst)) in
    if retainsUnknowns s then SetUnknown dst (copyBytes unknown) else dst.
Proof. reflexivity. Qed.

(** The generic copy of a record in which there is nothing to drop is
    the record. *)
Lemma copyMessage_fully_retained (s : settings) (m : Message) :
  fully_retained s m → copyMessage s (New m) m = m.
Proof.
  induction 1 as [desc fields unknown Hunknown Hfields _ IH].
  rewrite copyMessage_eq. unfold New, NewMessage. simpl Descriptor. simpl Fields.
  rewrite merge_empty_r. cbv zeta.
  assert (omap (flip (λ sv dv,
                  match sv with
                  | Some (fd, val) => copyField s (copyMessage s) fd val dv
                  | None => dv
                  end) None ∘ Some) fields = fields) as ->.
  { apply map_eq. intros num. rewrite lookup_omap.
    destruct (fields !! num) as [[fd v]|] eqn:Hnum; [|done]. simpl.
    destruct (Hfields num fd v Hnum) as [Hallow Hfits].
    specialize (IH num fd v).
    unfold copyField. rewrite Hallow. simpl negb. cbv iota.
    unfold fits in Hfits. unfold IsList, IsMap.
    destruct (Card fd) as [| |kind].
    - destruct (ElemMessage fd) as [name|].
      + destruct Hfits as (m & -> & Hdesc). simpl.
        assert (copyMessage s (NewMessage name) m = m) as ->; [|done].
        rewrite <- Hdesc. by apply IH.
      + rewrite cloneBytesValue_id. unfold store.
        destruct v; try done; by destruct (isBytesKind (ElemKind fd)).
    - destruct v as [| | | | |l|]; try done. destruct Hfits as [Hne Helems].
      assert (copyList_body (copyMessage s) [] l fd = l) as Hcopy.
      { unfold copyList_body. destruct (ElemMessage fd) as [name|].
        - simpl. apply map_fixed. intros x Hx.
          destruct (Helems x Hx) as (m & -> & Hdesc). simpl. f_equal.
          rewrite <- Hdesc. by apply (IH m).
        - destruct (isBytesKind (ElemKind fd)); [|done]. simpl.
          apply map_fixed. intros. apply cloneBytesValue_id. }
      change (asList (snd <$> None)) with (@nil Value). rewrite Hcopy.
      unfold store. by rewrite populated_list.
    - destruct v as [| | | | | |mp]; try done. destruct Hfits as [Hne Helems].
      assert (copyMap_body (copyMessage s) ∅ mp fd = mp) as Hcopy.
      { unfold copyMap_body. destruct (ElemMessage fd) as [name|].
        - rewrite (right_id_L ∅ (∪)). apply fmap_fixed. intros k x Hk.
          destruct (Helems k x Hk) as (m & -> & Hdesc). simpl. f_equal.
          rewrite <- Hdesc. apply (IH m); [done|]. by exists k.
        - destruct (isBytesKind (ElemKind fd)); rewrite (right_id_L ∅ (∪)); [|done].
          apply fmap_fixed. intros. apply cloneBytesValue_id. }
      change (asMap (snd <$> None)) with (∅ : gmap MapKey Value). rewrite Hcopy.
      unfold store. by rewrite populated_map. }
  destruct (retainsUnknowns s) eqn:Hretain; [done|].
  by rewrite Hunknown.
Qed.

(** C2, as the specification states it, fails: with the mask [*] and
    the default settings, what [Mask] leaves of a record with unknown bytes
    is not what the generic copy returns for it. *)
Lemma complete_Mask_is_not_the_generic_copy :
  Mask (newFieldMaskT testSchema testMessage defaultSettings) (Some withUnknown)
  ≠ Some (copyMessage defaultSettings (New withUnknown) withUnknown).
Proof.
  intros H. apply (f_equal (λ m, GetUnknown <$> m)) in H. vm_compute in H. discriminate.
Qed.

(** C2 (amended).  The mask of [*] is the mask of the empty path list.
    With it, under every settings combination, [Clone] returns what the
    generic copy returns and [Update] does what the generic update does
    (and so does every record mask in the complete state); and on a
    record in which the settings find nothing to drop, [Mask] leaves the
    record as it is, which is also what the generic copy returns. *)
Theorem complete_mask_is_generic (sch : Schema) (env : TextEnv) (s : settings)
    (root : string) (fuel : nat) :
  let fm := newFieldMaskT sch root s in
  Parse sch env (S fuel) root s "*" = Ok fm ∧
  NewFieldMask sch env fuel root s [] = Ok fm ∧
  (∀ r, Clone fm (Some r) = Some (copyMessage s (New r) r)) ∧
  (∀ dst src, Update sch fm (Some dst) (Some src) = Some (updateMessage sch s dst src)) ∧
  (∀ mm r dst src, msgMask_complete mm = true →
     msgMask_clone s mm r = copyMessage s (New r) r ∧
     msgMask_update sch s mm dst src = updateMessage sch s dst src) ∧
  (∀ r, fully_retained s r →
     Mask fm (Some r) = Some r ∧
     Mask fm (Some r) = Some (copyMessage s (New r) r) ∧
     Mask fm (Some r) = Clone fm (Some r)).
Proof.
  split_and!; try done.
  - intros [desc fds [fields|]] r dst src Hcomplete; [done|]. done.
  - intros r Hr. simpl. by rewrite (copyMessage_fully_retained s r Hr).
Qed.

(** The records of the examples are of the kind the last part speaks of. *)
Lemma simpleMsg_fully_retained (i : Z) (str : string) :
  fully_retained defaultSettings (simpleMsg i str).
Proof.
  unfold simpleMsg, msgOf. simpl. constructor; [done|..].
  - intros num fd v [[<- [= <- <-]]|[_ H]]%lookup_insert_Some; [done|].
    apply lookup_insert_Some in H as [[<- [= <- <-]]|[_ H]]; [done|].
    by rewrite lookup_empty in H.
  - intros num fd v m [[<- [= <- <-]]|[_ H]]%lookup_insert_Some; [done|].
    apply lookup_insert_Some in H as [[<- [= <- <-]]|[_ H]]; [done|].
    by rewrite lookup_empty in H.
Qed.

Lemma fooBar_fully_retained : fully_retained defaultSettings fooBar.
Proof.
  unfold fooBar, msgOf, mapOf. simpl. constructor; [done|..].
  - intros num fd v [[<- [= <- <-]]|[_ H]]%lookup_insert_Some.
    2:{ by rewrite lookup_empty in H. }
    split; [done|]. split; [apply insert_non_empty|].
    intros k x [[<- <-]|[_ H]]%lookup_insert_Some; [by eexists|].
    apply lookup_insert_Some in H as [[<- <-]|[_ H]]; [by eexists|].
    by rewrite lookup_empty in H.
  - intros num fd v m [[<- [= <- <-]]|[_ H]]%lookup_insert_Some.
    2:{ by rewrite lookup_empty in H. }
    intros [k [[<- [= <-]]|[_ H]]%lookup_insert_Some]; [apply simpleMsg_fully_retained|].
    apply lookup_insert_Some in H as [[<- [= <-]]|[_ H]]; [apply simpleMsg_fully_retained|].
    by rewrite lookup_empty in H.
Qed.

Example complete_Mask_Clone_agree_on_fooBar :
  Mask (newFieldMaskT testSchema testMessage defaultSettings) (Some fooBar)
  = Clone (newFieldMaskT testSchema testMessage defaultSettings) (Some fooBar).
Proof.
  change (Some fooBar = Some (copyMessage defaultSettings (New fooBar) fooBar)).
  by rewrite (copyMessage_fully_retained _ _ fooBar_fully_retained).
Qed.

(** ** More on the tokenizer and the segment reader *)

(** X1.  [nextToken] splits its input into a first token of at least one byte
    and the rest, without losing a byte, and it fails only on the empty
    input and on a backtick that is never closed. *)
Theorem nextToken_splits (s : string) :
  (∀ tok rest, nextToken s = Ok (tok, rest) →
     s = tok +:+ rest ∧ tok ≠ "" ∧ String.length rest < String.length s) ∧
  (∀ e, nextToken s = Err e ↔
     e = errSyntax ∧ (s = "" ∨ ∃ body, s = "`" +:+ body ∧ str_mem "`" body = false)) ∧
  (∀ msg, nextToken s ≠ Panic msg) ∧ nextToken s ≠ OutOfFuel.
Proof.
  split_and!.
  - intros tok rest H. pose proof (nextToken_sound _ _ _ H) as [Hs Htok].
    split_and!; [done| |by eapply nextToken_shrinks].
    destruct Htok as [->| [->|Hseg]]; [done..|by apply is_segment_nonempty].
  - intros e. split.
    + intros H. destruct (nextToken_total s) as [(tok & rest & H')|H']; [congruence|].
      rewrite H' in H. injection H as <-. split; [done|]. by apply nextToken_Err.
    + intros [-> [->|(body & -> & Hbody)]]; [done|].
      rewrite app_cons, app_nil_l, nextToken_backtick. unfold QuotedPrefix.
      by rewrite (IndexByte_None _ _ Hbody).
  - intros msg H. destruct (nextToken_total s) as [(tok & rest & H')|H']; congruence.
  - intros H. destruct (nextToken_total s) as [(tok & rest & H')|H']; congruence.
Qed.

(** X2.  [nextSegment] succeeds exactly on a segment that ends the input or
    is followed by a dot and a non-empty rest, and returns the segment and
    what follows the dot: it undoes [joinPath] of a segment and a sub-path
    that is not empty. *)
Theorem nextSegment_Ok_iff (s seg rest : string) :
  nextSegment s = Ok (seg, rest) ↔
  is_segment seg ∧ ((rest = "" ∧ s = seg) ∨ (rest ≠ "" ∧ s = joinPath seg rest)).
Proof.
  split; [apply nextSegment_sound|].
  intros [Hseg [[-> ->]|[Hrest ->]]]; [by apply nextSegment_last|by apply nextSegment_dot].
Qed.

(** X3.  What [nextPath] hands out, [nextSegment] can split: the path it
    returns starts with a segment, and what is left of the path after
    that segment is empty or again a whole path for [nextPath]. *)
Theorem nextPath_then_nextSegment (s path rest : string) :
  nextPath s = Ok (path, rest) →
  ∃ seg sub,
    nextSegment path = Ok (seg, sub) ∧ is_segment seg ∧
    (sub = "" ∨ nextPath sub = Ok (sub, "")).
Proof.
  intros [Hchain _]%nextPath_Ok_iff. destruct Hchain as [seg Hseg|seg p Hseg Hp].
  - exists seg, "". split_and!; [by apply nextSegment_last|done|by left].
  - exists seg, p. split_and!; [|done|right; by apply nextPath_last].
    apply nextSegment_dot; [done|by apply is_chain_nonempty].
Qed.

Lemma nextPath_then_nextSegment_witness :
  ∃ seg sub,
    nextSegment "a.`b.c`.*" = Ok (seg, sub) ∧ is_segment seg ∧
    (sub = "" ∨ nextPath sub = Ok (sub, "")).
Proof.
  apply (nextPath_then_nextSegment "a.`b.c`.*,d" "a.`b.c`.*" "d"). reflexivity.
Defined.

(** ** Quoting and the tokenizer *)

Lemma code_eqb (c d : ascii) :
  (Z.of_nat (nat_of_ascii c) =? Z.of_nat (nat_of_ascii d))%Z = Ascii.eqb c d.
Proof.
  destruct (Ascii.eqb_spec c d) as [->|Hne].
  - apply Z.eqb_refl.
  - apply Z.eqb_neq. intros H%Nat2Z.inj. apply Hne.
    by rewrite <- (ascii_nat_embedding c), <- (ascii_nat_embedding d), H.
Qed.

Lemma shouldQuote_loop_cons (env : TextEnv) (c : ascii) (s : string) :
  (Z.of_nat (nat_of_ascii c) <? RuneSelf)%Z = true →
  shouldQuote_loop env 0 (String c s)
  = let r := Z.of_nat (nat_of_ascii c) in
    if (Ascii.eqb c "." || Ascii.eqb c "," || Ascii.eqb c "`")%bool then true
    else if (IsControl env r || negb (IsPrint env r))%bool then true
    else shouldQuote_loop env 0 s.
Proof.
  intros Hlt. cbn [shouldQuote_loop].
  assert ((RuneSelf <=? Z.of_nat (nat_of_ascii c))%Z = false) as ->
    by (apply Z.leb_gt; by apply Z.ltb_lt).
  cbn [andb]. rewrite <- !code_eqb. reflexivity.
Qed.

Lemma shouldQuote_loop_plain (env : TextEnv) (s : string) :
  all_ascii s = true → shouldQuote_loop env 0 s = false →
  has_delim s = false ∧ str_mem "`" s = false.
Proof.
  induction s as [|c s IH]; [done|].
  intros [Hc Hs]%andb_prop. rewrite (shouldQuote_loop_cons _ _ _ Hc). cbn zeta.
  destruct (Ascii.eqb c ".") eqn:Hdot; [done|].
  destruct (Ascii.eqb c ",") eqn:Hcomma; [done|].
  destruct (Ascii.eqb c "`") eqn:Htick; [done|]. cbn [orb].
  destruct (IsControl env _ || negb (IsPrint env _))%bool; [done|].
  intros Hloop. destruct (IH Hs Hloop) as [Hd Hq].
  cbn [has_delim str_mem]. unfold is_delim. rewrite Hdot, Hcomma, Hd, Hq.
  split; [done|]. by rewrite Ascii.eqb_sym, Htick.
Qed.

(** X4.  [maybeQuote] against the tokenizer, on ASCII text.  A segment that
    [shouldQuote] lets pass is returned as it is, and [nextSegment] reads
    it back whole unless it starts with [*]: [shouldQuote] asks to quote
    the lone [*] only, while [nextToken] cuts every leading [*] off, so a
    longer segment that starts with [*] goes out unquoted and is a
    syntax error when it is read back. *)
Theorem unquoted_segment_reads_back (env : TextEnv) (s : string) :
  all_ascii s = true → shouldQuote env s = false →
  maybeQuote env s = s ∧
  ((∀ t, s ≠ "*" +:+ t) → nextSegment s = Ok (s, "")) ∧
  (∀ t, s = "*" +:+ t → nextSegment s = Err errSyntax).
Proof.
  intros Hascii Hquote. split; [unfold maybeQuote; by rewrite Hquote|].
  unfold shouldQuote in Hquote.
  destruct (String.eqb s "") eqn:Hempty; [done|].
  destruct (String.eqb s "*") eqn:Hstar; [done|]. cbn [orb] in Hquote.
  apply eqb_false_iff in Hempty, Hstar.
  destruct (shouldQuote_loop_plain env s Hascii Hquote) as [Hdelim Htick].
  destruct s as [|c s]; [done|]. cbn [has_delim str_mem] in Hdelim, Htick.
  apply orb_false_elim in Hdelim as [Hc Hdelim], Htick as [Hc' Htick].
  split.
  - intros Hnostar. apply nextSegment_last. apply seg_ident; [done| | |done].
    + intros ->. by apply (Hnostar s).
    + intros ->. done.
  - intros t Heq. rewrite app_cons, app_nil_l in Heq. injection Heq as -> ->.
    destruct t as [|d t]; [done|].
    cbn [has_delim] in Hdelim. apply orb_false_elim in Hdelim as [Hd Hdelim].
    unfold nextSegment. change (String "*" (String d t)) with ("*" +:+ String d t).
    rewrite nextToken_star. cbn [String.eqb Ascii.eqb Bool.eqb orb].
    destruct (nextToken (String d t)) as [[tok rest]| | |] eqn:Htok; [|done..].
    destruct (String.eqb tok ".") eqn:Hdot; [|done].
    apply String.eqb_eq in Hdot as ->.
    apply nextToken_sound in Htok as [Heq _]. injection Heq as -> _. done.
Qed.

Lemma unquoted_segment_reads_back_witness :
  maybeQuote asciiEnv "*a" = "*a" ∧
  ((∀ t, "*a" ≠ "*" +:+ t) → nextSegment "*a" = Ok ("*a", "")) ∧
  (∀ t, "*a" = "*" +:+ t → nextSegment "*a" = Err errSyntax).
Proof.
  apply (unquoted_segment_reads_back asciiEnv "*a"); reflexivity.
Defined.

(** ** The key codecs *)

Lemma parseDigits_app (a b : string) (acc : Z) :
  parseDigits (a +:+ b) acc
  = match parseDigits a acc with
    | Some v => parseDigits b v
    | None => None
    end.
Proof.
  revert acc. induction a as [|c a IH]; intros acc; [by rewrite app_nil_l|].
  rewrite app_cons. cbn [parseDigits]. destruct (is_digit c); [apply IH|done].
Qed.

Lemma parseDigits_nonneg (s : string) : ∀ acc v,
  (0 ≤ acc)%Z → parseDigits s acc = Some v → (0 ≤ v)%Z.
Proof.
  induction s as [|c s IH]; intros acc v Hacc; cbn [parseDigits].
  - intros [= <-]. done.
  - destruct (is_digit c) eqn:Hc; [|done]. apply IH.
    unfold is_digit in Hc. apply andb_prop in Hc as [Hlo _].
    apply Nat.leb_le in Hlo. lia.
Qed.

Lemma pretty_N_char_digit (d : N) :
  (d < 10)%N →
  is_digit (pretty_N_char d) = true ∧
  (Z.of_nat (nat_of_ascii (pretty_N_char d)) - 48)%Z = Z.of_N d.
Proof.
  intros Hd.
  assert (d = 0 ∨ d = 1 ∨ d = 2 ∨ d = 3 ∨ d = 4 ∨ d = 5 ∨ d = 6 ∨ d = 7 ∨ d = 8 ∨ d = 9)%N
    as Hcases by lia.
  repeat (destruct Hcases as [->|Hcases]; [done|]). by subst d.
Qed.

Lemma pretty_N_go_app (x : N) : ∀ s, pretty_N_go x s = pretty_N_go x "" +:+ s.
Proof.
  induction (N.lt_wf_0 x) as [x _ IH]; intros s.
  assert (x = 0 ∨ 0 < x)%N as [->|Hx] by lia; [by rewrite !pretty_N_go_0, app_nil_l|].
  assert (x `div` 10 < x)%N as Hdiv by (by apply N.div_lt).
  rewrite !(pretty_N_go_step x) by done.
  rewrite (IH _ Hdiv (String _ s)), (IH _ Hdiv (String _ "")).
  by rewrite app_assoc, app_cons, app_nil_l.
Qed.

Lemma parseDigits_pretty_go (x : N) :
  parseDigits (pretty_N_go x "") 0 = Some (Z.of_N x).
Proof.
  induction (N.lt_wf_0 x) as [x _ IH].
  assert (x = 0 ∨ 0 < x)%N as [->|Hx] by lia; [done|].
  rewrite pretty_N_go_step, pretty_N_go_app, parseDigits_app by done.
  rewrite IH by (by apply N.div_lt). cbn [parseDigits].
  destruct (pretty_N_char_digit (x `mod` 10)%N) as [-> ->]; [by apply N.mod_lt|].
  f_equal. rewrite (N.div_mod x 10) at 3 by done. lia.
Qed.

Lemma pretty_N_go_starts_digit (x : N) : ∀ s,
  (0 < x)%N ∨ starts_digit s = true → starts_digit (pretty_N_go x s) = true.
Proof.
  induction (N.lt_wf_0 x) as [x _ IH]; intros s Hs.
  assert (x = 0 ∨ 0 < x)%N as [->|Hx] by lia.
  - rewrite pretty_N_go_0. by destruct Hs as [?|?]; [lia|].
  - rewrite pretty_N_go_step by done. apply IH; [by apply N.div_lt|]. right.
    cbn [starts_digit]. apply pretty_N_char_digit. by apply N.mod_lt.
Qed.

(** The decimal text of a number that is not negative: digits only, a
    digit first, and [parseDigits] reads the number back. *)
Lemma pretty_nonneg (z : Z) :
  (0 ≤ z)%Z →
  starts_digit (pretty z) = true ∧ parseDigits (pretty z) 0 = Some z.
Proof.
  intros Hz. destruct z as [|p|p]; [done| |lia].
  unfold pretty, pretty_Z, pretty, pretty_positive, pretty, pretty_N.
  rewrite decide_False by done. split.
  - apply pretty_N_go_starts_digit. left. lia.
  - by rewrite parseDigits_pretty_go.
Qed.

Lemma pretty_neg (p : positive) : pretty (Z.neg p) = "-" +:+ pretty (Z.pos p).
Proof. reflexivity. Qed.

Lemma starts_digit_inv (s : string) :
  starts_digit s = true →
  ∃ c s', s = String c s' ∧ Ascii.eqb c "+" = false ∧ Ascii.eqb c "-" = false.
Proof.
  destruct s as [|c s']; [done|]. intros Hc. exists c, s'. split; [done|].
  cbn [starts_digit] in Hc.
  split; apply Ascii.eqb_neq; intros ->; by vm_compute in Hc.
Qed.

Lemma ParseUint_pretty (z bitSize : Z) :
  (0 ≤ z < 2 ^ bitSize)%Z → ParseUint (pretty z) bitSize = Some z.
Proof.
  intros [Hlo Hhi]. destruct (pretty_nonneg z Hlo) as [Hdigit Hparse].
  destruct (starts_digit_inv _ Hdigit) as (c & s' & Heq & _).
  unfold ParseUint. rewrite Hparse, Heq. cbn [String.eqb].
  by rewrite (proj2 (Z.ltb_lt _ _) Hhi).
Qed.

Lemma ParseInt_pretty (z bitSize : Z) :
  (- 2 ^ (bitSize - 1) ≤ z < 2 ^ (bitSize - 1))%Z → ParseInt (pretty z) bitSize = Some z.
Proof.
  intros [Hlo Hhi]. destruct (Z_lt_le_dec z 0) as [Hneg|Hpos].
  - destruct z as [|p|p]; [lia..|]. rewrite pretty_neg, app_cons, app_nil_l.
    destruct (pretty_nonneg (Z.pos p)) as [Hdigit Hparse]; [lia|].
    destruct (starts_digit_inv _ Hdigit) as (c & s' & Heq & _).
    unfold ParseInt. cbn [Ascii.eqb Bool.eqb]. rewrite Hparse, Heq. cbn [String.eqb].
    rewrite (proj2 (Z.leb_le _ _)) by lia. done.
  - destruct (pretty_nonneg z Hpos) as [Hdigit Hparse].
    destruct (starts_digit_inv _ Hdigit) as (c & s' & Heq & Hplus & Hminus).
    unfold ParseInt. rewrite Heq, Hplus, Hminus, <- Heq, Hparse. rewrite Heq at 1.
    cbn [String.eqb]. by rewrite (proj2 (Z.ltb_lt _ _) Hhi).
Qed.

Lemma ParseUint_range (s : string) (bitSize v : Z) :
  ParseUint s bitSize = Some v → (0 ≤ v < 2 ^ bitSize)%Z.
Proof.
  unfold ParseUint. destruct (String.eqb s ""); [done|].
  destruct (parseDigits s 0) as [u|] eqn:Hparse; [|done].
  destruct (u <? 2 ^ bitSize)%Z eqn:Hlt; [|done]. intros [= <-].
  split; [by eapply parseDigits_nonneg|by apply Z.ltb_lt].
Qed.

Lemma ParseInt_range (s : string) (bitSize v : Z) :
  (1 ≤ bitSize)%Z →
  ParseInt s bitSize = Some v → (- 2 ^ (bitSize - 1) ≤ v < 2 ^ (bitSize - 1))%Z.
Proof.
  intros Hsize. unfold ParseInt. destruct s as [|c s']; [done|].
  destruct (if Ascii.eqb c "+" then (false, s')
            else if Ascii.eqb c "-" then (true, s') else (false, String c s'))
    as [neg digits].
  destruct (String.eqb digits ""); [done|].
  destruct (parseDigits digits 0) as [un|] eqn:Hparse; [|done].
  apply parseDigits_nonneg in Hparse; [|done].
  assert (0 < 2 ^ (bitSize - 1))%Z as Hpow by (apply Z.pow_pos_nonneg; lia).
  destruct neg.
  - destruct (un <=? 2 ^ (bitSize - 1))%Z eqn:Hle; [|done]. intros [= <-].
    apply Z.leb_le in Hle. lia.
  - destruct (un <? 2 ^ (bitSize - 1))%Z eqn:Hlt; [|done]. intros [= <-].
    apply Z.ltb_lt in Hlt. lia.
Qed.

Lemma to_int32_id (z : Z) : (- 2 ^ 31 ≤ z < 2 ^ 31)%Z → to_int32 z = z.
Proof. intros Hz. unfold to_int32. rewrite Z.mod_small; lia. Qed.

Lemma to_uint32_id (z : Z) : (0 ≤ z < 2 ^ 32)%Z → to_uint32 z = z.
Proof. intros Hz. unfold to_uint32. by rewrite Z.mod_small. Qed.

Lemma to_int32_range (z : Z) : (- 2 ^ 31 ≤ to_int32 z < 2 ^ 31)%Z.
Proof.
  unfold to_int32. pose proof (Z.mod_pos_bound (z + 2 ^ 31) (2 ^ 32)) as H. lia.
Qed.

Lemma to_uint32_range (z : Z) : (0 ≤ to_uint32 z < 2 ^ 32)%Z.
Proof. unfold to_uint32. apply Z.mod_pos_bound. lia. Qed.

Lemma key_Ok (fn : keyFuncs) (s : string) (k : keyT) :
  key fn s = Ok k → ∃ s', parse fn s' = Some k.
Proof.
  unfold key. destruct (HasPrefix_backtick s).
  - destruct (Unquote s) as [s'|]; [|done].
    destruct (parse fn s') as [k'|] eqn:Hparse; [|done]. intros [= <-]. by exists s'.
  - destruct (parse fn s) as [k'|] eqn:Hparse; [|done]. intros [= <-]. by exists s.
Qed.

Lemma key_plain (fn : keyFuncs) (s : string) (k : keyT) :
  HasPrefix_backtick s = false → parse fn s = Some k → key fn s = Ok k.
Proof. intros Hs Hparse. unfold key. by rewrite Hs, Hparse. Qed.

(** X5.  The codecs of the six key types write a key as text that they read
    back as the same key: [parse] undoes [format] on every key of the
    codec's type, and so does [key] when the text does not start with a
    backtick (which only the text of a string key can do). *)
Theorem key_format_parse (kind : Kind) (fn : keyFuncs) (k : keyT) :
  keyFuncsOf kind = Some fn → keyTOfKind kind k →
  parse fn (format fn k) = Some k ∧
  (HasPrefix_backtick (format fn k) = false → key fn (format fn k) = Ok k) ∧
  (kind ≠ StringKind → key fn (format fn k) = Ok k).
Proof.
  intros Hfn Hk.
  assert (parse fn (format fn k) = Some k) as Hparse.
  { destruct kind; try discriminate Hfn; injection Hfn as <-;
      destruct k as [str|z]; unfold keyTOfKind in Hk; try done;
      cbn [parse format stringKeyFuncs boolKeyFuncs int32KeyFuncs int64KeyFuncs
           uint32KeyFuncs uint64KeyFuncs formatInt];
      rewrite ?(ParseInt_pretty z 32 Hk), ?(ParseInt_pretty z 64 Hk),
              ?(ParseUint_pretty z 32 Hk), ?(ParseUint_pretty z 64 Hk);
      cbn [fmap option_fmap option_map];
      rewrite ?(to_int32_id z Hk), ?(to_uint32_id z Hk); try done.
    by destruct Hk as [->| ->]. }
  split_and!; [done|by intros; apply key_plain|].
  intros Hkind. apply key_plain; [|done].
  assert (∀ z : Z, HasPrefix_backtick (pretty z) = false) as Hpretty.
  { intros z. destruct (Z_lt_le_dec z 0) as [Hneg|Hpos].
    - by destruct z.
    - destruct (pretty_nonneg z Hpos) as [Hdigit _].
      destruct (pretty z) as [|c s']; [done|]. cbn [starts_digit] in Hdigit.
      unfold HasPrefix_backtick. destruct (Ascii.eqb_spec c "`") as [->|Hne]; [done|].
      destruct c as [[] [] [] [] [] [] [] []]; done. }
  destruct kind; try discriminate Hfn; injection Hfn as <-;
    destruct k as [str|z]; unfold keyTOfKind in Hk; try done; try apply Hpretty.
  by destruct Hk as [->| ->].
Qed.

Lemma key_format_parse_witness :
  parse int32KeyFuncs (format int32KeyFuncs (TInt (-45))) = Some (TInt (-45)) ∧
  (HasPrefix_backtick (format int32KeyFuncs (TInt (-45))) = false →
   key int32KeyFuncs (format int32KeyFuncs (TInt (-45))) = Ok (TInt (-45))) ∧
  (Sint32Kind ≠ StringKind →
   key int32KeyFuncs (format int32KeyFuncs (TInt (-45))) = Ok (TInt (-45))).
Proof.
  apply (key_format_parse Sint32Kind int32KeyFuncs (TInt (-45))); [reflexivity|].
  simpl. lia.
Defined.

(** X6.  Every key a codec hands out lies in the range of the codec's type,
    whether [key] parsed it from text or [value] read it from a map key
    of the field; and [value] tells the map keys of the field apart. *)
Theorem key_in_range (kind : Kind) (fn : keyFuncs) :
  keyFuncsOf kind = Some fn →
  (∀ s k, key fn s = Ok k → keyTOfKind kind k) ∧
  (∀ mk, keyOfKind kind mk → keyTOfKind kind (value fn mk)) ∧
  (∀ mk mk', keyOfKind kind mk → keyOfKind kind mk' →
     value fn mk = value fn mk' → mk = mk').
Proof.
  intros Hfn. split_and!.
  - intros s k [s' Hparse]%key_Ok.
    destruct kind; simplify_eq/=;
      repeat match goal with
      | H : _ <$> _ = Some _ |- _ => apply fmap_Some in H as (? & H & ->)
      end;
      try done;
      try (apply to_int32_range); try (apply to_uint32_range);
      try (by eapply (ParseInt_range _ 64)); try (by eapply (ParseUint_range _ 64)).
    destruct x0; [by right|by left].
  - intros mk Hmk.
    destruct kind; simplify_eq/=; destruct mk as [b|z|str]; try done;
      rewrite ?to_int32_id, ?to_uint32_id by done; try done.
    destruct b; [by right|by left].
  - intros mk mk' Hmk Hmk'.
    destruct kind; simplify_eq/=; destruct mk as [b|z|str], mk' as [b'|z'|str'];
      try done; rewrite ?to_int32_id, ?to_uint32_id by done; try (by intros [= ->]).
    destruct b, b'; done.
Qed.

Lemma key_in_range_witness :
  (∀ s k, key uint32KeyFuncs s = Ok k → keyTOfKind Fixed32Kind k) ∧
  (∀ mk, keyOfKind Fixed32Kind mk → keyTOfKind Fixed32Kind (value uint32KeyFuncs mk)) ∧
  (∀ mk mk', keyOfKind Fixed32Kind mk → keyOfKind Fixed32Kind mk' →
     value uint32KeyFuncs mk = value uint32KeyFuncs mk' → mk = mk').
Proof. apply (key_in_range Fixed32Kind uint32KeyFuncs). reflexivity. Defined.

(** ** Field lookup *)

Lemma ByTextName_Some (fds : list FieldDescriptor) (name : string) (fd : FieldDescriptor) :
  ByTextName fds name = Some fd → fd ∈ fds ∧ TextName fd = name.
Proof.
  unfold ByTextName. intros [Hin Heq]%find_some.
  split; [by apply list_elem_of_In|by apply String.eqb_eq].
Qed.

Lemma ByJSONName_Some (fds : list FieldDescriptor) (name : string) (fd : FieldDescriptor) :
  ByJSONName fds name = Some fd → fd ∈ fds ∧ JSONName fd = name.
Proof.
  unfold ByJSONName. intros [Hin Heq]%find_some.
  split; [by apply list_elem_of_In|by apply String.eqb_eq].
Qed.

Lemma ByTextName_None (fds : list FieldDescriptor) (name : string) :
  ByTextName fds name = None ↔ ∀ fd, fd ∈ fds → TextName fd ≠ name.
Proof.
  unfold ByTextName. split.
  - intros H fd Hin%list_elem_of_In. apply eqb_false_iff. by eapply find_none in H.
  - intros H. destruct (find _ fds) as [fd|] eqn:Hfind; [|done].
    apply find_some in Hfind as [Hin%list_elem_of_In Heq%String.eqb_eq]. by destruct (H fd).
Qed.

Lemma ByJSONName_None (fds : list FieldDescriptor) (name : string) :
  ByJSONName fds name = None ↔ ∀ fd, fd ∈ fds → JSONName fd ≠ name.
Proof.
  unfold ByJSONName. split.
  - intros H fd Hin%list_elem_of_In. apply eqb_false_iff. by eapply find_none in H.
  - intros H. destruct (find _ fds) as [fd|] eqn:Hfind; [|done].
    apply find_some in Hfind as [Hin%list_elem_of_In Heq%String.eqb_eq]. by destruct (H fd).
Qed.

Lemma doLookupField_sound (f : fieldLookupFunc) (fds : list FieldDescriptor)
    (name key_ : string) (fd : FieldDescriptor) :
  doLookupField f fds name = Some (key_, fd) →
  fd ∈ fds ∧ name_matches f fd name ∧ key_ = canonicalName f fd.
Proof.
  destruct f; cbn [doLookupField name_matches canonicalName].
  - destruct (ByTextName fds name) as [fd'|] eqn:Ht.
    { intros [= <- <-]. apply ByTextName_Some in Ht as [? ?]. eauto. }
    destruct (ByJSONName fds name) as [fd'|] eqn:Hj; [|done].
    intros [= <- <-]. apply ByJSONName_Some in Hj as [? ?]. eauto.
  - destruct (ByTextName fds name) as [fd'|] eqn:Ht; [|done].
    destruct (String.eqb (TextName fd') name); [|done].
    intros [= <- <-]. apply ByTextName_Some in Ht as [? ?]. eauto.
  - destruct (ByJSONName fds name) as [fd'|] eqn:Hj.
    { intros [= <- <-]. apply ByJSONName_Some in Hj as [? ?]. eauto. }
    destruct (ByTextName fds name) as [fd'|] eqn:Ht; [|done].
    intros [= <- <-]. apply ByTextName_Some in Ht as [? ?]. eauto.
  - destruct (ByJSONName fds name) as [fd'|] eqn:Hj; [|done].
    destruct (String.eqb (JSONName fd') name); [|done].
    intros [= <- <-]. apply ByJSONName_Some in Hj as [? ?]. eauto.
Qed.

(** X7.  The four lookup functions.  A field that is found is a field of the
    message, it bears the name that was asked for as its text name or its
    JSON name (the strict lookups accept their own kind of name only),
    and the key it gets in the mask is its text name under the text
    lookups and its JSON name under the JSON lookups, whichever name the
    path used.  Nothing is found exactly when no field of the message
    bears the name. *)
Theorem lookupField_spec (f : fieldLookupFunc) (fds : list FieldDescriptor) (name : string) :
  (∀ key_ fd, doLookupField f fds name = Some (key_, fd) →
     fd ∈ fds ∧ name_matches f fd name ∧ key_ = canonicalName f fd) ∧
  (doLookupField f fds name = None ↔ ∀ fd, fd ∈ fds → ¬ name_matches f fd name).
Proof.
  split; [intros key_ fd; apply doLookupField_sound|]. split.
  - intros Hnone fd Hin.
    destruct f; cbn [doLookupField name_matches] in *.
    + destruct (ByTextName fds name) as [fd'|] eqn:Ht; [done|].
      destruct (ByJSONName fds name) as [fd'|] eqn:Hj; [done|].
      intros [?|?]; [by eapply ByTextName_None|by eapply ByJSONName_None].
    + destruct (ByTextName fds name) as [fd'|] eqn:Ht; [|by eapply ByTextName_None].
      apply ByTextName_Some in Ht as [_ Ht]. apply String.eqb_eq in Ht. by rewrite Ht in Hnone.
    + destruct (ByJSONName fds name) as [fd'|] eqn:Hj; [done|].
      destruct (ByTextName fds name) as [fd'|] eqn:Ht; [done|].
      intros [?|?]; [by eapply ByTextName_None|by eapply ByJSONName_None].
    + destruct (ByJSONName fds name) as [fd'|] eqn:Hj; [|by eapply ByJSONName_None].
      apply ByJSONName_Some in Hj as [_ Hj]. apply String.eqb_eq in Hj. by rewrite Hj in Hnone.
  - intros Hnone. destruct (doLookupField f fds name) as [[key_ fd]|] eqn:Hfound; [|done].
    apply doLookupField_sound in Hfound as (Hin & Hmatch & _). by destruct (Hnone fd).
Qed.

(** ** Paths below a leaf *)

Lemma is_empty_or_star_true (path : string) :
  is_empty_or_star path = true ↔ path = "" ∨ path = "*".
Proof.
  unfold is_empty_or_star. rewrite orb_true_iff, !String.eqb_eq. done.
Qed.

Lemma is_empty_or_star_false (path : string) :
  is_empty_or_star path = false ↔ path ≠ "" ∧ path ≠ "*".
Proof.
  unfold is_empty_or_star. rewrite orb_false_iff, !eqb_false_iff. done.
Qed.

(** X8.  A list of scalars takes the empty path and [*] and nothing else:
    [add] returns an error for every other path, the syntax error of
    [nextSegment], the invalid-list-path error when the path does not
    start with the segment [*], and the invalid-subpath error for what
    follows [*.]; the branch that returns nil after [nextSegment] is
    never reached. *)
Theorem scalarList_add_spec (path : string) :
  (scalarList_add path = Ok tt ↔ path = "" ∨ path = "*") ∧
  (∀ sub, sub ≠ "" →
     scalarList_add (joinPath "*" sub) = Err (errInvalidScalarSubpath sub)) ∧
  (∀ seg rest, nextSegment path = Ok (seg, rest) → seg ≠ "*" →
     scalarList_add path = Err (errInvalidListPath path)) ∧
  (∀ e, nextSegment path = Err e → path ≠ "" → scalarList_add path = Err e).
Proof.
  split_and!.
  - split.
    + intros H. unfold scalarList_add in H.
      destruct (is_empty_or_star path) eqn:Hes; [by apply is_empty_or_star_true|].
      apply is_empty_or_star_false in Hes as [_ Hstar].
      destruct (nextSegment path) as [[token subpath]| | |] eqn:Hseg; [|done..].
      destruct (String.eqb token "*") eqn:Htoken; [|done].
      destruct (String.eqb subpath "") eqn:Hsub; [|done].
      apply String.eqb_eq in Htoken as ->, Hsub as ->.
      apply nextSegment_sound in Hseg as [_ [[_ ->]|[? _]]]; done.
    + intros [-> | ->]; done.
  - intros sub Hsub. unfold scalarList_add, joinPath.
    rewrite is_empty_or_star_dot by constructor.
    rewrite nextSegment_dot by (done || constructor). cbn [String.eqb Ascii.eqb Bool.eqb negb].
    by apply eqb_false_iff in Hsub as ->.
  - intros seg rest Hseg Hne. unfold scalarList_add. rewrite Hseg.
    destruct (is_empty_or_star path) eqn:Hes.
    { apply is_empty_or_star_true in Hes as [-> | ->]; [done|].
      by injection Hseg as <- <-. }
    by apply eqb_false_iff in Hne as ->.
  - intros e Hseg Hne. unfold scalarList_add. rewrite Hseg.
    destruct (is_empty_or_star path) eqn:Hes; [|done].
    by apply is_empty_or_star_true in Hes as [-> | ->].
Qed.

(** ** What a path does to a record mask, field by field *)

Section leaf_paths.
Context (sch : Schema) (s : settings) (env : TextEnv).

(** Reading the first segment of [name.sub] and looking it up. *)
Lemma msgMask_init_field (fuel : nat) (mm : msgMask) (name sub key_ : string)
    (fd : FieldDescriptor) :
  is_segment name → sub ≠ "" →
  msgMask_lookupField s mm name = Ok (Some (key_, fd)) →
  msgMask_init sch s env (S fuel) mm (joinPath name sub)
  = or_return (newFieldMask fd) mm (λ fld,
      match fieldMask_init sch s env fuel fld sub with
      | (fld, Ok _) => (with_fields mm (Some {[ key_ := fld ]}), Ok tt)
      | (_, r) => (mm, r)
      end).
Proof.
  intros Hname Hsub Hlookup. unfold joinPath.
  rewrite msgMask_init_S, is_empty_or_star_dot, nextSegment_dot by done.
  cbn [or_return]. by rewrite Hlookup.
Qed.

Lemma msgMask_append_field (fuel : nat) (mm : msgMask) (name sub key_ : string)
    (fd : FieldDescriptor) (fields : gmap string fieldMask) :
  is_segment name → sub ≠ "" →
  msgMask_lookupField s mm name = Ok (Some (key_, fd)) →
  mm_fields mm = Some fields →
  msgMask_append sch s env (S fuel) mm (joinPath name sub)
  = match fields !! key_ with
    | Some fld =>
        let '(fld, r) := fieldMask_append sch s env fuel fld sub in
        (with_fields mm (Some (<[key_ := fld]> fields)), r)
    | None =>
        or_return (newFieldMask fd) mm (λ fld,
          match fieldMask_init sch s env fuel fld sub with
          | (fld, Ok _) => (with_fields mm (Some (<[key_ := fld]> fields)), Ok tt)
          | (_, r) => (mm, r)
          end)
    end.
Proof.
  intros Hname Hsub Hlookup Hfields. unfold joinPath.
  rewrite msgMask_append_S, is_empty_or_star_dot, nextSegment_dot by done.
  cbn [or_return]. by rewrite Hlookup, Hfields.
Qed.

Lemma newFieldMask_scalar (fd : FieldDescriptor) :
  Card fd = Singular → ElemMessage fd = None → newFieldMask fd = Ok (scalarFieldMask fd).
Proof.
  intros Hcard Hmsg. unfold newFieldMask, IsList, IsMap. by rewrite Hcard, Hmsg.
Qed.

Lemma newFieldMask_message (fd : FieldDescriptor) (name : string) :
  Card fd = Singular → ElemMessage fd = Some name →
  newFieldMask fd = Ok (msgFieldMask fd (MkMsgMask name None None)).
Proof.
  intros Hcard Hmsg. unfold newFieldMask, IsList, IsMap, newMsgFieldMask, MessageName.
  by rewrite Hcard, Hmsg.
Qed.

(** X10.  A path that goes on below a scalar field is rejected with the
    invalid-subpath error, which carries the rest of the path, whether
    the path is the first of the mask or is appended to a mask that does
    not hold the field yet or holds it already; the mask is left as it
    was. *)
Theorem scalar_subpath_rejected (fuel : nat) (mm : msgMask) (name sub key_ : string)
    (fd : FieldDescriptor) :
  is_segment name → sub ≠ "" →
  msgMask_lookupField s mm name = Ok (Some (key_, fd)) →
  Card fd = Singular → ElemMessage fd = None →
  msgMask_init sch s env (S (S fuel)) mm (joinPath name sub)
  = (mm, Err (errInvalidScalarSubpath sub)) ∧
  (∀ fields, mm_fields mm = Some fields →
     fields !! key_ = None ∨ fields !! key_ = Some (scalarFieldMask fd) →
     msgMask_append sch s env (S (S fuel)) mm (joinPath name sub)
     = (mm, Err (errInvalidScalarSubpath sub))).
Proof.
  intros Hname Hsub Hlookup Hcard Hmsg.
  pose proof (newFieldMask_scalar fd Hcard Hmsg) as Hnew.
  assert (addScalarPath sub = Err (errInvalidScalarSubpath sub)) as Hadd.
  { unfold addScalarPath. by apply eqb_false_iff in Hsub as ->. }
  split.
  - rewrite (msgMask_init_field _ _ _ _ _ _ Hname Hsub Hlookup), Hnew.
    cbn [or_return]. rewrite fieldMask_init_S. by rewrite Hadd.
  - intros fields Hfields Hkey.
    rewrite (msgMask_append_field _ _ _ _ _ _ _ Hname Hsub Hlookup Hfields).
    destruct Hkey as [-> | Hkey].
    + rewrite Hnew. cbn [or_return]. rewrite fieldMask_init_S. by rewrite Hadd.
    + rewrite Hkey, fieldMask_append_S, Hadd, insert_id by done.
      by rewrite with_fields_id.
Qed.

(** X11.  A path that goes on below a singular message field with the name of
    a field panics: [newMsgFieldMask] builds the record mask of the field
    without [fldDescs], and the lookup of the next segment calls a method
    of that nil interface. *)
Theorem message_field_subpath_panics (fuel : nat) (mm : msgMask)
    (name sub key_ msgname : string) (fd : FieldDescriptor) (seg rest : string) :
  is_segment name →
  msgMask_lookupField s mm name = Ok (Some (key_, fd)) →
  Card fd = Singular → ElemMessage fd = Some msgname →
  nextSegment sub = Ok (seg, rest) → sub ≠ "*" →
  msgMask_init sch s env (S (S (S fuel))) mm (joinPath name sub)
  = (mm, Panic nilDereference) ∧
  (∀ fields, mm_fields mm = Some fields → fields !! key_ = None →
     msgMask_append sch s env (S (S (S fuel))) mm (joinPath name sub)
     = (mm, Panic nilDereference)).
Proof.
  intros Hname Hlookup Hcard Hmsg Hseg Hstar.
  assert (sub ≠ "") as Hsub by (by intros ->).
  pose proof (newFieldMask_message fd msgname Hcard Hmsg) as Hnew.
  assert (fieldMask_init sch s env (S (S fuel))
            (msgFieldMask fd (MkMsgMask msgname None None)) sub
          = (msgFieldMask fd (MkMsgMask msgname None None), Panic nilDereference)) as Hinit.
  { rewrite fieldMask_init_S, msgMask_init_S.
    rewrite (proj2 (is_empty_or_star_false sub)) by done. by rewrite Hseg. }
  split.
  - rewrite (msgMask_init_field _ _ _ _ _ _ Hname Hsub Hlookup), Hnew.
    cbn [or_return]. by rewrite Hinit.
  - intros fields Hfields Hkey.
    rewrite (msgMask_append_field _ _ _ _ _ _ _ Hname Hsub Hlookup Hfields), Hkey, Hnew.
    cbn [or_return]. by rewrite Hinit.
Qed.

(** X12.  Both names of a field do the same: two paths that differ in their
    first segment only, where the lookup resolves the two segments to the
    same field, leave the same mask and return the same result, as a
    first path and as an appended one. *)
Theorem field_name_alias (fuel : nat) (mm : msgMask) (n1 n2 : string)
    (found : string * FieldDescriptor) :
  is_segment n1 → is_segment n2 → n1 ≠ "*" → n2 ≠ "*" →
  msgMask_lookupField s mm n1 = Ok (Some found) →
  msgMask_lookupField s mm n2 = Ok (Some found) →
  msgMask_init sch s env fuel mm n1 = msgMask_init sch s env fuel mm n2 ∧
  msgMask_append sch s env fuel mm n1 = msgMask_append sch s env fuel mm n2 ∧
  (∀ sub, sub ≠ "" →
     msgMask_init sch s env fuel mm (joinPath n1 sub)
     = msgMask_init sch s env fuel mm (joinPath n2 sub) ∧
     msgMask_append sch s env fuel mm (joinPath n1 sub)
     = msgMask_append sch s env fuel mm (joinPath n2 sub)).
Proof.
  intros H1 H2 Hs1 Hs2 Hl1 Hl2. destruct fuel as [|fuel]; [done|].
  assert (∀ n, is_segment n → n ≠ "*" → is_empty_or_star n = false) as Hes.
  { intros n Hn Hstar. apply is_empty_or_star_false. split; [|done].
    by apply is_segment_nonempty. }
  split_and!.
  - rewrite !msgMask_init_S, !Hes, !nextSegment_last by done.
    cbn [or_return]. by rewrite Hl1, Hl2.
  - rewrite !msgMask_append_S, !Hes, !nextSegment_last by done.
    cbn [or_return]. by rewrite Hl1, Hl2.
  - intros sub Hsub. unfold joinPath. split.
    + rewrite !msgMask_init_S, !is_empty_or_star_dot, !nextSegment_dot by done.
      cbn [or_return]. by rewrite Hl1, Hl2.
    + rewrite !msgMask_append_S, !is_empty_or_star_dot, !nextSegment_dot by done.
      cbn [or_return]. by rewrite Hl1, Hl2.
Qed.
End leaf_paths.

Lemma scalar_subpath_rejected_witness :
  msgMask_init testSchema defaultSettings asciiEnv 2
    (newMsgMask testSchema testMessage) (joinPath "int32_field" "x.y")
  = (newMsgMask testSchema testMessage, Err (errInvalidScalarSubpath "x.y")) ∧
  (∀ fields, mm_fields (newMsgMask testSchema testMessage) = Some fields →
     fields !! "int32_field" = None ∨ fields !! "int32_field" = Some (scalarFieldMask int32_field) →
     msgMask_append testSchema defaultSettings asciiEnv 2
       (newMsgMask testSchema testMessage) (joinPath "int32_field" "x.y")
     = (newMsgMask testSchema testMessage, Err (errInvalidScalarSubpath "x.y"))).
Proof.
  apply (scalar_subpath_rejected testSchema defaultSettings asciiEnv 0
           (newMsgMask testSchema testMessage) "int32_field" "x.y" "int32_field" int32_field).
  - apply (seg_ident "i" "nt32_field"); [reflexivity|discriminate..|reflexivity].
  - discriminate.
  - reflexivity.
  - reflexivity.
  - reflexivity.
Defined.

Lemma message_field_subpath_panics_witness :
  msgMask_init testSchema defaultSettings asciiEnv 3
    (newMsgMask testSchema testMessage) (joinPath "message_field" "string_field")
  = (newMsgMask testSchema testMessage, Panic nilDereference) ∧
  (∀ fields, mm_fields (newMsgMask testSchema testMessage) = Some fields →
     fields !! "message_field" = None →
     msgMask_append testSchema defaultSettings asciiEnv 3
       (newMsgMask testSchema testMessage) (joinPath "message_field" "string_field")
     = (newMsgMask testSchema testMessage, Panic nilDereference)).
Proof.
  apply (message_field_subpath_panics testSchema defaultSettings asciiEnv 0
           (newMsgMask testSchema testMessage) "message_field" "string_field"
           "message_field" testMessage message_field "string_field" "").
  - apply (seg_ident "m" "essage_field"); [reflexivity|discriminate..|reflexivity].
  - reflexivity.
  - reflexivity.
  - reflexivity.
  - reflexivity.
  - discriminate.
Defined.

Lemma field_name_alias_witness :
  let mm := newMsgMask testSchema testMessage in
  msgMask_init testSchema defaultSettings asciiEnv 4 mm "string_field"
  = msgMask_init testSchema defaultSettings asciiEnv 4 mm "stringField" ∧
  msgMask_append testSchema defaultSettings asciiEnv 4 mm "string_field"
  = msgMask_append testSchema defaultSettings asciiEnv 4 mm "stringField" ∧
  (∀ sub, sub ≠ "" →
     msgMask_init testSchema defaultSettings asciiEnv 4 mm (joinPath "string_field" sub)
     = msgMask_init testSchema defaultSettings asciiEnv 4 mm (joinPath "stringField" sub) ∧
     msgMask_append testSchema defaultSettings asciiEnv 4 mm (joinPath "string_field" sub)
     = msgMask_append testSchema defaultSettings asciiEnv 4 mm (joinPath "stringField" sub)).
Proof.
  apply (field_name_alias testSchema defaultSettings asciiEnv 4
           (newMsgMask testSchema testMessage) "string_field" "stringField"
           ("string_field", string_field)).
  - apply (seg_ident "s" "tring_field"); [reflexivity|discriminate..|reflexivity].
  - apply (seg_ident "s" "tringField"); [reflexivity|discriminate..|reflexivity].
  - discriminate.
  - discriminate.
  - reflexivity.
  - reflexivity.
Defined.

(** ** A path that names a field *)

Lemma fresh_mask_init (sch : Schema) (s : settings) (env : TextEnv) (fuel : nat)
    (fd : FieldDescriptor) (fld : fieldMask) :
  newFieldMask fd = Ok fld →
  fieldMask_init sch s env (S (S fuel)) fld "" = (fld, Ok tt) ∧
  fieldMask_paths env fld = [].
Proof.
  unfold newFieldMask, newMapFieldMask, newListFieldMask, newMsgFieldMask.
  intros Hnew.
  repeat case_match; simplify_eq; split; reflexivity.
Qed.

(** X13.  A path that is the name of a field selects the whole field: the
    mask holds the field's fresh, complete mask under the key the lookup
    returns, and [Paths] gives that key back, whichever of the field's
    names the path used. *)
Theorem field_path_selects_field (sch : Schema) (env : TextEnv) (s : settings)
    (root name key_ : string) (fd : FieldDescriptor) (fld : fieldMask) (fuel : nat) :
  is_segment name → name ≠ "*" →
  doLookupField (lookupField s) (sch root) name = Some (key_, fd) →
  newFieldMask fd = Ok fld →
  let fm := with_msg (newFieldMaskT sch root s)
              (MkMsgMask root (Some (sch root)) (Some {[ key_ := fld ]})) in
  Parse sch env (3 + fuel) root s name = Ok fm ∧
  NewFieldMask sch env (3 + fuel) root s [name] = Ok fm ∧
  Paths env fm = [key_] ∧
  String_ env fm = key_.
Proof.
  intros Hname Hstar Hlookup Hnew fm.
  destruct (fresh_mask_init sch s env fuel fd fld Hnew) as [Hinit Hpaths].
  assert (msgMask_init sch s env (3 + fuel) (newMsgMask sch root) name
          = (fm_msg fm, Ok tt)) as Hmsg.
  { change (3 + fuel) with (S (S (S fuel))).
    rewrite msgMask_init_S, (proj2 (is_empty_or_star_false name)), nextSegment_last;
      [|done|split; [by apply is_segment_nonempty|done]].
    cbn [or_return msgMask_lookupField newMsgMask]. rewrite Hlookup, Hnew.
    cbn [or_return]. by rewrite Hinit. }
  assert (Paths env fm = [key_]) as HPaths.
  { unfold Paths, fm. cbn [fm_msg with_msg msgMask_paths].
    rewrite map_fmap_singleton, map_to_list_singleton, sortStrings_singleton.
    cbn [fmap list_fmap mjoin list_join fst snd pathsOf app]. by rewrite Hpaths. }
  split_and!.
  - unfold Parse. change (3 + fuel) with (S (S (S fuel))) in *.
    by erewrite (Parse_loop_last _ _ _ _ true _ name name); [|apply nextPath_last; constructor|].
  - unfold NewFieldMask. cbn [fm_msg newFieldMaskT]. by rewrite Hmsg.
  - done.
  - unfold String_. by rewrite HPaths.
Qed.

Lemma field_path_selects_field_witness :
  let fm := with_msg (newFieldMaskT testSchema testMessage defaultSettings)
              (MkMsgMask testMessage (Some (testSchema testMessage))
                 (Some {[ "bytes_field" := scalarFieldMask bytes_field ]})) in
  Parse testSchema asciiEnv 3 testMessage defaultSettings "bytesField" = Ok fm ∧
  NewFieldMask testSchema asciiEnv 3 testMessage defaultSettings ["bytesField"] = Ok fm ∧
  Paths asciiEnv fm = ["bytes_field"] ∧
  String_ asciiEnv fm = "bytes_field".
Proof.
  apply (field_path_selects_field testSchema asciiEnv defaultSettings testMessage
           "bytesField" "bytes_field" bytes_field (scalarFieldMask bytes_field) 0).
  - apply (seg_ident "b" "ytesField"); [reflexivity|discriminate..|reflexivity].
  - discriminate.
  - reflexivity.
  - reflexivity.
Defined.

(** ** The two constructors of the facade *)

Lemma join_commas_foldl (l : list string) : ∀ a b,
  foldl (λ acc y, acc +:+ "," +:+ y) (a +:+ b) l
  = a +:+ foldl (λ acc y, acc +:+ "," +:+ y) b l.
Proof.
  induction l as [|y l IH]; intros a b; [done|].
  cbn [foldl]. by rewrite app_assoc, IH.
Qed.

Lemma join_commas_cons (x y : string) (l : list string) :
  join_commas (x :: y :: l) = x +:+ "," +:+ join_commas (y :: l).
Proof.
  unfold join_commas. cbn [foldl]. by rewrite !join_commas_foldl.
Qed.

Lemma join_commas_nonempty (x : string) (l : list string) :
  x ≠ "" → join_commas (x :: l) ≠ "".
Proof.
  intros Hx. destruct l as [|y l]; [done|]. rewrite join_commas_cons.
  destruct x; [done|]. by rewrite app_cons.
Qed.

Lemma Parse_loop_appends (sch : Schema) (env : TextEnv) (fuel : nat) (paths : list string) :
  ∀ count fm,
  paths ≠ [] → Forall is_chain paths → (List.length paths ≤ count)%nat →
  Parse_loop sch env count fuel false fm (join_commas paths) = New_loop sch env fuel fm paths.
Proof.
  induction paths as [|p ps IH]; intros count fm Hne Hchains Hlen; [done|].
  apply Forall_cons in Hchains as [Hp Hps].
  destruct count as [|count]; [cbn in Hlen; lia|]. cbn [List.length] in Hlen.
  rewrite Parse_loop_S. cbn [New_loop]. unfold Append.
  destruct ps as [|q ps].
  - cbn [join_commas foldl]. rewrite (nextPath_last p Hp). cbn zeta.
    destruct (msgMask_append sch (fm_settings fm) env fuel (fm_msg fm) p) as [mm [[]| | |]];
      done.
  - assert (join_commas (q :: ps) ≠ "") as Hrest.
    { apply join_commas_nonempty, is_chain_nonempty. by apply Forall_cons in Hps as [? _]. }
    rewrite join_commas_cons, (nextPath_comma p _ Hp Hrest). cbn zeta.
    destruct (msgMask_append sch (fm_settings fm) env fuel (fm_msg fm) p) as [mm [[]| | |]];
      try done.
    apply eqb_false_iff in Hrest as ->. apply IH; [done|done|lia].
Qed.

(** X14.  [New] (and [FromProto]) against [Parse]: a non-empty list of paths,
    each a chain of segments, gives the same mask or the same failure as
    the list joined by commas gives with [Parse]. *)
Theorem New_agrees_with_Parse (sch : Schema) (env : TextEnv) (root : string) (s : settings)
    (fuel : nat) (paths : list string) :
  paths ≠ [] → Forall is_chain paths → (List.length paths ≤ fuel)%nat →
  Parse sch env fuel root s (join_commas paths) = NewFieldMask sch env fuel root s paths.
Proof.
  intros Hne Hchains Hlen. destruct paths as [|p ps]; [done|].
  apply Forall_cons in Hchains as [Hp Hps]. cbn [List.length] in Hlen.
  destruct fuel as [|fuel]; [lia|].
  unfold Parse, NewFieldMask. rewrite Parse_loop_S. cbn zeta.
  destruct ps as [|q ps].
  - cbn [join_commas foldl]. rewrite (nextPath_last p Hp).
    cbn [fm_settings fm_msg newFieldMaskT].
    destruct (msgMask_init sch s env (S fuel) (newMsgMask sch root) p) as [mm [[]| | |]];
      done.
  - assert (join_commas (q :: ps) ≠ "") as Hrest.
    { apply join_commas_nonempty, is_chain_nonempty. by apply Forall_cons in Hps as [? _]. }
    rewrite join_commas_cons, (nextPath_comma p _ Hp Hrest).
    cbn [fm_settings fm_msg newFieldMaskT].
    destruct (msgMask_init sch s env (S fuel) (newMsgMask sch root) p) as [mm [[]| | |]];
      try done.
    apply eqb_false_iff in Hrest as ->. apply Parse_loop_appends; [done|done|lia].
Qed.

Lemma New_agrees_with_Parse_witness :
  Parse testSchema asciiEnv 4 testMessage defaultSettings
    (join_commas ["int32_field"; "map_string_message_field.foo.string_field"])
  = NewFieldMask testSchema asciiEnv 4 testMessage defaultSettings
      ["int32_field"; "map_string_message_field.foo.string_field"].
Proof.
  apply (New_agrees_with_Parse testSchema asciiEnv testMessage defaultSettings 4
           ["int32_field"; "map_string_message_field.foo.string_field"]).
  - discriminate.
  - repeat apply Forall_cons_2; [| |apply Forall_nil_2].
    + apply chain_last. apply (seg_ident "i" "nt32_field"); [reflexivity|discriminate..|reflexivity].
    + apply (chain_dot "map_string_message_field" "foo.string_field").
      { apply (seg_ident "m" "ap_string_message_field"); [reflexivity|discriminate..|reflexivity]. }
      apply (chain_dot "foo" "string_field").
      { apply (seg_ident "f" "oo"); [reflexivity|discriminate..|reflexivity]. }
      apply chain_last. apply (seg_ident "s" "tring_field"); [reflexivity|discriminate..|reflexivity].
  - simpl. lia.
Defined.

(** ** The helpers of [paths] *)

Lemma toSet_lookup (needles : list string) (v : string) :
  toSet needles !! v = Some true ↔ v ∈ needles.
Proof.
  unfold toSet. split.
  - intros H%elem_of_list_to_map_2. apply list_elem_of_fmap in H as (x & [= ->] & Hx). done.
  - intros Hin.
    destruct (list_to_map ((λ v, (v, true)) <$> needles) !! v) as [b|] eqn:Hlookup.
    + apply elem_of_list_to_map_2 in Hlookup.
      by apply list_elem_of_fmap in Hlookup as (x & [= _ ->] & _).
    + apply not_elem_of_list_to_map in Hlookup. destruct Hlookup.
      rewrite <- list_fmap_compose. apply list_elem_of_fmap. by exists v.
Qed.

Lemma toSet_size (needles : list string) : size (toSet needles) = 0 ↔ needles = [].
Proof.
  split; [|by intros ->].
  intros Hsize%map_size_empty_inv. destruct needles as [|x l]; [done|].
  pose proof (proj2 (toSet_lookup (x :: l) x)) as Hx.
  rewrite Hsize, lookup_empty in Hx. discriminate Hx. by left.
Qed.

(** X17.  [remove] after [toSet]: what is left of the haystack are its
    elements that are not among the needles, in their order and with
    their repetitions; an empty list of needles (the nil set) removes
    nothing. *)
Theorem remove_toSet (haystack needles : list string) :
  remove haystack (toSet needles) = filter (λ v, v ∉ needles) haystack ∧
  (∀ v, v ∈ remove haystack (toSet needles) ↔ v ∈ haystack ∧ v ∉ needles) ∧
  remove haystack (toSet []) = haystack.
Proof.
  assert (remove haystack (toSet needles) = filter (λ v, v ∉ needles) haystack) as Heq.
  { unfold remove. case_bool_decide as Hsize.
    - apply toSet_size in Hsize as ->. induction haystack as [|x l IH]; [done|].
      rewrite filter_cons_True by apply not_elem_of_nil. by rewrite <- IH.
    - apply list_filter_iff. intros v. by rewrite toSet_lookup. }
  split_and!; [done| |done].
  intros v. by rewrite Heq, list_elem_of_filter, (comm (∧)).
Qed.

(** ** Keys of a scalar-valued map *)

Lemma hasKey_insert (fn : keyFuncs) (keys : gmap keyT bool) (k : keyT) (mk : MapKey) :
  hasKey fn (<[k := true]> keys) mk = true ↔ value fn mk = k ∨ hasKey fn keys mk = true.
Proof.
  unfold hasKey. destruct (decide (value fn mk = k)) as [<-|Hne].
  - rewrite lookup_insert_eq. split; [by left|done].
  - rewrite lookup_insert_ne by done. split; [by right|by intros [?|?]].
Qed.

(** X16.  A keyed path of a scalar-valued map selects the entries with that
    key, next to the ones that were selected before: the key text, parsed
    by the codec, is added to the key set, as the first path of the field
    and as an appended one, and [mask] and [clone] then keep exactly the
    entries whose key reads as that key or was in the set. *)
Theorem scalarMap_key_selected (sch : Schema) (s : settings) (env : TextEnv) (fuel : nat)
    (desc : FieldDescriptor) (fn : keyFuncs) (keys : gmap keyT bool)
    (keytext : string) (k : keyT) :
  is_segment keytext → keytext ≠ "*" → key fn keytext = Ok k →
  fieldMask_init sch s env (S fuel) (scalarMapFieldMask desc fn None) keytext
  = (scalarMapFieldMask desc fn (Some {[ k := true ]}), Ok tt) ∧
  fieldMask_append sch s env (S fuel) (scalarMapFieldMask desc fn (Some keys)) keytext
  = (scalarMapFieldMask desc fn (Some (<[k := true]> keys)), Ok tt) ∧
  (∀ src,
     fieldMask_mask s (scalarMapFieldMask desc fn (Some (<[k := true]> keys))) (ValueOfMap src)
     = ValueOfMap (filter (λ kv, value fn kv.1 = k ∨ hasKey fn keys kv.1 = true) src) ∧
     fieldMask_clone s (scalarMapFieldMask desc fn (Some (<[k := true]> keys))) (ValueOfMap src)
     = ValueOfMap (filter (λ kv, value fn kv.1 = k ∨ hasKey fn keys kv.1 = true) src)).
Proof.
  intros Hseg Hstar Hkey.
  assert (∀ ks, scalarMap_add fn ks keytext = (Some (<[k := true]> (default ∅ ks)), Ok tt))
    as Hadd.
  { intros ks. unfold scalarMap_add.
    rewrite (proj2 (is_empty_or_star_false keytext)), nextSegment_last;
      [|done|split; [by apply is_segment_nonempty|done]].
    cbn [or_return]. apply eqb_false_iff in Hstar as ->.
    unfold scalarMap_addKeyed. by rewrite Hkey. }
  split_and!.
  - rewrite fieldMask_init_S. by rewrite Hadd.
  - rewrite fieldMask_append_S. by rewrite Hadd.
  - intros src.
    assert (filter (λ kv : MapKey * Value, hasKey fn (<[k := true]> keys) kv.1 = true) src
            = filter (λ kv, value fn kv.1 = k ∨ hasKey fn keys kv.1 = true) src) as Hfilter.
    { apply map_filter_ext. intros mk v _. apply hasKey_insert. }
    cbn [fieldMask_mask fieldMask_clone]. rewrite Hfilter. split; [done|].
    destruct (isBytesKind (ElemKind desc)); [|done]. f_equal.
    apply fmap_fixed. intros ? x _. apply cloneBytesValue_id.
Qed.

Lemma scalarMap_key_selected_witness :
  fieldMask_init testSchema defaultSettings asciiEnv 1
    (scalarMapFieldMask map_int32_string_field int32KeyFuncs None) "-45"
  = (scalarMapFieldMask map_int32_string_field int32KeyFuncs (Some {[ TInt (-45) := true ]}),
     Ok tt) ∧
  fieldMask_append testSchema defaultSettings asciiEnv 1
    (scalarMapFieldMask map_int32_string_field int32KeyFuncs (Some {[ TInt 7 := true ]})) "-45"
  = (scalarMapFieldMask map_int32_string_field int32KeyFuncs
       (Some (<[TInt (-45) := true]> {[ TInt 7 := true ]})), Ok tt) ∧
  (∀ src,
     fieldMask_mask defaultSettings
       (scalarMapFieldMask map_int32_string_field int32KeyFuncs
          (Some (<[TInt (-45) := true]> {[ TInt 7 := true ]}))) (ValueOfMap src)
     = ValueOfMap (filter (λ kv, value int32KeyFuncs kv.1 = TInt (-45)
                                 ∨ hasKey int32KeyFuncs {[ TInt 7 := true ]} kv.1 = true) src) ∧
     fieldMask_clone defaultSettings
       (scalarMapFieldMask map_int32_string_field int32KeyFuncs
          (Some (<[TInt (-45) := true]> {[ TInt 7 := true ]}))) (ValueOfMap src)
     = ValueOfMap (filter (λ kv, value int32KeyFuncs kv.1 = TInt (-45)
                                 ∨ hasKey int32KeyFuncs {[ TInt 7 := true ]} kv.1 = true) src)).
Proof.
  apply (scalarMap_key_selected testSchema defaultSettings asciiEnv 0 map_int32_string_field
           int32KeyFuncs {[ TInt 7 := true ]} "-45" (TInt (-45))).
  - apply (seg_ident "-" "45"); [reflexivity|discriminate..|reflexivity].
  - discriminate.
  - reflexivity.
Defined.

(** ** What update leaves alone *)

Lemma Fields_WithFields (m : Message) (f : gmap Z (FieldDescriptor * Value)) :
  Fields (WithFields m f) = f.
Proof. by destruct m. Qed.

Lemma Descriptor_WithFields (m : Message) (f : gmap Z (FieldDescriptor * Value)) :
  Descriptor (WithFields m f) = Descriptor m.
Proof. by destruct m. Qed.

Lemma GetUnknown_WithFields (m : Message) (f : gmap Z (FieldDescriptor * Value)) :
  GetUnknown (WithFields m f) = GetUnknown m.
Proof. by destruct m. Qed.

Lemma Fields_SetUnknown (m : Message) (u : string) : Fields (SetUnknown m u) = Fields m.
Proof. by destruct m. Qed.

Lemma Descriptor_SetUnknown (m : Message) (u : string) :
  Descriptor (SetUnknown m u) = Descriptor m.
Proof. by destruct m. Qed.

Lemma lookup_clearOneof_eq (fd : FieldDescriptor) (F : gmap Z (FieldDescriptor * Value)) :
  clearOneof fd F !! Number fd = F !! Number fd.
Proof.
  unfold clearOneof. destruct (F !! Number fd) as [p|] eqn:HF.
  - apply map_lookup_filter_Some. split; [done|]. by left.
  - apply map_lookup_filter_None. by left.
Qed.

Lemma lookup_clearOneof_spared (fd : FieldDescriptor) (F : gmap Z (FieldDescriptor * Value))
    (num : Z) :
  (∀ fd' v, F !! num = Some (fd', v) → inOneofOf fd fd' = false) →
  clearOneof fd F !! num = F !! num.
Proof.
  intros Hspared. unfold clearOneof. destruct (F !! num) as [[fd' v]|] eqn:HF.
  - apply map_lookup_filter_Some. split; [done|]. right. by eapply Hspared.
  - apply map_lookup_filter_None. by left.
Qed.

Lemma lookup_clearOneof_cases (fd : FieldDescriptor) (F : gmap Z (FieldDescriptor * Value))
    (num : Z) :
  clearOneof fd F !! num = F !! num ∨ clearOneof fd F !! num = None.
Proof.
  unfold clearOneof. destruct (filter _ F !! num) as [p|] eqn:Hp; [left|by right].
  by apply map_lookup_filter_Some in Hp as [-> _].
Qed.

Lemma lookup_clearOneof_sibling (fd fd' : FieldDescriptor) (v : Value)
    (F : gmap Z (FieldDescriptor * Value)) (num : Z) :
  F !! num = Some (fd', v) → num ≠ Number fd → inOneofOf fd fd' = true →
  clearOneof fd F !! num = None.
Proof.
  intros HF Hne Hin. unfold clearOneof. apply map_lookup_filter_None. right.
  intros p Hp [?|Hout]; [done|]. rewrite HF in Hp. injection Hp as <-. cbn in Hout. congruence.
Qed.

Lemma Fields_Set_ne (m : Message) (fd : FieldDescriptor) (v : Value) (num : Z) :
  spares fd m num → Fields (Set_ m fd v) !! num = Fields m !! num.
Proof.
  intros [Hne Hspared]. unfold Set_.
  rewrite Fields_WithFields, lookup_partial_alter_ne by done.
  by apply lookup_clearOneof_spared.
Qed.

Lemma Fields_Clear_ne (m : Message) (fd : FieldDescriptor) (num : Z) :
  Number fd ≠ num → Fields (Clear m fd) !! num = Fields m !! num.
Proof.
  intros Hne. unfold Clear. by rewrite Fields_WithFields, lookup_delete_ne.
Qed.

Lemma Fields_doUpdateUnknowns (s : settings) (dst src : Message) :
  Fields (doUpdateUnknowns s dst src) = Fields dst ∧
  Descriptor (doUpdateUnknowns s dst src) = Descriptor dst.
Proof.
  unfold doUpdateUnknowns.
  destruct (updateUnknowns s); [done| |];
    repeat case_match; by rewrite ?Fields_SetUnknown, ?Descriptor_SetUnknown.
Qed.

Lemma Descriptor_Set (m : Message) (fd : FieldDescriptor) (v : Value) :
  Descriptor (Set_ m fd v) = Descriptor m.
Proof. apply Descriptor_WithFields. Qed.

Lemma Descriptor_Clear (m : Message) (fd : FieldDescriptor) :
  Descriptor (Clear m fd) = Descriptor m.
Proof. apply Descriptor_WithFields. Qed.

(** One field mask writes the field of its own descriptor only. *)
Lemma fieldMask_update_frame (sch : Schema) (s : settings) (fm : fieldMask)
    (parent : Message) (value : option Value) (exists_ : bool) (num : Z) :
  spares (fieldMask_desc fm) parent num →
  Fields (fieldMask_update sch s fm parent value exists_) !! num = Fields parent !! num ∧
  Descriptor (fieldMask_update sch s fm parent value exists_) = Descriptor parent.
Proof.
  intros Hne. pose proof (proj1 Hne) as Hnum.
  destruct fm as [desc|desc|desc elemMask|desc fn keys|desc fn wildMask keyedMasks|desc mm];
    cbn [fieldMask_desc] in Hne, Hnum; cbn [fieldMask_update];
    unfold scalarMap_clear, msgMap_clear;
    repeat case_match;
    by rewrite ?Descriptor_Set, ?Descriptor_Clear, ?Fields_Set_ne, ?Fields_Clear_ne by done.
Qed.

Lemma updateField_body_frame (s : settings)
    (from : gmap Z (FieldDescriptor → option (FieldDescriptor * Value)
                    → option (FieldDescriptor * Value)))
    (dst : Message) (fd : FieldDescriptor) (num : Z) :
  (Number fd ≠ num ∧
   (from !! Number fd = None ∨
    ∀ fd' v, Fields dst !! num = Some (fd', v) → inOneofOf fd fd' = false))
  ∨ allow s fd = false →
  Fields (updateField_body s from dst fd) !! num = Fields dst !! num.
Proof.
  intros Hfd. unfold updateField_body.
  destruct (allow s fd) eqn:Hallow; cbn [negb]; [|done].
  destruct Hfd as [[Hne Hspared]|?]; [|done].
  destruct (from !! Number fd) as [upd|] eqn:Hfrom.
  - destruct Hspared as [?|Hspared]; [done|].
    rewrite Fields_WithFields, lookup_partial_alter_ne by done.
    by apply lookup_clearOneof_spared.
  - case_match; [done|]. by rewrite Fields_Clear_ne.
Qed.

Lemma Descriptor_updateField_body (s : settings)
    (from : gmap Z (FieldDescriptor → option (FieldDescriptor * Value)
                    → option (FieldDescriptor * Value)))
    (dst : Message) (fd : FieldDescriptor) :
  Descriptor (updateField_body s from dst fd) = Descriptor dst.
Proof.
  unfold updateField_body. repeat case_match; by rewrite ?Descriptor_WithFields, ?Descriptor_Clear.
Qed.

Lemma updateMessage_eq (sch : Schema) (s : settings) (dst src : Message) :
  updateMessage sch s dst src
  = doUpdateUnknowns s
      (foldl (updateField_body s
                ((λ p, updateFieldFrom s (updateMessage sch s) p.2) <$> Fields src))
             dst (sch (Descriptor dst))) src.
Proof. by destruct src. Qed.

Lemma foldl_updateField_frame (s : settings)
    (from : gmap Z (FieldDescriptor → option (FieldDescriptor * Value)
                    → option (FieldDescriptor * Value)))
    (fds : list FieldDescriptor) (num : Z) : ∀ dst,
  (∀ fd, fd ∈ fds →
     (Number fd ≠ num ∧
      (from !! Number fd = None ∨
       ∀ fd' v, Fields dst !! num = Some (fd', v) → inOneofOf fd fd' = false))
     ∨ allow s fd = false) →
  Fields (foldl (updateField_body s from) dst fds) !! num = Fields dst !! num.
Proof.
  induction fds as [|fd fds IH]; intros dst Hfds; [done|].
  cbn [foldl].
  assert (Fields (updateField_body s from dst fd) !! num = Fields dst !! num) as Hstep
    by (apply updateField_body_frame, Hfds; by left).
  rewrite IH; [done|].
  intros fd' Hin. rewrite Hstep. apply Hfds. by right.
Qed.

Lemma Descriptor_foldl_updateField (s : settings)
    (from : gmap Z (FieldDescriptor → option (FieldDescriptor * Value)
                    → option (FieldDescriptor * Value)))
    (fds : list FieldDescriptor) : ∀ dst,
  Descriptor (foldl (updateField_body s from) dst fds) = Descriptor dst.
Proof.
  induction fds as [|fd fds IH]; intros dst; [done|].
  cbn [foldl]. by rewrite IH, Descriptor_updateField_body.
Qed.

Lemma Descriptor_updateMessage (sch : Schema) (s : settings) (dst src : Message) :
  Descriptor (updateMessage sch s dst src) = Descriptor dst.
Proof.
  rewrite updateMessage_eq.
  rewrite (proj2 (Fields_doUpdateUnknowns s _ src)). apply Descriptor_foldl_updateField.
Qed.

Lemma updateMessage_frame (sch : Schema) (s : settings) (dst src : Message) (num : Z) :
  (∀ fd, fd ∈ sch (Descriptor dst) → spares fd dst num ∨ allow s fd = false) →
  Fields (updateMessage sch s dst src) !! num = Fields dst !! num.
Proof.
  intros Hfds. rewrite updateMessage_eq.
  rewrite (proj1 (Fields_doUpdateUnknowns s _ src)). apply foldl_updateField_frame.
  intros fd Hfd. destruct (Hfds fd Hfd) as [[Hne Hspared]|?]; [left|by right].
  split; [done|]. by right.
Qed.

Lemma msgMask_update_eq (sch : Schema) (s : settings) (mdesc : string)
    (fldDescs : option (list FieldDescriptor)) (fields : gmap string fieldMask)
    (dst src : Message) :
  msgMask_update sch s (MkMsgMask mdesc fldDescs (Some fields)) dst src
  = doUpdateUnknowns s
      (map_fold (λ name mask dst,
                   match doLookupField (lookupField s) (default [] fldDescs) name with
                   | Some (_, fd) => fieldMask_update sch s mask dst (Get src fd) (Has src fd)
                   | None => dst
                   end) dst fields) src.
Proof. reflexivity. Qed.

(** X21.  Update writes where the mask points and nowhere else, but for the
    oneofs.  Through a mask that is not complete, a field of the
    destination is left as it was when every field mask of the record
    mask spares it: the mask is for a field of another number, and what
    the destination holds there is no member of the oneof of the mask's
    field.  The generic update of the complete mask leaves a field alone
    that every field of the destination's message type spares or is an
    extension the settings do not allow.  The message type of the
    destination never changes.  What is not spared is cleared: with the
    mask [string_oneof_field], the destination
    [{int32_field: 1, int32_oneof_field: 5}] and the source
    [{string_oneof_field: x}] of the test schema, [Update] gives
    [{int32_field: 1, string_oneof_field: x}], with and without a path
    to the other member in the mask, and the generic update makes the
    destination equal to the source. *)
Theorem update_frame (sch : Schema) (s : settings) (mm : msgMask) (dst src : Message)
    (num : Z) :
  (∀ fields, mm_fields mm = Some fields →
     (∀ name fld, fields !! name = Some fld → spares (fieldMask_desc fld) dst num) →
     Fields (msgMask_update sch s mm dst src) !! num = Fields dst !! num) ∧
  (msgMask_complete mm = true →
     (∀ fd, fd ∈ sch (Descriptor dst) → spares fd dst num ∨ allow s fd = false) →
     Fields (msgMask_update sch s mm dst src) !! num = Fields dst !! num) ∧
  Descriptor (msgMask_update sch s mm dst src) = Descriptor dst ∧
  (∃ fm,
     Parse testSchema asciiEnv 8 testMessage defaultSettings "string_oneof_field" = Ok fm ∧
     Update testSchema fm (Some oneofDst) (Some oneofSrc) = Some oneofOut) ∧
  (∃ fm,
     Parse testSchema asciiEnv 8 testMessage defaultSettings
       "string_oneof_field,int32_oneof_field" = Ok fm ∧
     Update testSchema fm (Some oneofDst) (Some oneofSrc) = Some oneofOut) ∧
  updateMessage testSchema defaultSettings oneofDst oneofSrc = oneofSrc.
Proof.
  split_and!.
  - destruct mm as [mdesc fldDescs [fields|]]; cbn [mm_fields]; [|done].
    rewrite msgMask_update_eq. rewrite (proj1 (Fields_doUpdateUnknowns s _ src)).
    intros ? [= <-].
    apply (map_fold_weak_ind
             (λ r (m : gmap string fieldMask),
                (∀ name fld, m !! name = Some fld → spares (fieldMask_desc fld) dst num) →
                Fields r !! num = Fields dst !! num)); [done|].
    intros name fld m r Hfresh IH Hmasks.
    assert (Fields r !! num = Fields dst !! num) as Hr.
    { apply IH. intros name' fld' Hlookup. apply (Hmasks name').
      rewrite lookup_insert_ne; [done|]. intros <-. by rewrite Hfresh in Hlookup. }
    rewrite <- Hr.
    destruct (doLookupField _ _ name) as [[? fd]|]; [|done].
    apply fieldMask_update_frame.
    destruct (Hmasks name fld) as [Hne Hspared]; [by rewrite lookup_insert_eq|].
    split; [done|]. by rewrite Hr.
  - destruct mm as [mdesc fldDescs [fields|]]; [done|].
    intros _. apply updateMessage_frame.
  - destruct mm as [mdesc fldDescs [fields|]]; [|apply Descriptor_updateMessage].
    rewrite msgMask_update_eq. rewrite (proj2 (Fields_doUpdateUnknowns s _ src)).
    apply (map_fold_weak_ind (λ r (m : gmap string fieldMask), Descriptor r = Descriptor dst));
      [done|].
    intros name fld m r _ <-.
    destruct (doLookupField _ _ name) as [[? fd]|]; [|done].
    destruct fld; cbn [fieldMask_update]; unfold scalarMap_clear, msgMap_clear;
      repeat case_match; by rewrite ?Descriptor_Set, ?Descriptor_Clear.
  - eexists. split; [vm_compute; reflexivity|]. vm_compute. reflexivity.
  - eexists. split; [vm_compute; reflexivity|]. vm_compute. reflexivity.
  - vm_compute. reflexivity.
Qed.

(** ** What mask and clone never return *)

Lemma store_Some (fd fd' : FieldDescriptor) (v v' : Value) :
  store fd v = Some (fd', v') → fd' = fd ∧ v' = v ∧ populated v = true.
Proof. unfold store. destruct (populated v); [|done]. by intros [= <- <-]. Qed.

(** X18.  Through a record mask that is not complete, [mask] and [clone]
    return a record of the same message type that holds no field beyond
    those the mask names: every field of the result is a populated field
    of the input whose name is a key of the mask and which the settings
    allow, so no extension gets through when extensions are off; and the
    result carries the unknown bytes of the input when the settings
    retain them and none otherwise. *)
Theorem mask_clone_keep_only_selected (s : settings) (mdesc : string)
    (fldDescs : option (list FieldDescriptor)) (fields : gmap string fieldMask)
    (msg : Message) :
  keeps_only_selected s fields msg
    (msgMask_mask s (MkMsgMask mdesc fldDescs (Some fields)) msg) ∧
  keeps_only_selected s fields msg
    (msgMask_clone s (MkMsgMask mdesc fldDescs (Some fields)) msg).
Proof.
  assert (∀ (fs : gmap string (Value → Value)) num fd v,
            dom fs ⊆ dom fields →
            omap (λ p : FieldDescriptor * Value,
                    match fs !! Name p.1 with
                    | Some f => if allow s p.1 then store p.1 (f p.2) else None
                    | None => None
                    end) (Fields msg) !! num = Some (fd, v) →
            allow s fd = true ∧ is_Some (fields !! Name fd) ∧ populated v = true ∧
            ∃ v0, Fields msg !! num = Some (fd, v0)) as Hkept.
  { intros fs num fd v Hdom. rewrite lookup_omap.
    destruct (Fields msg !! num) as [[fd0 v0]|] eqn:Hfield; [|done]. cbn [mbind option_bind fst snd].
    destruct (fs !! Name fd0) as [f|] eqn:Hf; [|done].
    destruct (allow s fd0) eqn:Hallow; [|done].
    intros (-> & -> & Hpop)%store_Some. split_and!; [done| |done|by exists v0].
    apply elem_of_dom, Hdom, elem_of_dom. by exists f. }
  destruct msg as [desc mfields unknown]. cbn [Fields] in Hkept. unfold keeps_only_selected.
  split.
  - cbn [msgMask_mask].
    destruct (retainsUnknowns s); cbn [WithFields SetUnknown Descriptor GetUnknown Fields];
      (split_and!; [done|done|]); intros num fd v; apply Hkept; by rewrite dom_fmap.
  - cbn [msgMask_clone New NewMessage Descriptor].
    destruct (retainsUnknowns s); cbn [WithFields SetUnknown Descriptor GetUnknown Fields];
      (split_and!; [done|done|]); intros num fd v; apply Hkept; by rewrite dom_fmap.
Qed.

(** ** Induction over the mask tree *)

Lemma sum_sizes_lookup `{Countable K} (m : gmap K nat) (k : K) (n : nat) :
  m !! k = Some n → (n ≤ sum_sizes m)%nat.
Proof.
  unfold sum_sizes. revert k n. induction m as [|i x m Hfresh IH] using map_ind; intros k n.
  - by rewrite lookup_empty.
  - rewrite map_fold_insert_L; [|intros; lia|done].
    intros [[<- <-]|[_ Hk]]%lookup_insert_Some; [lia|]. specialize (IH _ _ Hk). lia.
Qed.

Lemma mask_tree_ind (P : msgMask → Prop) (Q : fieldMask → Prop) :
  (∀ d fds, P (MkMsgMask d fds None)) →
  (∀ d fds fields,
     (∀ name fm, fields !! name = Some fm → Q fm) → P (MkMsgMask d fds (Some fields))) →
  (∀ d, Q (scalarFieldMask d)) →
  (∀ d, Q (scalarListFieldMask d)) →
  (∀ d, Q (msgListFieldMask d None)) →
  (∀ d m, P m → Q (msgListFieldMask d (Some m))) →
  (∀ d fn keys, Q (scalarMapFieldMask d fn keys)) →
  (∀ d fn wild keyed,
     (∀ m, wild = Some m → P m) →
     (∀ km k m, keyed = Some km → km !! k = Some m → P m) →
     Q (msgMapFieldMask d fn wild keyed)) →
  (∀ d mm, P mm → Q (msgFieldMask d mm)) →
  (∀ mm, P mm) ∧ (∀ fm, Q fm).
Proof.
  intros Hcomplete Hfields Hscalar Hslist Hlist0 Hlist Hsmap Hmap Hmsg.
  assert (∀ n, (∀ mm, (msgMask_size mm < n)%nat → P mm)
               ∧ (∀ fm, (fieldMask_size fm < n)%nat → Q fm)) as Hsize.
  { induction n as [|n [IHm IHf]]; [split; intros; lia|]. split.
    - intros [d fds [fields|]] Hlt; [|apply Hcomplete].
      apply Hfields. intros name fm Hfm. apply IHf.
      cbn [msgMask_size] in Hlt.
      pose proof (sum_sizes_lookup (fieldMask_size <$> fields) name (fieldMask_size fm)) as Hle.
      rewrite lookup_fmap, Hfm in Hle. specialize (Hle eq_refl). lia.
    - intros [d|d|d [m|]|d fn keys|d fn wild keyed|d mm] Hlt; cbn [fieldMask_size] in Hlt.
      + apply Hscalar.
      + apply Hslist.
      + apply Hlist, IHm. lia.
      + apply Hlist0.
      + apply Hsmap.
      + apply Hmap.
        * intros m ->. apply IHm. lia.
        * intros km k m -> Hm. apply IHm.
          pose proof (sum_sizes_lookup (msgMask_size <$> km) k (msgMask_size m)) as Hle.
          rewrite lookup_fmap, Hm in Hle. specialize (Hle eq_refl). lia.
      + apply Hmsg, IHm. lia. }
  split.
  - intros mm. apply (Hsize (S (msgMask_size mm))). lia.
  - intros fm. apply (Hsize (S (fieldMask_size fm))). lia.
Qed.

(** ** Masking twice, and masking a clone *)

Lemma msgMask_mask_eq (s : settings) (d : string) (fds : option (list FieldDescriptor))
    (fields : gmap string fieldMask) (msg : Message) :
  msgMask_mask s (MkMsgMask d fds (Some fields)) msg
  = let out := WithFields msg (omap (select s (fieldMask_mask s <$> fields)) (Fields msg)) in
    if retainsUnknowns s then out else SetUnknown out "".
Proof. reflexivity. Qed.

Lemma msgMask_clone_eq (s : settings) (d : string) (fds : option (list FieldDescriptor))
    (fields : gmap string fieldMask) (msg : Message) :
  msgMask_clone s (MkMsgMask d fds (Some fields)) msg
  = let out :=
      WithFields (New msg) (omap (select s (fieldMask_clone s <$> fields)) (Fields msg)) in
    if retainsUnknowns s then SetUnknown out (copyBytes (GetUnknown msg)) else out.
Proof. reflexivity. Qed.

(** Selecting with [ms] what was selected with [cs] changes nothing when
    every [ms] function fixes the values its [cs] function returns. *)
Lemma omap_select_absorb (s : settings) (ms cs : gmap string (Value → Value))
    (F : gmap Z (FieldDescriptor * Value)) :
  (∀ name c, cs !! name = Some c → ∃ f, ms !! name = Some f ∧ ∀ v, f (c v) = c v) →
  omap (select s ms) (omap (select s cs) F) = omap (select s cs) F.
Proof.
  intros Hfix. apply map_eq. intros num. rewrite !lookup_omap.
  destruct (F !! num) as [[fd v]|]; [|done]. cbn [mbind option_bind].
  destruct (select s cs (fd, v)) as [[fd' v']|] eqn:Hsel; [|done]. cbn [mbind option_bind].
  unfold select in *. cbn [fst snd] in *.
  destruct (cs !! Name fd) as [c|] eqn:Hc; [|done].
  destruct (allow s fd) eqn:Hallow; [|done].
  apply store_Some in Hsel as (-> & -> & Hpop).
  destruct (Hfix _ _ Hc) as (f & -> & Hf). rewrite Hallow, Hf.
  unfold store. by rewrite Hpop.
Qed.

Lemma onMessage_absorb (f c : Message → Message) (v : Value) :
  (∀ m, f (c m) = c m) → onMessage f (onMessage c v) = onMessage c v.
Proof. intros Hfix. destruct v; cbn [onMessage]; by rewrite ?Hfix. Qed.

Lemma map_imap_absorb (f c : MapKey → option (Message → Message))
    (src : gmap MapKey Value) :
  (∀ k c', c k = Some c' → ∃ f', f k = Some f' ∧ ∀ m, f' (c' m) = c' m) →
  map_imap (λ k v, match f k with Some m => Some (onMessage m v) | None => None end)
    (map_imap (λ k v, match c k with Some m => Some (onMessage m v) | None => None end) src)
  = map_imap (λ k v, match c k with Some m => Some (onMessage m v) | None => None end) src.
Proof.
  intros Hfix. apply map_eq. intros k. rewrite !map_lookup_imap.
  destruct (src !! k) as [v|]; [|done]. cbn [mbind option_bind].
  destruct (c k) as [c'|] eqn:Hc; [|done]. cbn [mbind option_bind].
  destruct (Hfix _ _ Hc) as (f' & -> & Hf). by rewrite onMessage_absorb.
Qed.

Lemma filter_hasKey_idemp (fn : keyFuncs) (keys : gmap keyT bool) (m : gmap MapKey Value) :
  filter (λ kv : MapKey * Value, hasKey fn keys kv.1 = true)
    (filter (λ kv : MapKey * Value, hasKey fn keys kv.1 = true) m)
  = filter (λ kv : MapKey * Value, hasKey fn keys kv.1 = true) m.
Proof. apply map_filter_id. by intros k v [_ ?]%map_lookup_filter_Some. Qed.

Lemma lookupMask_with_Some {A} (fn : keyFuncs) (wild : option A)
    (keyed : option (gmap keyT A)) (k : MapKey) (m : A) :
  lookupMask_with fn wild keyed k = Some m →
  wild = Some m ∨ ∃ km key_, keyed = Some km ∧ km !! key_ = Some m.
Proof.
  unfold lookupMask_with. destruct keyed as [km|]; [|by left].
  destruct (km !! value fn k) as [m'|] eqn:Hm; [|by left].
  intros [= ->]. right. by exists km, (value fn k).
Qed.

(** Masking with the record-valued map mask what one of [mask] and
    [clone] (here [g]) returned for the entries of a map. *)
Lemma msgMap_entries_absorb (s : settings) (g : msgMask → Message → Message)
    (fn : keyFuncs) (wild : option msgMask) (keyed : option (gmap keyT msgMask))
    (src : gmap MapKey Value) :
  (∀ m, wild = Some m → ∀ msg, msgMask_mask s m (g m msg) = g m msg) →
  (∀ km k m, keyed = Some km → km !! k = Some m →
     ∀ msg, msgMask_mask s m (g m msg) = g m msg) →
  map_imap (λ k v,
              match lookupMask_with fn (msgMask_mask s <$> wild)
                      (fmap (M := gmap keyT) (msgMask_mask s) <$> keyed) k with
              | Some m => Some (onMessage m v)
              | None => None
              end)
    (map_imap (λ k v,
                 match lookupMask_with fn (g <$> wild)
                         (fmap (M := gmap keyT) g <$> keyed) k with
                 | Some m => Some (onMessage m v)
                 | None => None
                 end) src)
  = map_imap (λ k v,
                match lookupMask_with fn (g <$> wild)
                        (fmap (M := gmap keyT) g <$> keyed) k with
                | Some m => Some (onMessage m v)
                | None => None
                end) src.
Proof.
  intros Hwild Hkeyed.
  apply (map_imap_absorb
           (lookupMask_with fn (msgMask_mask s <$> wild)
              (fmap (M := gmap keyT) (msgMask_mask s) <$> keyed))
           (lookupMask_with fn (g <$> wild) (fmap (M := gmap keyT) g <$> keyed))).
  intros k c'. rewrite !lookupMask_with_fmap.
  destruct (lookupMask_with fn wild keyed k) as [m|] eqn:Hm; [|done].
  intros [= <-]. exists (msgMask_mask s m). split; [done|].
  apply lookupMask_with_Some in Hm as [->|(km & key_ & -> & Hm)]; eauto.
Qed.

Lemma mask_idempotent (s : settings) :
  (∀ mm msg, msgMask_mask s mm (msgMask_mask s mm msg) = msgMask_mask s mm msg) ∧
  (∀ fm v, fieldMask_mask s fm (fieldMask_mask s fm v) = fieldMask_mask s fm v).
Proof.
  apply mask_tree_ind.
  - done.
  - intros d fds fields IH [desc F u]. rewrite !msgMask_mask_eq. cbn zeta.
    assert (omap (select s (fieldMask_mask s <$> fields))
              (omap (select s (fieldMask_mask s <$> fields)) F)
            = omap (select s (fieldMask_mask s <$> fields)) F) as Habsorb.
    { apply omap_select_absorb. intros name c. rewrite lookup_fmap.
      intros (fm & Hfm & ->)%fmap_Some. exists (fieldMask_mask s fm). rewrite Hfm.
      split; [done|]. by apply (IH name). }
    destruct (retainsUnknowns s); cbn [WithFields SetUnknown Fields]; by rewrite Habsorb.
  - done.
  - done.
  - done.
  - intros d m IH [| | | | |l|]; try done. cbn [fieldMask_mask]. f_equal.
    rewrite <- list_fmap_compose. apply list_fmap_ext. intros _ x _. cbn.
    by apply onMessage_absorb.
  - intros d fn [keys|] [| | | | | |m]; try done. cbn [fieldMask_mask].
    by rewrite filter_hasKey_idemp.
  - intros d fn wild keyed IHw IHk v.
    destruct wild as [w|], keyed as [km|], v as [| | | | | |src]; try done;
      cbn [fieldMask_mask]; f_equal;
      by apply (msgMap_entries_absorb s (msgMask_mask s) fn _ _ src).
  - intros d mm IH v. cbn [fieldMask_mask]. by apply onMessage_absorb.
Qed.

Lemma mask_of_clone (s : settings) :
  (∀ mm msg, msgMask_mask s mm (msgMask_clone s mm msg) = msgMask_clone s mm msg) ∧
  (∀ fm v, fieldMask_mask s fm (fieldMask_clone s fm v) = fieldMask_clone s fm v).
Proof.
  apply mask_tree_ind.
  - done.
  - intros d fds fields IH [desc F u]. rewrite msgMask_clone_eq. cbn zeta.
    assert (omap (select s (fieldMask_mask s <$> fields))
              (omap (select s (fieldMask_clone s <$> fields)) F)
            = omap (select s (fieldMask_clone s <$> fields)) F) as Habsorb.
    { apply omap_select_absorb. intros name c. rewrite !lookup_fmap.
      intros (fm & Hfm & ->)%fmap_Some. exists (fieldMask_mask s fm). rewrite Hfm.
      split; [done|]. by apply (IH name). }
    destruct (retainsUnknowns s) eqn:Hretain;
      cbn [New NewMessage Descriptor WithFields SetUnknown GetUnknown];
      rewrite msgMask_mask_eq, Hretain; cbn [WithFields SetUnknown Fields];
      by rewrite Habsorb.
  - done.
  - done.
  - done.
  - intros d m IH [| | | | |l|]; try done. cbn [fieldMask_mask fieldMask_clone app]. f_equal.
    rewrite <- list_fmap_compose. apply list_fmap_ext. intros _ x _. cbn.
    by apply onMessage_absorb.
  - intros d fn [keys|] [| | | | | |m]; try done. cbn [fieldMask_mask fieldMask_clone].
    rewrite (fmap_fixed cloneBytesValue) by (intros; apply cloneBytesValue_id).
    destruct (isBytesKind (ElemKind d)); by rewrite filter_hasKey_idemp.
  - intros d fn wild keyed IHw IHk v.
    destruct wild as [w|], keyed as [km|], v as [| | | | | |src]; try done;
      cbn [fieldMask_mask fieldMask_clone]; f_equal;
      by apply (msgMap_entries_absorb s (msgMask_clone s) fn _ _ src).
  - intros d mm IH v. cbn [fieldMask_mask fieldMask_clone]. by apply onMessage_absorb.
Qed.

(** X19.  Masking is idempotent: a record that has been masked is left as it
    is when it is masked again with the same mask, whatever the mask,
    the settings and the record. *)
Theorem Mask_idempotent (fm : FieldMask) (msg : option Message) :
  Mask fm (Mask fm msg) = Mask fm msg.
Proof.
  destruct msg as [m|]; [|done]. cbn [Mask]. f_equal. apply mask_idempotent.
Qed.

(** X20.  What [Clone] returns is masked already: masking the clone with the
    same mask changes nothing, whatever the mask, the settings and the
    record. *)
Theorem Mask_of_Clone (fm : FieldMask) (msg : option Message) :
  Mask fm (Clone fm msg) = Clone fm msg.
Proof.
  destruct msg as [m|]; [|done]. cbn [Mask Clone]. f_equal. apply mask_of_clone.
Qed.

(** ** The generic copy *)

Lemma Descriptor_copyMessage (s : settings) (dst src : Message) :
  Descriptor (copyMessage s dst src) = Descriptor dst.
Proof.
  destruct src as [desc fields unknown]. rewrite copyMessage_eq. cbn zeta.
  destruct (retainsUnknowns s); by rewrite ?Descriptor_SetUnknown, Descriptor_WithFields.
Qed.

Lemma well_typed_fits (fd : FieldDescriptor) (v : Value) : well_typed fd v → fits fd v.
Proof.
  unfold well_typed, fits, elem_fits.
  destruct (Card fd), v, (ElemMessage fd); try done; intros [? ?]; by split.
Qed.

(** The fields of a copy into a fresh record. *)
Lemma copyMessage_fresh (s : settings) (name desc : string)
    (fields : gmap Z (FieldDescriptor * Value)) (unknown : string) :
  copyMessage s (NewMessage name) (MkMessage desc fields unknown)
  = MkMessage name
      (omap (λ p : FieldDescriptor * Value, copyField s (copyMessage s) p.1 p.2 None) fields)
      (if retainsUnknowns s then unknown else "").
Proof.
  rewrite copyMessage_eq. unfold NewMessage. cbn [Fields WithFields].
  rewrite merge_empty_r. cbn zeta.
  assert (omap (flip (λ sv dv,
                  match sv with
                  | Some (fd, val) => copyField s (copyMessage s) fd val dv
                  | None => dv
                  end) None ∘ Some) fields
          = omap (λ p : FieldDescriptor * Value,
                    copyField s (copyMessage s) p.1 p.2 None) fields) as ->.
  { apply map_eq. intros num. rewrite !lookup_omap. by destruct (fields !! num) as [[fd v]|]. }
  by destruct (retainsUnknowns s).
Qed.

Lemma is_scalar_populated (v : Value) : is_scalar v = true → populated v = true.
Proof. by destruct v. Qed.

Lemma fmap_nonempty {A B} (f : A → B) (m : gmap MapKey A) : m ≠ ∅ → f <$> m ≠ ∅.
Proof. intros Hne Hempty. by apply fmap_empty_inv in Hempty. Qed.

(** One visit of the [Range] of [copyMessage] into a fresh record, for
    a field that holds a value of its type. *)
Lemma copyField_fresh (s : settings) (fd : FieldDescriptor) (v : Value) :
  well_typed fd v →
  copyField s (copyMessage s) fd v None
  = if allow s fd then Some (fd, copyValue s fd v) else None.
Proof.
  intros Htyped. unfold copyField. destruct (allow s fd); [|done]. cbn [negb].
  unfold well_typed in Htyped. unfold IsList, IsMap, copyValue, copyElem.
  destruct (Card fd) as [| |kind].
  - unfold elem_fits in Htyped. destruct (ElemMessage fd) as [name|].
    + by destruct Htyped as (m & -> & _).
    + rewrite cloneBytesValue_id. unfold store. rewrite is_scalar_populated by done.
      destruct (isBytesKind (ElemKind fd)); by destruct v.
  - destruct v as [| | | | |l|]; try done. destruct Htyped as [Hne _].
    change (asList (snd <$> None)) with (@nil Value). unfold copyList_body.
    assert (∀ l' : list Value, l' ≠ [] → store fd (ValueOfList l') = Some (fd, ValueOfList l'))
      as Hstore by (intros l' ?; unfold store; by rewrite populated_list).
    destruct (ElemMessage fd) as [name|]; cbn [app].
    + apply Hstore. by destruct l.
    + rewrite (map_fixed cloneBytesValue) by (intros; apply cloneBytesValue_id).
      rewrite list_fmap_id. destruct (isBytesKind (ElemKind fd)); by apply Hstore.
  - destruct v as [| | | | | |mp]; try done. destruct Htyped as [Hne _].
    change (asMap (snd <$> None)) with (∅ : gmap MapKey Value). unfold copyMap_body.
    assert (∀ mp' : gmap MapKey Value, mp' ≠ ∅ →
              store fd (ValueOfMap mp') = Some (fd, ValueOfMap mp'))
      as Hstore by (intros mp' ?; unfold store; by rewrite populated_map).
    destruct (ElemMessage fd) as [name|]; rewrite ?(right_id_L ∅ (∪)).
    + apply Hstore. by apply fmap_nonempty.
    + rewrite (fmap_fixed cloneBytesValue) by (intros; apply cloneBytesValue_id).
      rewrite map_fmap_id. destruct (isBytesKind (ElemKind fd)); by apply Hstore.
Qed.

Lemma copyElem_fits (s : settings) (fd : FieldDescriptor) (x : Value) :
  elem_fits fd x → elem_fits fd (copyElem s fd x).
Proof.
  unfold elem_fits, copyElem. destruct (ElemMessage fd) as [name|]; [|done].
  intros (m & -> & _). eexists. split; [done|]. apply Descriptor_copyMessage.
Qed.

Lemma copyValue_singular (s : settings) (fd : FieldDescriptor) (v : Value) :
  elem_fits fd v → copyValue s fd v = copyElem s fd v.
Proof.
  unfold elem_fits. destruct (ElemMessage fd) as [name|].
  - by intros (m & -> & _).
  - by destruct v.
Qed.

Lemma copyValue_well_typed (s : settings) (fd : FieldDescriptor) (v : Value) :
  well_typed fd v → well_typed fd (copyValue s fd v).
Proof.
  unfold well_typed. destruct (Card fd) as [| |kind].
  - intros Hfits. rewrite copyValue_singular by done. by apply copyElem_fits.
  - destruct v as [| | | | |l|]; try done. intros [Hne Helems]. cbn [copyValue]. split.
    + by destruct l.
    + intros x' (x & -> & Hx)%list_elem_of_fmap. by apply copyElem_fits, Helems.
  - destruct v as [| | | | | |mp]; try done. intros [Hne Helems]. cbn [copyValue]. split.
    + by apply fmap_nonempty.
    + intros k x'. rewrite lookup_fmap. intros (x & Hx & ->)%fmap_Some.
      by eapply copyElem_fits, Helems.
Qed.

Lemma copyElem_message (s : settings) (fd : FieldDescriptor) (x : Value) (m' : Message) :
  elem_fits fd x → copyElem s fd x = ValueOfMessage m' →
  ∃ m name, x = ValueOfMessage m ∧ m' = copyMessage s (NewMessage name) m.
Proof.
  unfold elem_fits, copyElem. destruct (ElemMessage fd) as [name|].
  - intros (m & -> & _) [= <-]. by exists m, name.
  - intros Hscalar ->. done.
Qed.

Lemma copyValue_sub_message (s : settings) (fd : FieldDescriptor) (v : Value) (m' : Message) :
  well_typed fd v → sub_message (copyValue s fd v) m' →
  ∃ m name, sub_message v m ∧ m' = copyMessage s (NewMessage name) m.
Proof.
  unfold well_typed. destruct (Card fd) as [| |kind].
  - intros Hfits Hsub. rewrite copyValue_singular in Hsub by done.
    assert (copyElem s fd v = ValueOfMessage m') as Hcopy.
    { pose proof (copyElem_fits s fd v Hfits) as Hfits'. unfold elem_fits in Hfits'.
      destruct (ElemMessage fd) as [name|].
      - destruct Hfits' as (c & Hc & _). rewrite Hc in Hsub |- *. cbn in Hsub. by rewrite Hsub.
      - by destruct (copyElem s fd v). }
    destruct (copyElem_message s fd v m' Hfits Hcopy) as (m & name & -> & ->).
    by exists m, name.
  - destruct v as [| | | | |l|]; try done. intros [_ Helems]. cbn [copyValue sub_message].
    intros (x & Hcopy & Hx)%list_elem_of_fmap.
    destruct (copyElem_message s fd x m' (Helems x Hx) (eq_sym Hcopy)) as (m & name & -> & ->).
    by exists m, name.
  - destruct v as [| | | | | |mp]; try done. intros [_ Helems]. cbn [copyValue sub_message].
    intros [k Hk]. rewrite lookup_fmap in Hk. apply fmap_Some in Hk as (x & Hx & Hcopy).
    destruct (copyElem_message s fd x m' (Helems k x Hx) (eq_sym Hcopy)) as (m & name & -> & ->).
    exists m, name. split; [by exists k|done].
Qed.

Lemma copyMessage_retained (s : settings) (m : Message) :
  typed m → ∀ name, fully_retained s (copyMessage s (NewMessage name) m).
Proof.
  induction 1 as [desc fields unknown Hfields _ IH]. intros name.
  rewrite copyMessage_fresh. constructor.
  - by intros ->.
  - intros num fd v'. rewrite lookup_omap.
    destruct (fields !! num) as [[fd0 v]|] eqn:Hnum; [|done]. cbn [mbind option_bind fst snd].
    rewrite copyField_fresh by eauto. destruct (allow s fd0) eqn:Hallow; [|done].
    intros [= <- <-]. split; [done|]. by eapply well_typed_fits, copyValue_well_typed, Hfields.
  - intros num fd v' m'. rewrite lookup_omap.
    destruct (fields !! num) as [[fd0 v]|] eqn:Hnum; [|done]. cbn [mbind option_bind fst snd].
    rewrite copyField_fresh by eauto. destruct (allow s fd0) eqn:Hallow; [|done].
    intros [= <- <-] Hsub.
    destruct (copyValue_sub_message s fd0 v m' (Hfields _ _ _ Hnum) Hsub)
      as (m & name' & Hm & ->).
    by eapply IH.
Qed.

(** X23.  The generic copy of a typed record into a fresh record holds
    nothing that the settings drop, at any depth: no unknown bytes unless
    they are retained, no extension unless extensions are allowed.  So
    the copy is idempotent, and so is [Clone] with the complete mask. *)
Theorem copyMessage_idempotent (s : settings) (m : Message) (name : string) :
  typed m →
  let c := copyMessage s (NewMessage name) m in
  fully_retained s c ∧ Descriptor c = name ∧ copyMessage s (NewMessage name) c = c ∧
  (∀ sch root,
     let fm := newFieldMaskT sch root s in
     Clone fm (Clone fm (Some m)) = Clone fm (Some m)).
Proof.
  intros Htyped c.
  assert (∀ name', copyMessage s (NewMessage name') (copyMessage s (NewMessage name') m)
                   = copyMessage s (NewMessage name') m) as Hidem.
  { intros name'.
    pose proof (copyMessage_fully_retained s _ (copyMessage_retained s m Htyped name')) as Hc.
    unfold New in Hc. by rewrite Descriptor_copyMessage in Hc. }
  split_and!.
  - by apply copyMessage_retained.
  - apply Descriptor_copyMessage.
  - apply Hidem.
  - intros sch root fm. cbn [Clone fm fm_msg fm_settings newFieldMaskT newMsgMask msgMask_clone].
    f_equal. unfold New at 1. rewrite Descriptor_copyMessage. apply Hidem.
Qed.


Lemma copyMessage_idempotent_witness :
  let c := copyMessage defaultSettings (NewMessage testMessage) withUnknown in
  fully_retained defaultSettings c ∧ Descriptor c = testMessage ∧
  copyMessage defaultSettings (NewMessage testMessage) c = c ∧
  (∀ sch root,
     let fm := newFieldMaskT sch root defaultSettings in
     Clone fm (Clone fm (Some withUnknown)) = Clone fm (Some withUnknown)).
Proof.
  apply (copyMessage_idempotent defaultSettings withUnknown testMessage).
  unfold withUnknown, msgOf. simpl. constructor.
  - intros num fd v [[<- [= <- <-]]|[_ H]]%lookup_insert_Some; [done|].
    by rewrite lookup_empty in H.
  - intros num fd v m [[<- [= <- <-]]|[_ H]]%lookup_insert_Some; [done|].
    by rewrite lookup_empty in H.
Defined.

(** ** The generic update as an assignment *)

Lemma updateField_body_at (s : settings)
    (from : gmap Z (FieldDescriptor → option (FieldDescriptor * Value)
                    → option (FieldDescriptor * Value)))
    (dst : Message) (fd : FieldDescriptor) :
  allow s fd = true →
  Fields (updateField_body s from dst fd) !! Number fd
  = match from !! Number fd with
    | None => if (IsList fd && appendsRepeated s)%bool then Fields dst !! Number fd else None
    | Some upd => upd fd (Fields dst !! Number fd)
    end.
Proof.
  intros Hallow. unfold updateField_body. rewrite Hallow. cbn [negb].
  destruct (from !! Number fd) as [upd|].
  - by rewrite Fields_WithFields, lookup_partial_alter_eq, lookup_clearOneof_eq.
  - destruct (IsList fd && appendsRepeated s)%bool; [done|].
    unfold Clear. by rewrite Fields_WithFields, lookup_delete_eq.
Qed.

(** A visit of [updateField] for another field leaves a field as it
    was or clears it. *)
Lemma updateField_body_other (s : settings)
    (from : gmap Z (FieldDescriptor → option (FieldDescriptor * Value)
                    → option (FieldDescriptor * Value)))
    (dst : Message) (fd : FieldDescriptor) (num : Z) :
  Number fd ≠ num →
  Fields (updateField_body s from dst fd) !! num = Fields dst !! num ∨
  Fields (updateField_body s from dst fd) !! num = None.
Proof.
  intros Hne. unfold updateField_body. repeat case_match; try by left.
  - rewrite Fields_WithFields, lookup_partial_alter_ne by done. apply lookup_clearOneof_cases.
  - left. by rewrite Fields_Clear_ne.
Qed.

(** The field of [fd] after the loop of [updateMessage], in the
    replacing mode: cleared when the source does not hold it; else what
    the [switch] makes of it, from the field as the destination held it
    or from the cleared field, provided no later visit clears what the
    [switch] stored. *)
Lemma foldl_updateField_at (s : settings)
    (from : gmap Z (FieldDescriptor → option (FieldDescriptor * Value)
                    → option (FieldDescriptor * Value)))
    (fds : list FieldDescriptor) (fd : FieldDescriptor) : ∀ dst,
  NoDup (Number <$> fds) → fd ∈ fds → (∀ fd1, fd1 ∈ fds → allow s fd1 = true) →
  appendsRepeated s = false →
  match from !! Number fd with
  | None => Fields (foldl (updateField_body s from) dst fds) !! Number fd = None
  | Some upd =>
      (∀ fd1 dv fd' v, fd1 ∈ fds → Number fd1 ≠ Number fd → is_Some (from !! Number fd1) →
         upd fd dv = Some (fd', v) → inOneofOf fd1 fd' = false) →
      ∃ dv, (dv = Fields dst !! Number fd ∨ dv = None) ∧
        Fields (foldl (updateField_body s from) dst fds) !! Number fd = upd fd dv
  end.
Proof.
  intros dst Hnodup Hin Hallow Happend. revert dst Hnodup Hin Hallow.
  induction fds as [|fd1 fds IH]; intros dst Hnodup Hin Hallow; [by apply elem_of_nil in Hin|].
  rewrite fmap_cons in Hnodup. apply NoDup_cons in Hnodup as [Hfresh Hnodup].
  cbn [foldl]. apply elem_of_cons in Hin as [<-|Hin].
  - pose proof (updateField_body_at s from dst fd (Hallow fd (list_elem_of_here _ _))) as Hat.
    rewrite Happend, andb_false_r in Hat.
    assert (∀ fd', fd' ∈ fds → Number fd' ≠ Number fd) as Hother.
    { intros fd' Hfd' Heq. apply Hfresh. rewrite <- Heq. by apply list_elem_of_fmap_2. }
    destruct (from !! Number fd) as [upd|] eqn:Hfrom.
    + intros Hlater. exists (Fields dst !! Number fd). split; [by left|].
      rewrite foldl_updateField_frame; [done|].
      intros fd' Hfd'. left. split; [by apply Hother|].
      destruct (from !! Number fd') as [upd'|] eqn:Hfrom'; [right|by left].
      intros fd'' v. rewrite Hat. intros Hupd.
      eapply (Hlater fd'); [by right|by apply Hother|by rewrite Hfrom'|done].
    + rewrite foldl_updateField_frame; [done|].
      intros fd' Hfd'. left. split; [by apply Hother|]. right.
      intros fd'' v. by rewrite Hat.
  - assert (Number fd1 ≠ Number fd) as Hne.
    { intros Heq. apply Hfresh. rewrite Heq. by apply list_elem_of_fmap_2. }
    specialize (IH (updateField_body s from dst fd1) Hnodup Hin
                  (λ fd' Hfd', Hallow fd' (list_elem_of_further _ _ _ Hfd'))).
    destruct (from !! Number fd) as [upd|] eqn:Hfrom; [|done].
    intros Hlater.
    destruct IH as (dv & Hdv & Hout).
    { intros fd' dv fd'' v Hfd'. apply Hlater. by right. }
    exists dv. split; [|done].
    destruct Hdv as [->| ->]; [|by right].
    destruct (updateField_body_other s from dst fd1 (Number fd) Hne) as [->| ->];
      [by left|by right].
Qed.

Lemma NoDup_number_inj (fds : list FieldDescriptor) (fd fd' : FieldDescriptor) :
  NoDup (Number <$> fds) → fd ∈ fds → fd' ∈ fds → Number fd = Number fd' → fd = fd'.
Proof.
  intros Hnodup Hfd Hfd' Heq.
  apply list_elem_of_lookup in Hfd as [i Hi], Hfd' as [j Hj].
  assert (i = j) as ->; [|congruence].
  eapply NoDup_lookup; [done| |]; rewrite list_lookup_fmap; [by rewrite Hi|].
  by rewrite Hj, Heq.
Qed.

Lemma Message_ext (m : Message) (D : string) (F : gmap Z (FieldDescriptor * Value))
    (u : string) :
  Descriptor m = D → Fields m = F → GetUnknown m = u → m = MkMessage D F u.
Proof. destruct m. cbn. by intros -> -> ->. Qed.

Lemma GetUnknown_SetUnknown (m : Message) (u : string) : GetUnknown (SetUnknown m u) = u.
Proof. by destruct m. Qed.

Lemma GetUnknown_updateField_body (s : settings)
    (from : gmap Z (FieldDescriptor → option (FieldDescriptor * Value)
                    → option (FieldDescriptor * Value)))
    (dst : Message) (fd : FieldDescriptor) :
  GetUnknown (updateField_body s from dst fd) = GetUnknown dst.
Proof.
  unfold updateField_body, Clear. repeat case_match; by rewrite ?GetUnknown_WithFields.
Qed.

Lemma GetUnknown_foldl_updateField (s : settings)
    (from : gmap Z (FieldDescriptor → option (FieldDescriptor * Value)
                    → option (FieldDescriptor * Value)))
    (fds : list FieldDescriptor) : ∀ dst,
  GetUnknown (foldl (updateField_body s from) dst fds) = GetUnknown dst.
Proof.
  induction fds as [|fd fds IH]; intros dst; [done|].
  cbn [foldl]. by rewrite IH, GetUnknown_updateField_body.
Qed.

Lemma sub_message_descriptor (fd : FieldDescriptor) (v : Value) (name : string) (m : Message) :
  well_typed fd v → ElemMessage fd = Some name → sub_message v m → Descriptor m = name.
Proof.
  unfold well_typed, elem_fits. intros Htyped Hname. rewrite Hname in Htyped.
  destruct (Card fd) as [| |kind].
  - destruct Htyped as (m' & -> & Hdesc). by intros <-.
  - destruct v as [| | | | |l|]; try done. destruct Htyped as [_ Helems]. cbn.
    intros Hin. by destruct (Helems _ Hin) as (m' & [= <-] & Hdesc).
  - destruct v as [| | | | | |mp]; try done. destruct Htyped as [_ Helems]. cbn.
    intros [k Hk]. by destruct (Helems _ _ Hk) as (m' & [= <-] & Hdesc).
Qed.

Lemma updateMap_body_assigns (um : Message → Message → Message)
    (dst src : gmap MapKey Value) (fd : FieldDescriptor) :
  (∀ name k x, ElemMessage fd = Some name → src !! k = Some x →
     updateElemMessage um name x = x) →
  updateMap_body um dst src fd = src.
Proof.
  intros Helems. unfold updateMap_body.
  assert (∀ src' : gmap MapKey Value, dom src' = dom src →
            src' ∪ filter (λ kv : MapKey * Value, is_Some (src !! kv.1)) dst = src') as Hunion.
  { intros src' Hdom. apply map_eq. intros k. rewrite lookup_union.
    destruct (src' !! k) as [x|] eqn:Hk; [by destruct (filter _ dst !! k)|].
    rewrite map_lookup_filter_None_2; [done|]. right. intros v _ [x Hx]. cbn in Hx.
    apply not_elem_of_dom in Hk. rewrite Hdom in Hk. apply not_elem_of_dom in Hk. congruence. }
  destruct (ElemMessage fd) as [name|].
  - rewrite Hunion by apply dom_fmap_L. apply fmap_fixed. intros k x Hk. by eapply Helems.
  - by apply Hunion.
Qed.

(** The [switch] of [updateField] on a field of the source that holds a
    value of its type, in the replacing mode: the field of the
    destination becomes the field of the source, provided the update of
    the records below does the same. *)
Lemma updateFieldFrom_assigns (s : settings) (um : Message → Message → Message)
    (fd : FieldDescriptor) (v : Value) (dv : option (FieldDescriptor * Value)) :
  appendsRepeated s = false → well_typed fd v →
  (∀ name m, ElemMessage fd = Some name → sub_message v m →
     um (NewMessage name) m = m ∧ um (asMessage name (snd <$> dv)) m = m) →
  updateFieldFrom s um v fd dv = Some (fd, v).
Proof.
  intros Happend Htyped Hsub. unfold updateFieldFrom, IsList, IsMap.
  unfold well_typed in Htyped. destruct (Card fd) as [| |kind] eqn:Hcard.
  - unfold elem_fits in Htyped. destruct (ElemMessage fd) as [name|] eqn:Hname.
    + destruct Htyped as (m & -> & _). by rewrite (proj2 (Hsub name m eq_refl eq_refl)).
    + unfold store. by rewrite is_scalar_populated.
  - destruct v as [| | | | |l|]; try done. destruct Htyped as [Hne Helems].
    unfold updateList_body. rewrite Happend.
    assert (∀ l' : list Value, l' = l → store fd (ValueOfList l') = Some (fd, ValueOfList l))
      as Hstore by (intros l' ->; unfold store; by rewrite populated_list).
    destruct (ElemMessage fd) as [name|] eqn:Hname; cbn [app]; apply Hstore; [|done].
    apply map_fixed. intros x Hx. unfold elem_fits in Helems. rewrite Hname in Helems.
    destruct (Helems x Hx) as (m & -> & _). cbn [updateElemMessage].
    by rewrite (proj1 (Hsub name m eq_refl Hx)).
  - destruct v as [| | | | | |mp]; try done. destruct Htyped as [Hne Helems].
    rewrite updateMap_body_assigns.
    + unfold store. by rewrite populated_map.
    + intros name k x Hname Hk. unfold elem_fits in Helems. rewrite Hname in Helems.
      destruct (Helems k x Hk) as (m & -> & _). cbn [updateElemMessage].
      rewrite (proj1 (Hsub name m Hname (ex_intro _ k Hk))). done.
Qed.

(** The [switch] of [updateField] stores a value of the field's type
    under the descriptor of the field. *)
Lemma updateFieldFrom_desc (s : settings) (um : Message → Message → Message)
    (fd fd' : FieldDescriptor) (v v' : Value) (dv : option (FieldDescriptor * Value)) :
  well_typed fd v → updateFieldFrom s um v fd dv = Some (fd', v') → fd' = fd.
Proof.
  assert (∀ x, store fd x = Some (fd', v') → fd' = fd) as Hstore.
  { intros x. unfold store. case_match; [|done]. by intros [= <- _]. }
  unfold well_typed, elem_fits, updateFieldFrom, IsList, IsMap.
  destruct (Card fd) as [| |kind].
  - destruct (ElemMessage fd) as [name|]; [|by intros _ ?%Hstore].
    intros (m & -> & _). apply Hstore.
  - destruct v; try done. intros _. apply Hstore.
  - destruct v; try done. intros _. apply Hstore.
Qed.

Lemma conforms_NewMessage (sch : Schema) (name : string) : conforms sch (NewMessage name).
Proof. constructor; intros num; intros; by rewrite lookup_empty in *. Qed.

Lemma no_unknown_NewMessage (name : string) : no_unknown (NewMessage name).
Proof. constructor. intros num fd v m. by rewrite lookup_empty. Qed.

Lemma updateMessage_assigns (sch : Schema) (s : settings) (src : Message) :
  assigning sch s → conforms sch src →
  ∀ dst, conforms sch dst → Descriptor dst = Descriptor src → unknowns_agree s dst src →
  updateMessage sch s dst src = src.
Proof.
  intros (Hrep & Hallow & Hnodup).
  assert (appendsRepeated s = false) as Happend by (unfold appendsRepeated; by rewrite Hrep).
  induction 1 as [D F u HF Honeof _ IH]. intros dst Hdst Hdesc Hunk. cbn [Descriptor] in Hdesc.
  rewrite updateMessage_eq, Hdesc. cbn [Fields].
  set (from := (λ p : FieldDescriptor * Value,
                  updateFieldFrom s (updateMessage sch s) p.2) <$> F).
  set (R := foldl (updateField_body s from) dst (sch D)).
  assert (Fields R = F) as HR.
  { apply map_eq. intros num. unfold R.
    destruct (F !! num) as [[fd v]|] eqn:Hnum.
    - destruct (HF _ _ _ Hnum) as (Hin & <- & Htyped).
      pose proof (foldl_updateField_at s from (sch D) fd dst (Hnodup D) Hin (Hallow D) Happend)
        as Hat.
      assert (from !! Number fd = Some (updateFieldFrom s (updateMessage sch s) v)) as Hfrom
        by (unfold from; by rewrite lookup_fmap, Hnum).
      rewrite Hfrom in Hat.
      destruct Hat as (dv & Hdv & ->).
      { intros fd1 dv fd' v' Hfd1 Hne [upd Hupd] Hstored.
        apply (updateFieldFrom_desc _ _ _ _ _ _ _ Htyped) in Hstored as ->.
        unfold from in Hupd. rewrite lookup_fmap in Hupd.
        destruct (F !! Number fd1) as [[fd1' v1]|] eqn:Hnum1; [|done].
        destruct (HF _ _ _ Hnum1) as (Hin1 & Heq1 & _).
        assert (fd1' = fd1) as -> by (by eapply NoDup_number_inj).
        by eapply (Honeof (Number fd1) (Number fd)). }
      apply updateFieldFrom_assigns; [done..|].
      intros name m Hname Hsub.
      pose proof (sub_message_descriptor _ _ _ _ Htyped Hname Hsub) as Hm.
      assert (∀ d, no_unknown d → unknowns_agree s d m) as Hagree.
      { intros d Hd. destruct Hunk as [?|[_ Hsrc]]; [by left|right]. split; [done|].
        inversion Hsrc as [? ? Hsubs]; subst. by eapply Hsubs. }
      assert (updateMessage sch s (NewMessage name) m = m) as Hnew.
      { apply (IH _ _ _ _ Hnum Hsub); [apply conforms_NewMessage|done|].
        apply Hagree, no_unknown_NewMessage. }
      split; [done|].
      destruct Hdv as [->| ->]; [|done].
      destruct (Fields dst !! Number fd) as [[fdd vd]|] eqn:Hd;
        cbn [fmap option_fmap option_map snd asMessage]; [|done].
      destruct vd as [| | | |d0| |]; try done.
      inversion Hdst as [Dd Fd ud HFd Honeofd Hsubd Heq]; subst dst.
      cbn [Fields Descriptor] in *.
      subst Dd. destruct (HFd _ _ _ Hd) as (Hind & Hnumd & Htypedd).
      assert (fdd = fd) as -> by (by eapply NoDup_number_inj).
      apply (IH _ _ _ _ Hnum Hsub).
      + by eapply (Hsubd _ _ _ d0 Hd).
      + rewrite Hm. by eapply (sub_message_descriptor fd (ValueOfMessage d0)).
      + destruct Hunk as [?|[Hnd Hsrc]]; [by left|]. apply Hagree.
        inversion Hnd as [? ? Hsubs]; subst. by eapply (Hsubs _ _ _ d0 Hd).
    - destruct (decide (num ∈ Number <$> sch D)) as [Hin|Hnot].
      + apply list_elem_of_fmap in Hin as (fd & -> & Hin).
        pose proof (foldl_updateField_at s from (sch D) fd dst (Hnodup D) Hin (Hallow D) Happend)
          as Hat.
        assert (from !! Number fd = None) as Hfrom
          by (unfold from; by rewrite lookup_fmap, Hnum).
        by rewrite Hfrom in Hat.
      + assert (Fields dst !! num = None) as Hd.
        { destruct (Fields dst !! num) as [[fdd vd]|] eqn:Hd; [|done].
          inversion Hdst as [Dd Fd ud HFd Honeofd Hsubd Heq]; subst dst.
          cbn [Fields Descriptor] in *.
          subst Dd. destruct (HFd _ _ _ Hd) as (Hind & Hnumd & _). destruct Hnot.
          rewrite <- Hnumd. by apply list_elem_of_fmap_2. }
        rewrite foldl_updateField_frame; [done|].
        intros fd Hfd. left. split.
        * intros <-. apply Hnot. by apply list_elem_of_fmap_2.
        * right. intros fd' v. by rewrite Hd. }
  assert (Descriptor R = D) as HD
    by (unfold R; by rewrite Descriptor_foldl_updateField).
  assert (GetUnknown R = GetUnknown dst) as HU
    by (unfold R; by rewrite GetUnknown_foldl_updateField).
  clearbody R. clear from.
  assert (updateUnknowns s ≠ UpdateReplacesUnknowns → GetUnknown dst = "" ∧ u = "") as Hplain.
  { intros Hmode. destruct Hunk as [?|[Hnd Hsrc]]; [done|].
    inversion Hnd; subst. by inversion Hsrc; subst. }
  unfold doUpdateUnknowns. cbn [GetUnknown copyBytes].
  destruct (updateUnknowns s) eqn:Hmode.
  - destruct Hplain as [Hd ->]; [done|]. apply Message_ext; congruence.
  - destruct Hplain as [Hd ->]; [done|]. cbn [String.eqb negb]. apply Message_ext; congruence.
  - apply Message_ext; [by rewrite Descriptor_SetUnknown|by rewrite Fields_SetUnknown|].
    apply GetUnknown_SetUnknown.
Qed.

(** X24.  With the complete mask, update is an assignment.  Where repeated
    fields are replaced, no field of the schema is an extension that the
    settings do not allow and field numbers are not shared, the generic
    update makes a destination of the schema equal to a source of the
    schema of the same message type, provided the unknown bytes do not
    stand in the way (the settings replace them, or neither record has
    any); and so does [Update] with the mask [*].  A record of the schema
    holds values of the types of its fields and at most one member of a
    oneof: the update of a member clears the others. *)
Theorem generic_update_assigns (sch : Schema) (s : settings) (root : string)
    (dst src : Message) :
  assigning sch s → conforms sch src → conforms sch dst →
  Descriptor dst = Descriptor src → unknowns_agree s dst src →
  updateMessage sch s dst src = src ∧
  Update sch (newFieldMaskT sch root s) (Some dst) (Some src) = Some src.
Proof.
  intros Hs Hsrc Hdst Hdesc Hunk.
  pose proof (updateMessage_assigns sch s src Hs Hsrc dst Hdst Hdesc Hunk) as Heq.
  split; [done|].
  change (Some (updateMessage sch s dst src) = Some src). by rewrite Heq.
Qed.

Lemma generic_update_assigns_witness :
  let dst := scenarioMsg [(field_b, ValueOfInt 2)] in
  let src := scenarioMsg [(field_a, ValueOfInt 1)] in
  updateMessage scenarioSchema defaultSettings dst src = src ∧
  Update scenarioSchema (newFieldMaskT scenarioSchema scenarioMessage defaultSettings)
    (Some dst) (Some src) = Some src.
Proof.
  apply (generic_update_assigns scenarioSchema defaultSettings scenarioMessage
           (scenarioMsg [(field_b, ValueOfInt 2)]) (scenarioMsg [(field_a, ValueOfInt 1)])).
  - split_and!; [reflexivity| |].
    + intros desc fd. unfold scenarioSchema. destruct (String.eqb desc scenarioMessage).
      * intros Hfd. repeat (apply elem_of_cons in Hfd as [->|Hfd]; [reflexivity|]).
        by apply elem_of_nil in Hfd.
      * by intros ?%elem_of_nil.
    + intros desc. unfold scenarioSchema. destruct (String.eqb desc scenarioMessage).
      * apply (bool_decide_unpack _). vm_compute. reflexivity.
      * constructor.
  - unfold scenarioMsg. simpl. constructor.
    + intros num fd v [[<- [= <- <-]]|[_ H]]%lookup_insert_Some.
      * split_and!; [|reflexivity|reflexivity]. unfold scenarioSchema. simpl. by left.
      * by rewrite lookup_empty in H.
    + intros n1 n2 fd1 v1 fd2 v2 [[<- _]|[_ H1]]%lookup_insert_Some
        [[<- _]|[_ H2]]%lookup_insert_Some Hne; try done; by rewrite lookup_empty in *.
    + intros num fd v m [[<- [= <- <-]]|[_ H]]%lookup_insert_Some; [done|].
      by rewrite lookup_empty in H.
  - unfold scenarioMsg. simpl. constructor.
    + intros num fd v [[<- [= <- <-]]|[_ H]]%lookup_insert_Some.
      * split_and!; [|reflexivity|reflexivity]. unfold scenarioSchema. simpl. right. by left.
      * by rewrite lookup_empty in H.
    + intros n1 n2 fd1 v1 fd2 v2 [[<- _]|[_ H1]]%lookup_insert_Some
        [[<- _]|[_ H2]]%lookup_insert_Some Hne; try done; by rewrite lookup_empty in *.
    + intros num fd v m [[<- [= <- <-]]|[_ H]]%lookup_insert_Some; [done|].
      by rewrite lookup_empty in H.
  - reflexivity.
  - right. unfold scenarioMsg. simpl. split; constructor.
    + intros num fd v m [[<- [= <- <-]]|[_ H]]%lookup_insert_Some; [done|].
      by rewrite lookup_empty in H.
    + intros num fd v m [[<- [= <- <-]]|[_ H]]%lookup_insert_Some; [done|].
      by rewrite lookup_empty in H.
Defined.

(** ** Update, field by field *)

Lemma Fields_Set_eq (m : Message) (fd : FieldDescriptor) (v : Value) :
  Fields (Set_ m fd v) !! Number fd = store fd v.
Proof. unfold Set_. by rewrite Fields_WithFields, lookup_partial_alter_eq. Qed.

Lemma Fields_Clear_eq (m : Message) (fd : FieldDescriptor) :
  Fields (Clear m fd) !! Number fd = None.
Proof. unfold Clear. by rewrite Fields_WithFields, lookup_delete_eq. Qed.

(** What a field mask makes of its field depends on the destination
    through that field only. *)
Lemma fieldMask_update_local (sch : Schema) (s : settings) (fm : fieldMask)
    (p1 p2 : Message) (value : option Value) (exists_ : bool) :
  Fields p1 !! Number (fieldMask_desc fm) = Fields p2 !! Number (fieldMask_desc fm) →
  Fields (fieldMask_update sch s fm p1 value exists_) !! Number (fieldMask_desc fm)
  = Fields (fieldMask_update sch s fm p2 value exists_) !! Number (fieldMask_desc fm).
Proof.
  intros H.
  destruct fm as [desc|desc|desc elemMask|desc fn keys|desc fn wildMask keyedMasks|desc mm];
    cbn [fieldMask_desc] in H |- *; cbn [fieldMask_update];
    unfold scalarMap_clear, msgMap_clear, mutableList, mutableMap, mutableMessage, Has, Get;
    rewrite ?H;
    repeat case_match; by rewrite ?Fields_Set_eq, ?Fields_Clear_eq.
Qed.

Lemma Fields_Set_other (m : Message) (fd : FieldDescriptor) (v : Value) (num : Z) :
  Number fd ≠ num →
  Fields (Set_ m fd v) !! num = Fields m !! num ∨ Fields (Set_ m fd v) !! num = None.
Proof.
  intros Hne. unfold Set_. rewrite Fields_WithFields, lookup_partial_alter_ne by done.
  apply lookup_clearOneof_cases.
Qed.

Lemma Fields_Set_sibling (m : Message) (fd fd' : FieldDescriptor) (v v' : Value) (num : Z) :
  Fields m !! num = Some (fd', v') → Number fd ≠ num → inOneofOf fd fd' = true →
  Fields (Set_ m fd v) !! num = None.
Proof.
  intros Hheld Hne Hin. unfold Set_. rewrite Fields_WithFields, lookup_partial_alter_ne by done.
  by eapply lookup_clearOneof_sibling.
Qed.

(** A field mask leaves a field of another number as it was or clears
    it. *)
Lemma fieldMask_update_other (sch : Schema) (s : settings) (fm : fieldMask)
    (parent : Message) (value : option Value) (exists_ : bool) (num : Z) :
  Number (fieldMask_desc fm) ≠ num →
  Fields (fieldMask_update sch s fm parent value exists_) !! num = Fields parent !! num ∨
  Fields (fieldMask_update sch s fm parent value exists_) !! num = None.
Proof.
  intros Hne.
  destruct fm as [desc|desc|desc elemMask|desc fn keys|desc fn wildMask keyedMasks|desc mm];
    cbn [fieldMask_desc] in Hne; cbn [fieldMask_update];
    unfold scalarMap_clear, msgMap_clear;
    repeat case_match;
    first [ by left | left; by apply Fields_Clear_ne | by apply Fields_Set_other ].
Qed.

Lemma GetUnknown_fieldMask_update (sch : Schema) (s : settings) (fm : fieldMask)
    (parent : Message) (value : option Value) (exists_ : bool) :
  GetUnknown (fieldMask_update sch s fm parent value exists_) = GetUnknown parent.
Proof.
  destruct fm; cbn [fieldMask_update]; unfold scalarMap_clear, msgMap_clear, Set_, Clear;
    repeat case_match; by rewrite ?GetUnknown_WithFields.
Qed.

Lemma GetUnknown_doUpdateUnknowns (s : settings) (d1 d2 src : Message) :
  GetUnknown d1 = GetUnknown d2 →
  GetUnknown (doUpdateUnknowns s d1 src) = GetUnknown (doUpdateUnknowns s d2 src).
Proof.
  intros H. unfold doUpdateUnknowns.
  destruct (updateUnknowns s); [done| |]; repeat case_match;
    by rewrite ?GetUnknown_SetUnknown, ?H.
Qed.

(** What a field mask leaves in its field is stored under the mask's
    descriptor, unless it is what the destination held there. *)
Lemma fieldMask_update_own (sch : Schema) (s : settings) (fm : fieldMask)
    (parent : Message) (value : option Value) (exists_ : bool)
    (fd' : FieldDescriptor) (v : Value) :
  Fields (fieldMask_update sch s fm parent value exists_) !! Number (fieldMask_desc fm)
  = Some (fd', v) →
  fd' = fieldMask_desc fm ∨ Fields parent !! Number (fieldMask_desc fm) = Some (fd', v).
Proof.
  assert (∀ fd x, store fd x = Some (fd', v) → fd' = fd) as Hstore.
  { intros fd x. unfold store. case_match; [|done]. by intros [= <- _]. }
  destruct fm as [desc|desc|desc elemMask|desc fn keys|desc fn wildMask keyedMasks|desc mm];
    cbn [fieldMask_desc fieldMask_update]; unfold scalarMap_clear, msgMap_clear;
    repeat case_match; rewrite ?Fields_Set_eq, ?Fields_Clear_eq;
    first [done | by right | by intros ?%Hstore; left].
Qed.

(** X22.  Update through a record mask that is not complete works field by
    field.  When its field masks are masks of different fields that do
    not share a oneof among themselves or with what the destination holds
    as the field of another mask, the field of each mask is in the end
    what that mask alone would have made of the destination's field,
    every field of the destination that all field masks spare is as it
    was, and the unknown bytes are those [doUpdateUnknowns] gives the
    destination: the result does not depend on the order in which the
    field masks are visited.  A field the destination holds is cleared
    when it is a member of the oneof of another field that has a scalar
    field mask and that the source holds. *)
Theorem update_field_by_field (sch : Schema) (s : settings) (mdesc : string)
    (fldDescs : option (list FieldDescriptor)) (fields : gmap string fieldMask)
    (dst src : Message) :
  independent_fields fields dst →
  let out := msgMask_update sch s (MkMsgMask mdesc fldDescs (Some fields)) dst src in
  (∀ name fm, fields !! name = Some fm →
     Fields out !! Number (fieldMask_desc fm)
     = update_alone sch s fldDescs name fm dst src) ∧
  (∀ num, (∀ name fm, fields !! name = Some fm → spares (fieldMask_desc fm) dst num) →
     Fields out !! num = Fields dst !! num) ∧
  GetUnknown out = GetUnknown (doUpdateUnknowns s dst src) ∧
  (∀ name desc key_ fd num fd' v,
     fields !! name = Some (scalarFieldMask desc) →
     doLookupField (lookupField s) (default [] fldDescs) name = Some (key_, fd) →
     Has src fd = true →
     Fields dst !! num = Some (fd', v) → Number desc ≠ num → inOneofOf desc fd' = true →
     Fields out !! num = None).
Proof.
  intros Hindep out. unfold out. rewrite msgMask_update_eq.
  rewrite (proj1 (Fields_doUpdateUnknowns s _ src)).
  set (step := λ (name : string) (mask : fieldMask) (d : Message),
        match doLookupField (lookupField s) (default [] fldDescs) name with
        | Some (_, fd) => fieldMask_update sch s mask d (Get src fd) (Has src fd)
        | None => d
        end).
  assert (∀ name fm d num, spares (fieldMask_desc fm) d num →
            Fields (step name fm d) !! num = Fields d !! num) as Hframe.
  { intros name fm d num Hne. unfold step.
    destruct (doLookupField _ _ name) as [[? fd]|]; [|done].
    by apply fieldMask_update_frame. }
  assert (∀ name fm d, GetUnknown (step name fm d) = GetUnknown d) as Hunknown.
  { intros name fm d. unfold step.
    destruct (doLookupField _ _ name) as [[? fd]|]; [|done].
    apply GetUnknown_fieldMask_update. }
  assert (∀ name fm fd' v,
            update_alone sch s fldDescs name fm dst src = Some (fd', v) →
            fd' = fieldMask_desc fm ∨
            Fields dst !! Number (fieldMask_desc fm) = Some (fd', v)) as Hown.
  { intros name fm fd' v. unfold update_alone.
    destruct (doLookupField _ _ name) as [[? fd]|]; [|by right].
    apply fieldMask_update_own. }
  assert (∀ name fm d num, Number (fieldMask_desc fm) ≠ num →
            Fields (step name fm d) !! num = Fields d !! num ∨
            Fields (step name fm d) !! num = None) as Hstep.
  { intros name fm d num Hne. unfold step.
    destruct (doLookupField _ _ name) as [[? fd]|]; [|by left].
    by apply fieldMask_update_other. }
  cut ((∀ name fm, fields !! name = Some fm →
          Fields (map_fold step dst fields) !! Number (fieldMask_desc fm)
          = update_alone sch s fldDescs name fm dst src) ∧
       (∀ num, (∀ name fm, fields !! name = Some fm → spares (fieldMask_desc fm) dst num) →
          Fields (map_fold step dst fields) !! num = Fields dst !! num) ∧
       GetUnknown (map_fold step dst fields) = GetUnknown dst ∧
       (∀ num, (∀ name fm, fields !! name = Some fm → Number (fieldMask_desc fm) ≠ num) →
          Fields (map_fold step dst fields) !! num = Fields dst !! num ∨
          Fields (map_fold step dst fields) !! num = None) ∧
       (∀ name desc key_ fd num fd' v,
          fields !! name = Some (scalarFieldMask desc) →
          doLookupField (lookupField s) (default [] fldDescs) name = Some (key_, fd) →
          Has src fd = true →
          Fields dst !! num = Some (fd', v) → Number desc ≠ num → inOneofOf desc fd' = true →
          Fields (map_fold step dst fields) !! num = None)).
  { intros (H1 & H2 & H3 & _ & H5). split_and!; [done|done| |done].
    by apply GetUnknown_doUpdateUnknowns. }
  assert (∀ (m : gmap string fieldMask) name desc num fd' v,
            independent_fields m dst → m !! name = Some (scalarFieldMask desc) →
            Fields dst !! num = Some (fd', v) → inOneofOf desc fd' = true →
            ∀ name' fm', m !! name' = Some fm' → name' ≠ name →
              Number (fieldMask_desc fm') ≠ num) as Hsole.
  { intros m name desc num fd' v Hm Hname Hheld Hin name' fm' Hfm' Hne Heq.
    destruct (Hm name name' _ _ Hname Hfm') as [_ [_ Hspared]]; [done|].
    rewrite Heq in Hspared. cbn [fieldMask_desc] in Hspared.
    rewrite (Hspared _ _ Hheld) in Hin. done. }
  revert Hindep.
  apply (map_fold_weak_ind
           (λ r (m : gmap string fieldMask),
              independent_fields m dst →
              (∀ name fm, m !! name = Some fm →
                 Fields r !! Number (fieldMask_desc fm)
                 = update_alone sch s fldDescs name fm dst src) ∧
              (∀ num, (∀ name fm, m !! name = Some fm → spares (fieldMask_desc fm) dst num) →
                 Fields r !! num = Fields dst !! num) ∧
              GetUnknown r = GetUnknown dst ∧
              (∀ num, (∀ name fm, m !! name = Some fm → Number (fieldMask_desc fm) ≠ num) →
                 Fields r !! num = Fields dst !! num ∨ Fields r !! num = None) ∧
              (∀ name desc key_ fd num fd' v,
                 m !! name = Some (scalarFieldMask desc) →
                 doLookupField (lookupField s) (default [] fldDescs) name = Some (key_, fd) →
                 Has src fd = true →
                 Fields dst !! num = Some (fd', v) → Number desc ≠ num →
                 inOneofOf desc fd' = true →
                 Fields r !! num = None))).
  { intros _. split_and!; [|done|done|by left|].
    - intros name fm. by rewrite lookup_empty.
    - intros name desc key_ fd num fd' v. by rewrite lookup_empty. }
  intros i x m r Hfresh IH Hindep.
  assert (independent_fields m dst) as Hm.
  { intros n1 n2 f1 f2 H1 H2 Hne. apply (Hindep n1 n2); [| |done].
    - rewrite lookup_insert_ne; [done|]. intros <-. by rewrite Hfresh in H1.
    - rewrite lookup_insert_ne; [done|]. intros <-. by rewrite Hfresh in H2. }
  assert (∀ name fm, m !! name = Some fm →
            inOneofOf (fieldMask_desc x) (fieldMask_desc fm) = false ∧
            spares (fieldMask_desc x) dst (Number (fieldMask_desc fm)) ∧
            spares (fieldMask_desc fm) dst (Number (fieldMask_desc x))) as Hother.
  { intros name fm Hfm.
    assert (name ≠ i) as Hne by (intros ->; by rewrite Hfresh in Hfm).
    destruct (Hindep i name x fm) as [? ?];
      [by rewrite lookup_insert_eq|by rewrite lookup_insert_ne|done|].
    destruct (Hindep name i fm x) as [? ?];
      [by rewrite lookup_insert_ne|by rewrite lookup_insert_eq|done|].
    done. }
  destruct (IH Hm) as (IH1 & IH2 & IH3 & IH4 & IH5). split_and!.
  - intros name fm [[<- <-]|[Hne Hfm]]%lookup_insert_Some.
    + assert (Fields r !! Number (fieldMask_desc x) = Fields dst !! Number (fieldMask_desc x))
        as Hr by (apply IH2; intros name fm Hfm; by eapply Hother).
      unfold step, update_alone.
      destruct (doLookupField _ _ i) as [[? fd]|]; [|done].
      by apply fieldMask_update_local.
    + destruct (Hother name fm Hfm) as (Hsep & [Hnum Hdst] & _).
      rewrite Hframe; [by apply IH1|].
      split; [done|]. intros fd' v. rewrite (IH1 name fm Hfm).
      intros [->|Hheld]%Hown; [done|by eapply Hdst].
  - intros num Hnum.
    assert (Fields r !! num = Fields dst !! num) as Hr.
    { apply IH2. intros name fm Hfm. apply (Hnum name).
      rewrite lookup_insert_ne; [done|]. intros <-. by rewrite Hfresh in Hfm. }
    destruct (Hnum i x) as [Hne Hspared]; [by rewrite lookup_insert_eq|].
    rewrite Hframe; [done|]. split; [done|]. by rewrite Hr.
  - by rewrite Hunknown.
  - intros num Hnum.
    destruct (Hstep i x r num) as [->| ->]; [by apply (Hnum i), lookup_insert_eq| |by right].
    apply IH4. intros name fm Hfm. apply (Hnum name).
    rewrite lookup_insert_ne; [done|]. intros <-. by rewrite Hfresh in Hfm.
  - intros name desc key_ fd num fd' v Hname Hlookup Hhas Hheld Hne Hin.
    pose proof (Hsole _ _ _ _ _ _ Hindep Hname Hheld Hin) as Hothers.
    apply lookup_insert_Some in Hname as [[-> ->]|[Hni Hname]].
    + assert (Fields r !! num = Fields dst !! num ∨ Fields r !! num = None) as Hr.
      { apply IH4. intros name' fm Hfm. apply (Hothers name').
        - rewrite lookup_insert_ne; [done|]. intros <-. by rewrite Hfresh in Hfm.
        - intros ->. by rewrite Hfresh in Hfm. }
      unfold step. rewrite Hlookup. cbn [fieldMask_update].
      rewrite Hhas. unfold Has in Hhas. apply bool_decide_eq_true in Hhas as [p Hp].
      unfold Get. rewrite Hp. cbn [fmap option_fmap option_map].
      destruct Hr as [Hr|Hr].
      * rewrite Hheld in Hr. by eapply Fields_Set_sibling.
      * destruct (Fields_Set_other r desc p.2 num Hne) as [->| ->]; done.
    + assert (Fields r !! num = None) as Hr by (by eapply IH5).
      destruct (Hstep i x r num) as [->| ->]; [|done|done].
      apply (Hothers i); [by rewrite lookup_insert_eq|done].
Qed.

Lemma update_field_by_field_witness :
  let fields : gmap string fieldMask :=
    {[ "int32_field" := scalarFieldMask int32_field;
       "string_oneof_field" := scalarFieldMask string_oneof_field ]} in
  let dst := msgOf [(int32_field, ValueOfInt 1); (string_field, ValueOfString "s");
                    (int32_oneof_field, ValueOfInt 5)] "" in
  let src := msgOf [(int32_field, ValueOfInt 7);
                    (string_oneof_field, ValueOfString "x")] "" in
  let out := msgMask_update testSchema defaultSettings
               (MkMsgMask testMessage (Some (testSchema testMessage)) (Some fields))
               dst src in
  (∀ name fm, fields !! name = Some fm →
     Fields out !! Number (fieldMask_desc fm)
     = update_alone testSchema defaultSettings (Some (testSchema testMessage))
         name fm dst src) ∧
  (∀ num, (∀ name fm, fields !! name = Some fm → spares (fieldMask_desc fm) dst num) →
     Fields out !! num = Fields dst !! num) ∧
  GetUnknown out = GetUnknown (doUpdateUnknowns defaultSettings dst src) ∧
  (∀ name desc key_ fd num fd' v,
     fields !! name = Some (scalarFieldMask desc) →
     doLookupField (lookupField defaultSettings)
       (default [] (Some (testSchema testMessage))) name = Some (key_, fd) →
     Has src fd = true →
     Fields dst !! num = Some (fd', v) → Number desc ≠ num → inOneofOf desc fd' = true →
     Fields out !! num = None).
Proof.
  apply (update_field_by_field testSchema defaultSettings testMessage
           (Some (testSchema testMessage))
           {[ "int32_field" := scalarFieldMask int32_field;
              "string_oneof_field" := scalarFieldMask string_oneof_field ]}
           (msgOf [(int32_field, ValueOfInt 1); (string_field, ValueOfString "s");
                   (int32_oneof_field, ValueOfInt 5)] "")
           (msgOf [(int32_field, ValueOfInt 7);
                   (string_oneof_field, ValueOfString "x")] "")).
  intros n1 n2 f1 f2 H1 H2 Hne.
  apply lookup_insert_Some in H1 as [[<- <-]|[Hn1 H1]];
    [|apply lookup_singleton_Some in H1 as [<- <-]];
    (apply lookup_insert_Some in H2 as [[<- <-]|[Hn2 H2]];
     [|apply lookup_singleton_Some in H2 as [<- <-]]); try done;
    (split; [reflexivity|split; [done|]]);
    intros fd' v Hheld; vm_compute in Hheld; by injection Hheld as <- _.
Defined.

(** ** Paths below a list *)

Section list_paths.
Context (sch : Schema) (s : settings) (env : TextEnv).

Lemma newFieldMask_list (fd : FieldDescriptor) :
  Card fd = Repeated → newFieldMask fd = Ok (newListFieldMask fd).
Proof. intros Hcard. unfold newFieldMask, IsList. by rewrite Hcard. Qed.

Lemma list_mask_rejects (fuel : nat) (fld : fieldMask) (sub seg rest : string) :
  (∃ desc, fld = scalarListFieldMask desc) ∨ (∃ desc elemMask, fld = msgListFieldMask desc elemMask) →
  nextSegment sub = Ok (seg, rest) → seg ≠ "*" →
  fieldMask_init sch s env (S fuel) fld sub = (fld, Err (errInvalidListPath sub)) ∧
  fieldMask_append sch s env (S fuel) fld sub = (fld, Err (errInvalidListPath sub)).
Proof.
  intros Hfld Hseg Hstar.
  assert (is_empty_or_star sub = false) as Hes.
  { apply is_empty_or_star_false. split; intros ->; [done|]. by injection Hseg as <- _. }
  destruct Hfld as [[desc ->]|(desc & elemMask & ->)];
    rewrite fieldMask_init_S, fieldMask_append_S.
  - unfold scalarList_add. rewrite Hes, Hseg. by apply eqb_false_iff in Hstar as ->.
  - rewrite Hes, Hseg. cbn [or_return]. by apply eqb_false_iff in Hstar as ->.
Qed.

(** X9.  A list has no paths to single elements: below a repeated field,
    of scalars or of records, a path has to go on with [*]; any other
    segment, an index for one, is rejected with the invalid-list-path
    error that carries the rest of the path, as a first path and as an
    appended one, and the mask is left as it was. *)
Theorem list_index_rejected (fuel : nat) (mm : msgMask) (name sub key_ : string)
    (fd : FieldDescriptor) (seg rest : string) :
  is_segment name →
  msgMask_lookupField s mm name = Ok (Some (key_, fd)) →
  Card fd = Repeated →
  nextSegment sub = Ok (seg, rest) → seg ≠ "*" →
  msgMask_init sch s env (S (S fuel)) mm (joinPath name sub)
  = (mm, Err (errInvalidListPath sub)) ∧
  (∀ fields, mm_fields mm = Some fields →
     fields !! key_ = None ∨
     (∃ desc, fields !! key_ = Some (scalarListFieldMask desc)) ∨
     (∃ desc elemMask, fields !! key_ = Some (msgListFieldMask desc elemMask)) →
     msgMask_append sch s env (S (S fuel)) mm (joinPath name sub)
     = (mm, Err (errInvalidListPath sub))).
Proof.
  intros Hname Hlookup Hcard Hseg Hstar.
  assert (sub ≠ "") as Hsub by (by intros ->).
  pose proof (newFieldMask_list fd Hcard) as Hnew.
  assert ((∃ desc, newListFieldMask fd = scalarListFieldMask desc)
          ∨ (∃ desc elemMask, newListFieldMask fd = msgListFieldMask desc elemMask)) as Hfresh.
  { unfold newListFieldMask. destruct (isMessage (ElemKind fd)); eauto. }
  split.
  - rewrite (msgMask_init_field _ _ _ _ _ _ _ _ _ Hname Hsub Hlookup), Hnew.
    cbn [or_return].
    by rewrite (proj1 (list_mask_rejects fuel _ sub seg rest Hfresh Hseg Hstar)).
  - intros fields Hfields Hkey.
    rewrite (msgMask_append_field _ _ _ _ _ _ _ _ _ _ Hname Hsub Hlookup Hfields).
    destruct Hkey as [-> | Hkey].
    + rewrite Hnew. cbn [or_return].
      by rewrite (proj1 (list_mask_rejects fuel _ sub seg rest Hfresh Hseg Hstar)).
    + assert (∃ fld, fields !! key_ = Some fld ∧
                ((∃ desc, fld = scalarListFieldMask desc)
                 ∨ (∃ desc elemMask, fld = msgListFieldMask desc elemMask)))
        as (fld & Hfld & Hkind).
      { destruct Hkey as [[desc Hk]|(desc & elemMask & Hk)]; eexists; eauto. }
      rewrite Hfld, (proj2 (list_mask_rejects fuel fld sub seg rest Hkind Hseg Hstar)).
      by rewrite insert_id, with_fields_id.
Qed.
End list_paths.

Lemma list_index_rejected_witness :
  msgMask_init testSchema defaultSettings asciiEnv 2
    (newMsgMask testSchema testMessage) (joinPath "repeated_int32_field" "0")
  = (newMsgMask testSchema testMessage, Err (errInvalidListPath "0")) ∧
  (∀ fields, mm_fields (newMsgMask testSchema testMessage) = Some fields →
     fields !! "repeated_int32_field" = None ∨
     (∃ desc, fields !! "repeated_int32_field" = Some (scalarListFieldMask desc)) ∨
     (∃ desc elemMask,
        fields !! "repeated_int32_field" = Some (msgListFieldMask desc elemMask)) →
     msgMask_append testSchema defaultSettings asciiEnv 2
       (newMsgMask testSchema testMessage) (joinPath "repeated_int32_field" "0")
     = (newMsgMask testSchema testMessage, Err (errInvalidListPath "0"))).
Proof.
  apply (list_index_rejected testSchema defaultSettings asciiEnv 0
           (newMsgMask testSchema testMessage) "repeated_int32_field" "0"
           "repeated_int32_field" repeated_int32_field "0" "").
  - apply (seg_ident "r" "epeated_int32_field"); [reflexivity|discriminate..|reflexivity].
  - reflexivity.
  - reflexivity.
  - reflexivity.
  - discriminate.
Defined.

(** ** The order of paths *)

Section append_order.
Context (sch : Schema) (s : settings) (env : TextEnv).

Lemma msgMask_lookupField_with_fields (mm : msgMask) (f : option (gmap string fieldMask))
    (name : string) :
  msgMask_lookupField s (with_fields mm f) name = msgMask_lookupField s mm name.
Proof. by destruct mm as [d [fds|] fs]. Qed.

Lemma mm_fields_with_fields (mm : msgMask) (f : option (gmap string fieldMask)) :
  mm_fields (with_fields mm f) = f.
Proof. by destruct mm. Qed.

Lemma with_fields_with_fields (mm : msgMask) (f g : option (gmap string fieldMask)) :
  with_fields (with_fields mm f) g = with_fields mm g.
Proof. by destruct mm. Qed.

(** A successful append of a path that starts with the name of a field,
    to a mask that is not complete, replaces the field mask under the
    key of the field and touches nothing else. *)
Lemma msgMask_append_Ok (fuel : nat) (mm mm' : msgMask) (path name sub key_ : string)
    (fd : FieldDescriptor) (fs : gmap string fieldMask) :
  is_empty_or_star path = false → nextSegment path = Ok (name, sub) →
  msgMask_lookupField s mm name = Ok (Some (key_, fd)) → mm_fields mm = Some fs →
  msgMask_append sch s env (S fuel) mm path = (mm', Ok tt) ↔
  ∃ fld, field_step sch s env fuel fd sub (fs !! key_) = Some fld ∧
         mm' = with_fields mm (Some (<[key_ := fld]> fs)).
Proof.
  intros Hes Hseg Hlookup Hfields.
  rewrite msgMask_append_S, Hes, Hseg. cbn [or_return]. rewrite Hlookup, Hfields.
  cbn [or_return]. unfold field_step.
  destruct (fs !! key_) as [old|].
  - destruct (fieldMask_append sch s env fuel old sub) as [fld [[]|e|msg|]]; split;
      try (by intros [= <-]; eauto); try (by intros (? & [= <-] & ->)); try done;
      by intros (? & ? & ?).
  - destruct (newFieldMask fd) as [fresh|e|msg|]; cbn [or_return];
      [|split; [done|by intros (? & ? & ?)]..].
    destruct (fieldMask_init sch s env fuel fresh sub) as [fld [[]|e|msg|]]; split;
      try (by intros [= <-]; eauto); try (by intros (? & [= <-] & ->)); try done;
      by intros (? & ? & ?).
Qed.

(** X15.  Paths for different fields can be appended in either order: when
    two paths start with the names of fields whose keys differ, and the
    mask is not complete, appending the one and then the other succeeds
    exactly when appending them the other way round does, and leaves the
    same mask. *)
Theorem append_commutes (fuel : nat) (mm mm1 mm12 : msgMask) (p1 p2 n1 n2 s1 s2 k1 k2 : string)
    (fd1 fd2 : FieldDescriptor) (fs : gmap string fieldMask) :
  mm_fields mm = Some fs →
  is_empty_or_star p1 = false → nextSegment p1 = Ok (n1, s1) →
  msgMask_lookupField s mm n1 = Ok (Some (k1, fd1)) →
  is_empty_or_star p2 = false → nextSegment p2 = Ok (n2, s2) →
  msgMask_lookupField s mm n2 = Ok (Some (k2, fd2)) →
  k1 ≠ k2 →
  msgMask_append sch s env (S fuel) mm p1 = (mm1, Ok tt) →
  msgMask_append sch s env (S fuel) mm1 p2 = (mm12, Ok tt) →
  ∃ mm2,
    msgMask_append sch s env (S fuel) mm p2 = (mm2, Ok tt) ∧
    msgMask_append sch s env (S fuel) mm2 p1 = (mm12, Ok tt).
Proof.
  intros Hfs He1 Hs1 Hl1 He2 Hs2 Hl2 Hne H1 H2.
  apply (msgMask_append_Ok fuel mm mm1 p1 n1 s1 k1 fd1 fs He1 Hs1 Hl1 Hfs)
    in H1 as (f1 & Hf1 & ->).
  apply (msgMask_append_Ok fuel _ mm12 p2 n2 s2 k2 fd2 (<[k1 := f1]> fs) He2 Hs2) in H2;
    [|by rewrite msgMask_lookupField_with_fields|by rewrite mm_fields_with_fields].
  destruct H2 as (f2 & Hf2 & ->). rewrite lookup_insert_ne in Hf2 by done.
  exists (with_fields mm (Some (<[k2 := f2]> fs))). split.
  - apply (msgMask_append_Ok fuel mm _ p2 n2 s2 k2 fd2 fs He2 Hs2 Hl2 Hfs). eauto.
  - apply (msgMask_append_Ok fuel _ _ p1 n1 s1 k1 fd1 (<[k2 := f2]> fs) He1 Hs1);
      [by rewrite msgMask_lookupField_with_fields|by rewrite mm_fields_with_fields|].
    exists f1. rewrite lookup_insert_ne by done. split; [done|].
    by rewrite !with_fields_with_fields, insert_insert_ne.
Qed.
End append_order.

Lemma append_commutes_witness :
  let fs : gmap string fieldMask := {[ "int32_field" := scalarFieldMask int32_field ]} in
  let mm := MkMsgMask testMessage (Some (testSchema testMessage)) (Some fs) in
  let mm12 :=
    MkMsgMask testMessage (Some (testSchema testMessage))
      (Some (<["bytes_field" := scalarFieldMask bytes_field]>
               (<["string_field" := scalarFieldMask string_field]> fs))) in
  ∃ mm2,
    msgMask_append testSchema defaultSettings asciiEnv 2 mm "bytes_field" = (mm2, Ok tt) ∧
    msgMask_append testSchema defaultSettings asciiEnv 2 mm2 "string_field" = (mm12, Ok tt).
Proof.
  apply (append_commutes testSchema defaultSettings asciiEnv 1
           (MkMsgMask testMessage (Some (testSchema testMessage))
              (Some {[ "int32_field" := scalarFieldMask int32_field ]}))
           (MkMsgMask testMessage (Some (testSchema testMessage))
              (Some (<["string_field" := scalarFieldMask string_field]>
                       {[ "int32_field" := scalarFieldMask int32_field ]})))
           _ "string_field" "bytes_field" "string_field" "bytes_field" "" ""
           "string_field" "bytes_field" string_field bytes_field
           {[ "int32_field" := scalarFieldMask int32_field ]});
    try reflexivity.
  discriminate.
Defined.

(** ** Where mask and clone agree *)

Lemma omap_select_ext (s : settings) (ms cs : gmap string (Value → Value))
    (F : gmap Z (FieldDescriptor * Value)) :
  (∀ name, match ms !! name, cs !! name with
           | Some f, Some c => ∀ v, f v = c v
           | None, None => True
           | _, _ => False
           end) →
  omap (select s ms) F = omap (select s cs) F.
Proof.
  intros Hext. apply map_eq. intros num. rewrite !lookup_omap.
  destruct (F !! num) as [[fd v]|]; [|done]. cbn [mbind option_bind].
  unfold select. cbn [fst snd]. specialize (Hext (Name fd)).
  destruct (ms !! Name fd) as [f|], (cs !! Name fd) as [c|]; try done. by rewrite Hext.
Qed.

Lemma onMessage_ext (f c : Message → Message) (v : Value) :
  (∀ m, f m = c m) → onMessage f v = onMessage c v.
Proof. intros Hext. destruct v; cbn [onMessage]; by rewrite ?Hext. Qed.

Lemma msgMap_entries_ext (s : settings) (fn : keyFuncs) (wild : option msgMask)
    (keyed : option (gmap keyT msgMask)) (src : gmap MapKey Value) :
  (∀ m, wild = Some m → ∀ msg, msgMask_mask s m msg = msgMask_clone s m msg) →
  (∀ km k m, keyed = Some km → km !! k = Some m →
     ∀ msg, msgMask_mask s m msg = msgMask_clone s m msg) →
  map_imap (λ k v,
              match lookupMask_with fn (msgMask_mask s <$> wild)
                      (fmap (M := gmap keyT) (msgMask_mask s) <$> keyed) k with
              | Some m => Some (onMessage m v)
              | None => None
              end) src
  = map_imap (λ k v,
                match lookupMask_with fn (msgMask_clone s <$> wild)
                        (fmap (M := gmap keyT) (msgMask_clone s) <$> keyed) k with
                | Some m => Some (onMessage m v)
                | None => None
                end) src.
Proof.
  intros Hwild Hkeyed. apply map_eq. intros k. rewrite !map_lookup_imap.
  destruct (src !! k) as [v|]; [|done]. cbn [mbind option_bind].
  rewrite !lookupMask_with_fmap.
  destruct (lookupMask_with fn wild keyed k) as [m|] eqn:Hm; [|done].
  cbn [fmap option_fmap option_map]. f_equal. apply onMessage_ext.
  apply lookupMask_with_Some in Hm as [->|(km & key_ & -> & Hm)]; eauto.
Qed.

Lemma mask_clone_selective (s : settings) :
  (∀ mm, msgMask_selective mm → ∀ msg, msgMask_mask s mm msg = msgMask_clone s mm msg) ∧
  (∀ fm, fieldMask_selective fm → ∀ v, fieldMask_mask s fm v = fieldMask_clone s fm v).
Proof.
  apply mask_tree_ind.
  - intros d fds Hsel. inversion Hsel.
  - intros d fds fields IH Hsel [desc F u]. inversion Hsel as [? ? ? Hfields]; subst.
    rewrite msgMask_mask_eq, msgMask_clone_eq. cbn [Fields]. cbn zeta.
    assert (omap (select s (fieldMask_mask s <$> fields)) F
            = omap (select s (fieldMask_clone s <$> fields)) F) as ->.
    { apply omap_select_ext. intros name. rewrite !lookup_fmap.
      destruct (fields !! name) as [fm|] eqn:Hfm; [|done]. cbn [fmap option_fmap option_map].
      apply (IH name fm Hfm). by eapply Hfields. }
    by destruct (retainsUnknowns s).
  - intros d _ v. cbn [fieldMask_mask fieldMask_clone]. rewrite cloneBytesValue_id.
    by destruct (isBytesKind (ElemKind d)).
  - intros d Hsel v. inversion Hsel as [|? Hname| | | | |]; subst.
    cbn [fieldMask_mask fieldMask_clone]. unfold copyList, copyList_body. rewrite Hname.
    destruct v as [| | | | |l|]; try done. f_equal. cbn [app].
    rewrite (map_fixed cloneBytesValue) by (intros; apply cloneBytesValue_id).
    by destruct (isBytesKind (ElemKind d)).
  - intros d Hsel. inversion Hsel.
  - intros d m IH Hsel v. inversion Hsel as [| |? ? Hm| | | |]; subst.
    cbn [fieldMask_mask fieldMask_clone]. destruct v as [| | | | |l|]; try done.
    f_equal. cbn [app]. apply list_fmap_ext. intros _ x _. apply onMessage_ext. by apply IH.
  - intros d fn keys Hsel v. cbn [fieldMask_mask fieldMask_clone].
    destruct keys as [keys|].
    + destruct v as [| | | | | |src]; try done.
      rewrite (fmap_fixed cloneBytesValue) by (intros; apply cloneBytesValue_id).
      by destruct (isBytesKind (ElemKind d)).
    + inversion Hsel as [| | |? ? Hname| | |]; subst.
      destruct v as [| | | | | |src]; try done. f_equal.
      unfold copyMap, copyMap_body. rewrite Hname.
      destruct (isBytesKind (ElemKind d)); rewrite (right_id_L ∅ (∪)); [|done].
      by rewrite (fmap_fixed cloneBytesValue) by (intros; apply cloneBytesValue_id).
  - intros d fn wild keyed IHw IHk Hsel v.
    inversion Hsel as [| | | | |? ? ? ? Hsome Hw Hk|]; subst.
    destruct wild as [w|], keyed as [km|], v as [| | | | | |src]; try done;
      try (by destruct Hsome);
      cbn [fieldMask_mask fieldMask_clone]; f_equal;
      apply (msgMap_entries_ext s fn _ _ src); eauto.
  - intros d mm IH Hsel v. inversion Hsel as [| | | | | |? ? Hmm]; subst.
    cbn [fieldMask_mask fieldMask_clone]. apply onMessage_ext. by apply IH.
Qed.

(** X25.  Where [Mask] and [Clone] agree whatever the record holds: with a
    mask no part of which retains a record, or a list or map of records,
    as a whole, masking a record in place gives the record that [Clone]
    returns, unknown bytes and extension fields included. *)
Theorem Mask_Clone_agree_on_selective (fm : FieldMask) (msg : option Message) :
  msgMask_selective (fm_msg fm) → Mask fm msg = Clone fm msg.
Proof.
  intros Hsel. destruct msg as [m|]; [|done]. cbn [Mask Clone]. f_equal.
  by apply mask_clone_selective.
Qed.

Lemma Mask_Clone_agree_on_selective_witness :
  Mask fooInt32Mask (Some withUnknown) = Clone fooInt32Mask (Some withUnknown).
Proof.
  apply (Mask_Clone_agree_on_selective fooInt32Mask (Some withUnknown)).
  unfold fooInt32Mask, rootMask. cbn [fm_msg]. constructor.
  intros name fm [<- <-]%lookup_singleton_Some. constructor.
  - by right.
  - done.
  - intros km k m [= <-] [<- <-]%lookup_singleton_Some. constructor.
    intros name fm [<- <-]%lookup_singleton_Some. constructor.
Defined.
